(** * Range tracking and version reconciliation of [colorization.ts]

    A shallow embedding of [ColorizationState] (file
    [Extension/src/LanguageServer/colorization.ts]): the geometric
    transform of a range through a text replacement ([fixRange] and its
    helpers), the versioned edit log ([addEdits], [applyEdits],
    [purgeOldVersionedEdits]) and the decoration life cycle
    ([updateColorizationRanges], [onSettingsChanged]).

    JavaScript numbers that hold line numbers, columns and document
    versions are integers; they are modelled by [Z]. *)

From Stdlib Require Import ZArith List String Ascii Bool Lia Sorted.
Import ListNotations.
Local Open Scope Z_scope.

(* ===================================================================== *)
(** ** Results of code that may throw *)

Inductive result (A : Type) : Type :=
| Ok (a : A)
| Throw.
Arguments Ok {A} a.
Arguments Throw {A}.

Definition rbind {A B : Type} (r : result A) (k : A -> result B) : result B :=
  match r with
  | Ok a => k a
  | Throw => Throw
  end.

Notation "'let?' x ':=' e 'in' k" := (rbind e (fun x => k))
  (at level 10, x name, e at level 100, k at level 200).

(* ===================================================================== *)
(** ** The part of the [vscode] API the file relies on

    [vscode.Position] and [vscode.Range] are not defined in this repository.
    Their constructors are modelled after the editor API: a [Position]
    refuses a negative line or character by throwing, [translate] builds a
    new [Position] from the sums, and a [Range] built from two positions
    stores them in order, swapping them when the first is not before the
    second. *)

Module VSCode.

Record Position : Type := { line : Z; character : Z }.

Record Range : Type := { start : Position; end_ : Position }.

Definition newPosition (l c : Z) : result Position :=
  if l <? 0 then Throw
  else if c <? 0 then Throw
  else Ok {| line := l; character := c |}.

Definition isBefore (p other : Position) : bool :=
  if line p <? line other then true
  else if line other <? line p then false
  else character p <? character other.

Definition isBeforeOrEqual (p other : Position) : bool :=
  if line p <? line other then true
  else if line other <? line p then false
  else character p <=? character other.

Definition isAfterOrEqual (p other : Position) : bool :=
  negb (isBefore p other).

Definition translate (p : Position) (lineDelta characterDelta : Z)
  : result Position :=
  newPosition (line p + lineDelta) (character p + characterDelta).

(** [new vscode.Range(start, end)] *)
Definition newRange (s e : Position) : Range :=
  if isBefore s e then {| start := s; end_ := e |}
  else {| start := e; end_ := s |}.

(** [new vscode.Range(startLine, startCharacter, endLine, endCharacter)] *)
Definition newRange4 (sl sc el ec : Z) : result Range :=
  let? s := newPosition sl sc in
  let? e := newPosition el ec in
  Ok (newRange s e).

End VSCode.
Import VSCode.

(** The lexicographic order on positions, as a proposition. *)
Definition pos_le (p q : Position) : Prop :=
  line p < line q \/ (line p = line q /\ character p <= character q).

Definition pos_lt (p q : Position) : Prop :=
  line p < line q \/ (line p = line q /\ character p < character q).

(** What every [Position] and [Range] handed out by the editor satisfies. *)
Definition wf_pos (p : Position) : Prop := 0 <= line p /\ 0 <= character p.

Definition wf_range (r : Range) : Prop :=
  wf_pos (start r) /\ wf_pos (end_ r) /\ pos_le (start r) (end_ r).

(* ===================================================================== *)
(** ** Text changes *)

(** [vscode.TextDocumentContentChangeEvent]: the replaced range and the new
    text.  A character of the string stands for one UTF-16 code unit. *)
Record TextDocumentContentChangeEvent : Type :=
  { range : Range; text : string }.

Definition newline : ascii := "010"%char.

(** [text.split("\n")] *)
Fixpoint split_newline (s : string) : list string :=
  match s with
  | EmptyString => [EmptyString]
  | String c rest =>
      if Ascii.eqb c newline then EmptyString :: split_newline rest
      else match split_newline rest with
           | h :: t => String c h :: t
           | [] => [String c EmptyString]
           end
  end.

Definition strlen (s : string) : Z := Z.of_nat (String.length s).

(** Utility function to convert a string and a start Position into a Range *)
Definition textToRange (text : string) (startPosition : Position)
  : result Range :=
  let parts := split_newline text in
  let addedLines := Z.of_nat (List.length parts) - 1 in
  let newStartLine := line startPosition in
  let newStartCharacter := character startPosition in
  let newEndLine := newStartLine + addedLines in
  let newEndCharacter := strlen (last parts EmptyString) in
  let newEndCharacter :=
    if newStartLine =? newEndLine then newEndCharacter + newStartCharacter
    else newEndCharacter in
  newRange4 newStartLine newStartCharacter newEndLine newEndCharacter.

(* ===================================================================== *)
(** ** The range transform *)

(** Utility function to shift a range back after removing content before it *)
Definition shiftRangeAfterRemove (range : Range)
  (removeStartPosition removeEndPosition : Position) : result Range :=
  let lineDelta := line removeStartPosition - line removeEndPosition in
  let startCharacterDelta :=
    if line (start range) =? line removeEndPosition
    then character removeStartPosition - character removeEndPosition
    else 0 in
  let endCharacterDelta :=
    if line (start range) =? line removeEndPosition
    then if line (end_ range) =? line removeEndPosition
         then startCharacterDelta else 0
    else 0 in
  let? newStart := translate (start range) lineDelta startCharacterDelta in
  let? newEnd := translate (end_ range) lineDelta endCharacterDelta in
  Ok (newRange newStart newEnd).

(** Utility function to shift a range forward after inserting content
    before it *)
Definition shiftRangeAfterInsert (range : Range)
  (insertStartPosition insertEndPosition : Position) : result Range :=
  let addedLines := line insertEndPosition - line insertStartPosition in
  let newStartLine := line (start range) + addedLines in
  let newEndLine := line (end_ range) + addedLines in
  let newStartCharacter := character (start range) in
  let newEndCharacter := character (end_ range) in
  let startsOnInsertEndLine := line insertEndPosition =? newStartLine in
  let endOffsetLength :=
    if line insertEndPosition =? line insertStartPosition
    then character insertEndPosition - character insertStartPosition
    else character insertEndPosition in
  let newStartCharacter :=
    if startsOnInsertEndLine then newStartCharacter + endOffsetLength
    else newStartCharacter in
  let newEndCharacter :=
    if startsOnInsertEndLine
    then if line insertEndPosition =? newEndLine
         then newEndCharacter + endOffsetLength else newEndCharacter
    else newEndCharacter in
  newRange4 newStartLine newStartCharacter newEndLine newEndCharacter.

(** Utility function to adjust a range to account for an insert and/or
    replace.  [Ok None] is the source's [null]. *)
Definition fixRange (range : Range)
  (removeInsertStartPosition removeEndPosition insertEndPosition : Position)
  : result (option Range) :=
  if isAfterOrEqual removeInsertStartPosition (end_ range) then
    Ok (Some range)
  else if isBeforeOrEqual removeInsertStartPosition (start range) then
    if isAfterOrEqual removeEndPosition (end_ range) then
      Ok None
    else
      let newRange :=
        if isAfterOrEqual removeEndPosition (start range)
        then newRange removeEndPosition (end_ range)
        else range in
      let? newRange :=
        shiftRangeAfterRemove newRange removeInsertStartPosition
          removeEndPosition in
      let? shifted :=
        shiftRangeAfterInsert newRange removeInsertStartPosition
          insertEndPosition in
      Ok (Some shifted)
  else if isAfterOrEqual removeEndPosition (end_ range) then
    let? r := newRange4 (line (start range)) (character (start range))
                (line insertEndPosition) (character insertEndPosition) in
    Ok (Some r)
  else if line removeEndPosition =? line (end_ range) then
    let? r := newRange4 (line (start range)) (character (start range))
                (line insertEndPosition)
                (character insertEndPosition
                 + (character (end_ range) - character removeEndPosition)) in
    Ok (Some r)
  else
    let removedLines :=
      line removeEndPosition - line removeInsertStartPosition in
    let addedLines :=
      line insertEndPosition - line removeInsertStartPosition in
    let deltaLines := addedLines - removedLines in
    let? r := newRange4 (line (start range)) (character (start range))
                (line (end_ range) + deltaLines) (character (end_ range)) in
    Ok (Some r).

(** The six [return] statements of [fixRange], in source order. *)
Inductive Branch : Type :=
| ReturnUnchanged
| ReturnNull
| ReturnShifted
| ReturnExtendedToInsertEnd
| ReturnTailOnSameLine
| ReturnTailOnOtherLine.

(** The path condition under which control reaches each [return]. *)
Definition branch_reached (b : Branch) (range : Range)
  (removeInsertStartPosition removeEndPosition : Position) : bool :=
  let after := isAfterOrEqual removeInsertStartPosition (end_ range) in
  let before := isBeforeOrEqual removeInsertStartPosition (start range) in
  let consumes := isAfterOrEqual removeEndPosition (end_ range) in
  let sameLine := line removeEndPosition =? line (end_ range) in
  match b with
  | ReturnUnchanged => after
  | ReturnNull => negb after && before && consumes
  | ReturnShifted => negb after && before && negb consumes
  | ReturnExtendedToInsertEnd => negb after && negb before && consumes
  | ReturnTailOnSameLine =>
      negb after && negb before && negb consumes && sameLine
  | ReturnTailOnOtherLine =>
      negb after && negb before && negb consumes && negb sameLine
  end.

(** One step of the inner loops of [fixRanges]: every range of [ranges] is
    sent through [fixRange], the [null] results are dropped. *)
Fixpoint fixRangesOnce (ranges : list Range)
  (removeStart removeEnd insertEnd : Position) : result (list Range) :=
  match ranges with
  | [] => Ok []
  | r :: rest =>
      let? newRange := fixRange r removeStart removeEnd insertEnd in
      let? newRanges := fixRangesOnce rest removeStart removeEnd insertEnd in
      Ok (match newRange with
          | Some r' => r' :: newRanges
          | None => newRanges
          end)
  end.

(** The body of [changes.forEach] in [fixRanges]. *)
Definition fixRangesChange (ranges : list Range)
  (change : TextDocumentContentChangeEvent) : result (list Range) :=
  let? insertRange := textToRange (text change) (start (range change)) in
  fixRangesOnce ranges (start (range change)) (end_ (range change))
    (end_ insertRange).

Fixpoint fixRangesChanges (ranges : list Range)
  (changes : list TextDocumentContentChangeEvent) : result (list Range) :=
  match changes with
  | [] => Ok ranges
  | change :: rest =>
      let? newRanges := fixRangesChange ranges change in
      fixRangesChanges newRanges rest
  end.

(** [fixRanges]; [None] is an [undefined] slot of the per-kind arrays. *)
Definition fixRanges (originalRanges : option (list Range))
  (changes : list TextDocumentContentChangeEvent)
  : result (option (list Range)) :=
  match originalRanges with
  | Some (r :: rs) =>
      let? ranges := fixRangesChanges (r :: rs) changes in Ok (Some ranges)
  | _ => Ok originalRanges
  end.

(** The value returned at each [return] of [fixRange]. *)
Definition branch_result (b : Branch) (range : Range)
  (removeInsertStartPosition removeEndPosition insertEndPosition : Position)
  : result (option Range) :=
  match b with
  | ReturnUnchanged => Ok (Some range)
  | ReturnNull => Ok None
  | ReturnShifted =>
      let newRange :=
        if isAfterOrEqual removeEndPosition (start range)
        then newRange removeEndPosition (end_ range)
        else range in
      let? newRange :=
        shiftRangeAfterRemove newRange removeInsertStartPosition
          removeEndPosition in
      let? shifted :=
        shiftRangeAfterInsert newRange removeInsertStartPosition
          insertEndPosition in
      Ok (Some shifted)
  | ReturnExtendedToInsertEnd =>
      let? r := newRange4 (line (start range)) (character (start range))
                  (line insertEndPosition) (character insertEndPosition) in
      Ok (Some r)
  | ReturnTailOnSameLine =>
      let? r := newRange4 (line (start range)) (character (start range))
                  (line insertEndPosition)
                  (character insertEndPosition
                   + (character (end_ range) - character removeEndPosition)) in
      Ok (Some r)
  | ReturnTailOnOtherLine =>
      let? r := newRange4 (line (start range)) (character (start range))
                  (line (end_ range)
                   + ((line insertEndPosition - line removeInsertStartPosition)
                      - (line removeEndPosition
                         - line removeInsertStartPosition)))
                  (character (end_ range)) in
      Ok (Some r)
  end.

(** A change [inverse] undoes [change]: it removes the region the inserted
    text of [change] occupies and its own text, typed at the same place,
    ends where the region removed by [change] ended. *)
Definition exact_inverse (change inverse : TextDocumentContentChangeEvent)
  : Prop :=
  exists insertRange reinsertRange,
    textToRange (text change) (start (range change)) = Ok insertRange
    /\ range inverse = {| start := start (range change);
                          end_ := end_ insertRange |}
    /\ textToRange (text inverse) (start (range inverse)) = Ok reinsertRange
    /\ end_ reinsertRange = end_ (range change).

(** The change neither trims the front of the range nor swallows its tail:
    it lies after the range, strictly inside it, replaces exactly its tail
    by some text, or lies before it.  For a change before the range, the
    case of a range starting on the last removed line after a removal that
    starts past column 0 is kept only when neither the removed nor the
    inserted text spans a line break. *)
Definition cuts_no_endpoint (r : Range) (removeStart removeEnd insertEnd
  : Position) : Prop :=
  pos_le (end_ r) removeStart
  \/ (pos_lt (start r) removeStart /\ pos_lt removeEnd (end_ r))
  \/ (pos_lt (start r) removeStart
      /\ pos_le removeEnd (end_ r) /\ pos_le (end_ r) removeEnd
      /\ pos_lt removeStart insertEnd)
  \/ (pos_le removeEnd (start r)
      /\ (line (start r) <> line removeEnd
          \/ character removeStart = 0
          \/ (line insertEnd = line removeStart
              /\ line removeEnd = line removeStart))).


(** [cuts_no_endpoint] for a change, whose inserted text ends where
    [textToRange] says. *)
Definition change_cuts_no_endpoint (r : Range)
  (change : TextDocumentContentChangeEvent) : Prop :=
  exists insertRange,
    textToRange (text change) (start (range change)) = Ok insertRange
    /\ cuts_no_endpoint r (start (range change)) (end_ (range change))
         (end_ insertRange).

(* ===================================================================== *)
(** ** The state of one document's colorization *)

(** [TokenKind]: an enumeration of 36 token kinds, [Identifier] (0) to
    [NewDelete] (35); the code only uses its last member, [Count]. *)
Module TokenKind.
Definition Count : nat := 36.
End TokenKind.

(** A JavaScript array whose slots may be [undefined] or [null]. *)
Definition jsarray (A : Type) : Type := list (option A).

(** [new Array<A>(n)] *)
Definition newArray {A : Type} (n : nat) : jsarray A := repeat None n.

(** [a[i]] *)
Definition aget {A : Type} (a : jsarray A) (i : nat) : option A :=
  nth i a None.

(** [a[i] = v]; writing past the end extends the array with empty slots. *)
Fixpoint aset {A : Type} (a : jsarray A) (i : nat) (v : option A)
  : jsarray A :=
  match i, a with
  | O, [] => [v]
  | O, _ :: rest => v :: rest
  | S i', [] => None :: aset [] i' v
  | S i', x :: rest => x :: aset rest i' v
  end.

Record VersionedEdits : Type :=
  { editVersion : Z; changes : list TextDocumentContentChangeEvent }.

(** A [vscode.TextEditorDecorationType], named by the order of creation. *)
Definition Decoration : Type := nat.

(** A [vscode.Uri] object: [===] compares the objects, [toString()] gives
    the text. *)
Record Uri : Type := { uriObject : nat; uriToString : string }.

Record TextEditor : Type := { editorId : nat; documentUri : Uri }.

Record ThemeStyle : Type :=
  { foreground : option string;
    background : option string;
    fontStyle : option string }.

(** The settings [new CppSettings(uri)] reads. *)
Record CppSettings : Type :=
  { enhancedColorization : string;
    intelliSenseEngine : string;
    dimInactiveRegions : bool }.

(** What the editor is asked to do, in the order it is asked. *)
Inductive Event : Type :=
| CreateDecoration (d : Decoration)
| SetDecorations (editor : nat) (d : Decoration) (ranges : list Range)
| DisposeDecoration (d : Decoration).

(** The closures handed to [syncWithLoadingSettings]. *)
Inductive Task : Type :=
| RefreshTask (e : TextEditor)
| SettingsChangedTask (uri : Uri)
| UpdateColorizationRangesTask (uri : string).

(** What the code reads from its surroundings and never writes. *)
Record Environment : Type :=
  { settings : CppSettings;
    themeStyleCMap : jsarray ThemeStyle;
    themeStyleCppMap : jsarray ThemeStyle;
    isEditorFileCpp : string -> bool;
    visibleTextEditors : list TextEditor }.

(** The fields of [ColorizationState], followed by the editor's side: the
    environment, the next decoration to hand out, the requests made so far
    and the tasks queued behind [pendingTask]. *)
Record State : Type :=
  { decorations : jsarray Decoration;
    syntacticRanges : jsarray (list Range);
    semanticRanges : jsarray (list Range);
    inactiveDecoration : option Decoration;
    inactiveRanges : option (list Range);
    versionedEdits : list VersionedEdits;
    currentSyntacticVersion : Z;
    lastReceivedSyntacticVersion : Z;
    currentSemanticVersion : Z;
    lastReceivedSemanticVersion : Z;
    env : Environment;
    nextDecoration : nat;
    events : list Event;
    pendingTasks : list Task }.

(** The state the constructor of [ColorizationState] leaves. *)
Definition newColorizationState (e : Environment) : State :=
  {| decorations := newArray TokenKind.Count;
     syntacticRanges := newArray TokenKind.Count;
     semanticRanges := newArray TokenKind.Count;
     inactiveDecoration := None;
     inactiveRanges := Some [];
     versionedEdits := [];
     currentSyntacticVersion := 0;
     lastReceivedSyntacticVersion := 0;
     currentSemanticVersion := 0;
     lastReceivedSemanticVersion := 0;
     env := e;
     nextDecoration := O;
     events := [];
     pendingTasks := [] |}.

Definition set_decorations (v : jsarray Decoration) (s : State) : State :=
  let 'Build_State _ b c d e f g h i j k l m n := s in
  Build_State v b c d e f g h i j k l m n.
Definition set_syntacticRanges (v : jsarray (list Range)) (s : State)
  : State :=
  let 'Build_State a _ c d e f g h i j k l m n := s in
  Build_State a v c d e f g h i j k l m n.
Definition set_semanticRanges (v : jsarray (list Range)) (s : State)
  : State :=
  let 'Build_State a b _ d e f g h i j k l m n := s in
  Build_State a b v d e f g h i j k l m n.
Definition set_inactiveDecoration (v : option Decoration) (s : State)
  : State :=
  let 'Build_State a b c _ e f g h i j k l m n := s in
  Build_State a b c v e f g h i j k l m n.
Definition set_inactiveRanges (v : option (list Range)) (s : State) : State :=
  let 'Build_State a b c d _ f g h i j k l m n := s in
  Build_State a b c d v f g h i j k l m n.
Definition set_versionedEdits (v : list VersionedEdits) (s : State) : State :=
  let 'Build_State a b c d e _ g h i j k l m n := s in
  Build_State a b c d e v g h i j k l m n.
Definition set_currentSyntacticVersion (v : Z) (s : State) : State :=
  let 'Build_State a b c d e f _ h i j k l m n := s in
  Build_State a b c d e f v h i j k l m n.
Definition set_lastReceivedSyntacticVersion (v : Z) (s : State) : State :=
  let 'Build_State a b c d e f g _ i j k l m n := s in
  Build_State a b c d e f g v i j k l m n.
Definition set_currentSemanticVersion (v : Z) (s : State) : State :=
  let 'Build_State a b c d e f g h _ j k l m n := s in
  Build_State a b c d e f g h v j k l m n.
Definition set_lastReceivedSemanticVersion (v : Z) (s : State) : State :=
  let 'Build_State a b c d e f g h i _ k l m n := s in
  Build_State a b c d e f g h i v k l m n.
Definition set_nextDecoration (v : nat) (s : State) : State :=
  let 'Build_State a b c d e f g h i j k _ m n := s in
  Build_State a b c d e f g h i j k v m n.
Definition set_events (v : list Event) (s : State) : State :=
  let 'Build_State a b c d e f g h i j k l _ n := s in
  Build_State a b c d e f g h i j k l v n.
Definition set_pendingTasks (v : list Task) (s : State) : State :=
  let 'Build_State a b c d e f g h i j k l m _ := s in
  Build_State a b c d e f g h i j k l m v.

(* ===================================================================== *)
(** ** Methods as state transformers that may throw

    A method is a function from the state before to its outcome and the
    state after; a thrown exception keeps the writes made before it. *)

Definition M (A : Type) : Type := State -> result A * State.

Definition ret {A : Type} (a : A) : M A := fun s => (Ok a, s).

Definition bind {A B : Type} (m : M A) (k : A -> M B) : M B :=
  fun s =>
    match m s with
    | (Ok a, s') => k a s'
    | (Throw, s') => (Throw, s')
    end.

Definition get : M State := fun s => (Ok s, s).

Definition modify (f : State -> State) : M unit := fun s => (Ok tt, f s).

Definition lift {A : Type} (r : result A) : M A := fun s => (r, s).

Notation "x <- m ;; k" := (bind m (fun x => k))
  (at level 61, m at next level, right associativity).
Notation "m ;;; k" := (bind m (fun _ => k))
  (at level 61, right associativity).

(** [l.forEach(body)] and the counting [for] loops. *)
Fixpoint forEach {X : Type} (l : list X) (body : X -> M unit) : M unit :=
  match l with
  | [] => ret tt
  | x :: rest => body x ;;; forEach rest body
  end.

Definition when (c : bool) (m : M unit) : M unit :=
  if c then m else ret tt.

(** The indices [0 .. TokenKind.Count - 1] *)
Definition tokenKinds : list nat := seq 0 TokenKind.Count.

(** ** The editor's calls *)

Definition emit (e : Event) : M unit :=
  modify (fun s => set_events (events s ++ [e]) s).

(** [vscode.window.createTextEditorDecorationType(options)]; the rendering
    options play no part in what follows and are left out. *)
Definition createTextEditorDecorationType : M Decoration :=
  s <- get ;;
  let d := nextDecoration s in
  modify (set_nextDecoration (S d)) ;;;
  emit (CreateDecoration d) ;;;
  ret d.

Definition dispose (d : Decoration) : M unit := emit (DisposeDecoration d).

Definition setDecorations (e : TextEditor) (d : Decoration)
  (ranges : list Range) : M unit :=
  emit (SetDecorations (editorId e) d ranges).

(** Truthiness of an optional string: present and not empty. *)
Definition truthy (o : option string) : bool :=
  match o with
  | Some (String _ _) => true
  | _ => false
  end.

Definition createDecorationFromThemeStyle (themeStyle : option ThemeStyle)
  : M (option Decoration) :=
  match themeStyle with
  | Some style =>
      if truthy (foreground style) || truthy (background style)
         || truthy (fontStyle style)
      then d <- createTextEditorDecorationType ;; ret (Some d)
      else ret None
  | None => ret None
  end.

Definition colorizationEnabled (c : CppSettings) : bool :=
  String.eqb (enhancedColorization c) "Enabled"
  && String.eqb (intelliSenseEngine c) "Default".

(** ** [ColorizationState] *)

Definition createColorizationDecorations (isCpp : bool) : M unit :=
  s <- get ;;
  let settings := settings (env s) in
  when (colorizationEnabled settings)
    (forEach (rev tokenKinds) (fun i =>
       s <- get ;;
       let themeStyleMap :=
         if isCpp then themeStyleCppMap (env s) else themeStyleCMap (env s) in
       d <- createDecorationFromThemeStyle (aget themeStyleMap i) ;;
       modify (fun s => set_decorations (aset (decorations s) i d) s))) ;;;
  when (dimInactiveRegions settings)
    (d <- createTextEditorDecorationType ;;
     modify (set_inactiveDecoration (Some d))).

Definition disposeColorizationDecorations : M unit :=
  s <- get ;;
  match inactiveDecoration s with
  | Some d => dispose d ;;; modify (set_inactiveDecoration None)
  | None => ret tt
  end ;;;
  forEach tokenKinds (fun i =>
    s <- get ;;
    match aget (decorations s) i with
    | Some d =>
        dispose d ;;;
        modify (fun s => set_decorations (aset (decorations s) i None) s)
    | None => ret tt
    end).

Definition refreshInner (e : TextEditor) : M unit :=
  s <- get ;;
  let settings := settings (env s) in
  when (colorizationEnabled settings)
    (forEach tokenKinds (fun i =>
       s <- get ;;
       match aget (decorations s) i with
       | Some d =>
           let ranges := aget (syntacticRanges s) i in
           let ranges :=
             match aget (semanticRanges s) i with
             | Some semantic =>
                 match ranges with
                 | Some (r :: rs) => Some ((r :: rs) ++ semantic)
                 | _ => Some semantic
                 end
             | None => ranges
             end in
           match ranges with
           | Some (r :: rs) => setDecorations e d (r :: rs)
           | _ => ret tt
           end
       | None => ret tt
       end)) ;;;
  s <- get ;;
  match dimInactiveRegions settings, inactiveDecoration s, inactiveRanges s
  with
  | true, Some d, Some ranges => setDecorations e d ranges
  | _, _, _ => ret tt
  end.

(** Add edits to be applied when/if cached tokens need to be reapplied. *)
Definition addEdits (changes : list TextDocumentContentChangeEvent)
  (editVersion : Z) : M unit :=
  let edits := {| editVersion := editVersion; changes := changes |} in
  modify (fun s => set_versionedEdits (versionedEdits s ++ [edits]) s).

(** The body of the first [if] of the loop of [applyEdits]: the syntactic
    ranges of every token kind go through the changes of [edit]. *)
Definition applyEditSyntactic (edit : VersionedEdits) : M unit :=
  forEach tokenKinds (fun i =>
    s <- get ;;
    fixed <- lift (fixRanges (aget (syntacticRanges s) i) (changes edit)) ;;
    modify (fun s =>
              set_syntacticRanges (aset (syntacticRanges s) i fixed) s)) ;;;
  modify (set_currentSyntacticVersion (editVersion edit)).

(** The body of the second [if]: the same for the semantic ranges and the
    inactive regions. *)
Definition applyEditSemantic (edit : VersionedEdits) : M unit :=
  forEach tokenKinds (fun i =>
    s <- get ;;
    fixed <- lift (fixRanges (aget (semanticRanges s) i) (changes edit)) ;;
    modify (fun s =>
              set_semanticRanges (aset (semanticRanges s) i fixed) s)) ;;;
  s <- get ;;
  fixed <- lift (fixRanges (inactiveRanges s) (changes edit)) ;;
  modify (set_inactiveRanges fixed) ;;;
  modify (set_currentSemanticVersion (editVersion edit)).

(** The body of [this.versionedEdits.forEach] in [applyEdits]. *)
Definition applyEdit (edit : VersionedEdits) : M unit :=
  s <- get ;;
  when (currentSyntacticVersion s <? editVersion edit)
    (applyEditSyntactic edit) ;;;
  s <- get ;;
  when (currentSemanticVersion s <? editVersion edit)
    (applyEditSemantic edit).

(** Apply any pending edits to the currently cached tokens *)
Definition applyEdits : M unit :=
  s <- get ;;
  forEach (versionedEdits s) applyEdit.

(** [a.findIndex(p)]: the first index whose element satisfies [p], or -1. *)
Fixpoint findIndex {A : Type} (p : A -> bool) (a : list A) : Z :=
  match a with
  | [] => -1
  | x :: rest =>
      if p x then 0
      else let i := findIndex p rest in
           if i =? -1 then -1 else i + 1
  end.

(** [a.slice(index)] for [index >= 0] *)
Definition slice {A : Type} (a : list A) (index : Z) : list A :=
  skipn (Z.to_nat index) a.

(** Remove any edits from the list if we will never receive tokens that
    old. *)
Definition purgeOldVersionedEdits : M unit :=
  s <- get ;;
  let minVersion :=
    Z.min (lastReceivedSemanticVersion s) (lastReceivedSyntacticVersion s) in
  let index :=
    findIndex (fun edit => minVersion <? editVersion edit)
      (versionedEdits s) in
  if index =? -1 then modify (set_versionedEdits [])
  else if 0 <? index then
         modify (set_versionedEdits (slice (versionedEdits s) index))
       else ret tt.

(** The closure [f] of [updateColorizationRanges]. *)
Definition updateColorizationRangesTask (uri : string) : M unit :=
  applyEdits ;;;
  purgeOldVersionedEdits ;;;
  s <- get ;;
  let oldInactiveDecoration := inactiveDecoration s in
  let oldDecorations := decorations s in
  modify (set_inactiveDecoration None) ;;;
  modify (set_decorations (newArray TokenKind.Count)) ;;;
  let isCpp := isEditorFileCpp (env s) uri in
  createColorizationDecorations isCpp ;;;
  let editors :=
    filter (fun e => String.eqb (uriToString (documentUri e)) uri)
      (visibleTextEditors (env s)) in
  forEach editors refreshInner ;;;
  match oldInactiveDecoration with
  | Some d => dispose d
  | None => ret tt
  end ;;;
  forEach tokenKinds (fun i =>
    match aget oldDecorations i with
    | Some d => dispose d
    | None => ret tt
    end).

(** The closure [f] of [onSettingsChanged]. *)
Definition onSettingsChangedTask (uri : Uri) : M unit :=
  applyEdits ;;;
  disposeColorizationDecorations ;;;
  s <- get ;;
  let isCpp := isEditorFileCpp (env s) (uriToString uri) in
  createColorizationDecorations isCpp ;;;
  let editors :=
    filter (fun e => Nat.eqb (uriObject (documentUri e)) (uriObject uri))
      (visibleTextEditors (env s)) in
  forEach editors refreshInner.

Definition runTask (t : Task) : M unit :=
  match t with
  | RefreshTask e => refreshInner e
  | SettingsChangedTask uri => onSettingsChangedTask uri
  | UpdateColorizationRangesTask uri => updateColorizationRangesTask uri
  end.

(** Modelled from the spec: [util.BlockingTask], which is not in the
    sources at hand.  The specification says that each requested operation
    is enqueued as a continuation that begins only after every previously
    enqueued continuation has finished; the queue is kept in
    [pendingTasks]. *)
Definition syncWithLoadingSettings (f : Task) : M unit :=
  modify (fun s => set_pendingTasks (pendingTasks s ++ [f]) s).

(** Modelled from the spec: the oldest queued task runs to its end; a task
    that throws is over, and what it wrote before stays written. *)
Definition runNextTask : M unit :=
  fun s =>
    match pendingTasks s with
    | [] => (Ok tt, s)
    | t :: rest => (Ok tt, snd (runTask t (set_pendingTasks rest s)))
    end.

Definition refresh (e : TextEditor) : M unit :=
  applyEdits ;;;
  syncWithLoadingSettings (RefreshTask e).

Definition onSettingsChanged (uri : Uri) : M unit :=
  syncWithLoadingSettings (SettingsChangedTask uri).

Definition updateColorizationRanges (uri : string) : M unit :=
  syncWithLoadingSettings (UpdateColorizationRangesTask uri).

Definition updateSyntactic (uri : string)
  (syntacticRanges' : jsarray (list Range)) (editVersion : Z) : M unit :=
  forEach tokenKinds (fun i =>
    modify (fun s =>
      set_syntacticRanges
        (aset (syntacticRanges s) i (aget syntacticRanges' i)) s)) ;;;
  modify (set_currentSyntacticVersion editVersion) ;;;
  modify (set_lastReceivedSyntacticVersion editVersion) ;;;
  updateColorizationRanges uri.

Definition updateSemantic (uri : string)
  (semanticRanges' : jsarray (list Range))
  (inactiveRanges' : option (list Range)) (editVersion : Z) : M unit :=
  modify (set_inactiveRanges inactiveRanges') ;;;
  forEach tokenKinds (fun i =>
    modify (fun s =>
      set_semanticRanges
        (aset (semanticRanges s) i (aget semanticRanges' i)) s)) ;;;
  modify (set_currentSemanticVersion editVersion) ;;;
  modify (set_lastReceivedSemanticVersion editVersion) ;;;
  updateColorizationRanges uri.

(** The operations a caller performs on the state. *)
Inductive Operation : Type :=
| OpAddEdits (changes : list TextDocumentContentChangeEvent) (editVersion : Z)
| OpApplyEdits
| OpUpdateSyntactic (uri : string) (ranges : jsarray (list Range))
    (editVersion : Z)
| OpUpdateSemantic (uri : string) (ranges : jsarray (list Range))
    (inactive : option (list Range)) (editVersion : Z)
| OpRefresh (e : TextEditor)
| OpSettingsChanged (uri : Uri)
| OpRunNextTask.

Definition perform (op : Operation) : M unit :=
  match op with
  | OpRefresh e => refresh e
  | OpSettingsChanged uri => onSettingsChanged uri
  | OpAddEdits changes v => addEdits changes v
  | OpApplyEdits => applyEdits
  | OpUpdateSyntactic uri ranges v => updateSyntactic uri ranges v
  | OpUpdateSemantic uri ranges inactive v =>
      updateSemantic uri ranges inactive v
  | OpRunNextTask => runNextTask
  end.

(** The state after a sequence of operations; an operation that throws
    leaves its partial writes and the caller goes on. *)
Fixpoint performAll (ops : list Operation) (s : State) : State :=
  match ops with
  | [] => s
  | op :: rest => performAll rest (snd (perform op s))
  end.

(* ===================================================================== *)
(** ** [ColorizationSettings]: the style of each token kind *)

(** [TextMateRule] and [TextMateRuleSettings] of [settings.ts], as the code
    reads them: a rule may lack its settings, its scope is missing, one
    name or an array of names, and each field of the settings is a string
    or missing. *)
Module TextMate.

Record RuleSettings : Type :=
  { foreground : option string;
    background : option string;
    fontStyle : option string }.

Inductive Scope : Type :=
| NoScope
| ScopeName (name : string)
| ScopeNames (names : list string).

Record Rule : Type :=
  { scope : Scope; settings : option RuleSettings }.

End TextMate.

(** What the code asks of [OtherSettings] (of [settings.ts], not among the
    sources at hand): the answers are taken as they come. *)
Record OtherSettings : Type :=
  { getCustomColorToken : string -> option string;
    customTextMateRules : option (list TextMate.Rule);
    getCustomThemeSpecificColorToken : string -> string -> option string;
    getCustomThemeSpecificTextMateRules :
      string -> option (list TextMate.Rule) }.

(** [a === b] on values that are a string or [undefined] *)
Definition same_string (a b : option string) : bool :=
  match a, b with
  | Some x, Some y => String.eqb x y
  | None, None => true
  | _, _ => false
  end.

(** Given a TextMate rule 'settings' mode, update a ThemeStyle to include
    any color or style information.  The source writes into [baseStyle];
    here the style written is returned. *)
Definition updateStyleFromTextMateRuleSettings
  (editorBackground : option string) (baseStyle : ThemeStyle)
  (textMateRuleSettings : TextMate.RuleSettings) : ThemeStyle :=
  let baseStyle :=
    if truthy (TextMate.foreground textMateRuleSettings)
    then {| foreground := TextMate.foreground textMateRuleSettings;
            background := background baseStyle;
            fontStyle := fontStyle baseStyle |}
    else baseStyle in
  let baseStyle :=
    if truthy (TextMate.background textMateRuleSettings)
       && negb (same_string (TextMate.background textMateRuleSettings)
                  editorBackground)
    then {| foreground := foreground baseStyle;
            background := TextMate.background textMateRuleSettings;
            fontStyle := fontStyle baseStyle |}
    else baseStyle in
  if truthy (TextMate.fontStyle textMateRuleSettings)
  then {| foreground := foreground baseStyle;
          background := background baseStyle;
          fontStyle := TextMate.fontStyle textMateRuleSettings |}
  else if same_string (TextMate.fontStyle textMateRuleSettings)
            (Some EmptyString)
       then {| foreground := foreground baseStyle;
               background := background baseStyle;
               fontStyle := None |}
       else baseStyle.

(** The test of [textMateRules.find] in [findThemeStyleForScope]. *)
Definition ruleNamesScope (scope : string) (e : TextMate.Rule) : bool :=
  match TextMate.settings e with
  | Some _ =>
      match TextMate.scope e with
      | TextMate.ScopeName name => String.eqb name scope
      | TextMate.ScopeNames names => existsb (String.eqb scope) names
      | TextMate.NoScope => false
      end
  | None => false
  end.

(** The styles of the C and of the C++ flavour of a token kind, either of
    which may be absent ([null] or an empty slot). *)
Definition StylePair : Type := (option ThemeStyle * option ThemeStyle)%type.

(** If the scope can be found in a set of TextMate rules, apply it to both
    C and Cpp ThemeStyle's *)
Definition findThemeStyleForScope (editorBackground : option string)
  (base : StylePair) (scope : string)
  (textMateRules : option (list TextMate.Rule)) : StylePair :=
  match textMateRules with
  | Some rules =>
      match find (ruleNamesScope scope) rules with
      | Some {| TextMate.settings := Some matched |} =>
          (option_map
             (fun style =>
                updateStyleFromTextMateRuleSettings editorBackground style
                  matched) (fst base),
           option_map
             (fun style =>
                updateStyleFromTextMateRuleSettings editorBackground style
                  matched) (snd base))
      | _ => base
      end
  | None => base
  end.

(** [ColorizationSettings.scopeToTokenColorNameMap.get(scope)] *)
Definition scopeToTokenColorNameMap (scope : string) : option string :=
  (if String.eqb scope "comment" then Some "comments"
   else if String.eqb scope "string" then Some "strings"
   else if String.eqb scope "keyword.operator" then Some "keywords"
   else if String.eqb scope "keyword.control" then Some "keywords"
   else if String.eqb scope "constant.numeric" then Some "numbers"
   else if String.eqb scope "entity.name.type" then Some "types"
   else if String.eqb scope "entity.name.class" then Some "types"
   else if String.eqb scope "entity.name.function" then Some "functions"
   else if String.eqb scope "variable" then Some "variables"
   else None)%string.

(** The two places where a color token overrides the foreground. *)
Definition overrideForeground (settingValue : option string)
  (base : StylePair) : StylePair :=
  if truthy settingValue
  then (option_map
          (fun style => {| foreground := settingValue;
                           background := background style;
                           fontStyle := fontStyle style |}) (fst base),
        option_map
          (fun style => {| foreground := settingValue;
                           background := background style;
                           fontStyle := fontStyle style |}) (snd base))
  else base.

(** For a specific scope cascase all potential sources of style information
    to create a final ThemeStyle *)
Definition calculateThemeStyleForScope (editorBackground : option string)
  (otherSettings : OtherSettings) (base : StylePair) (scope : string)
  (themeName : string) (themeTextMateRules : list (list TextMate.Rule))
  : StylePair :=
  let base :=
    fold_left
      (fun base rules =>
         findThemeStyleForScope editorBackground base scope (Some rules))
      themeTextMateRules base in
  let colorTokenName := scopeToTokenColorNameMap scope in
  let base :=
    match colorTokenName with
    | Some name =>
        overrideForeground (getCustomColorToken otherSettings name) base
    | None => base
    end in
  let base :=
    findThemeStyleForScope editorBackground base scope
      (customTextMateRules otherSettings) in
  let base :=
    match colorTokenName with
    | Some name =>
        overrideForeground
          (getCustomThemeSpecificColorToken otherSettings name themeName)
          base
    | None => base
    end in
  findThemeStyleForScope editorBackground base scope
    (getCustomThemeSpecificTextMateRules otherSettings themeName).

(** [s.split(sep)] for a separator of one character *)
Fixpoint split_char (sep : ascii) (s : string) : list string :=
  match s with
  | EmptyString => [EmptyString]
  | String c rest =>
      if Ascii.eqb c sep then EmptyString :: split_char sep rest
      else match split_char sep rest with
           | h :: t => String c h :: t
           | [] => [String c EmptyString]
           end
  end.

(** Both style maps of [ColorizationSettings]: [themeStyleCMap] and
    [themeStyleCppMap]. *)
Definition StyleMaps : Type :=
  (jsarray ThemeStyle * jsarray ThemeStyle)%type.

(** One call [calculateThemeStyleForScope(c, cpp, scope, ...)] of
    [calculateStyleForToken] on the styles of [tokenKind]; [useC] and
    [useCpp] tell which of the two styles the call is given ([null]
    otherwise).  The styles are objects of their own in each slot, so
    writing into them is writing the slot. *)
Definition calculateInto (editorBackground : option string)
  (otherSettings : OtherSettings) (tokenKind : nat) (useC useCpp : bool)
  (scope themeName : string) (themeTextMateRules : list (list TextMate.Rule))
  (maps : StyleMaps) : StyleMaps :=
  let baseC := if useC then aget (fst maps) tokenKind else None in
  let baseCpp := if useCpp then aget (snd maps) tokenKind else None in
  let styles :=
    calculateThemeStyleForScope editorBackground otherSettings
      (baseC, baseCpp) scope themeName themeTextMateRules in
  (match fst styles with
   | Some style => aset (fst maps) tokenKind (Some style)
   | None => fst maps
   end,
   match snd styles with
   | Some style => aset (snd maps) tokenKind (Some style)
   | None => snd maps
   end).

(** The loop of [calculateStyleForToken] over the parts of the scope that
    are left, with the scope accumulated so far. *)
Fixpoint calculateStyleForParts (editorBackground : option string)
  (otherSettings : OtherSettings) (tokenKind : nat) (parts : list string)
  (accumulatedScope themeName : string)
  (themeTextMateRules : list (list TextMate.Rule)) (maps : StyleMaps)
  : StyleMaps :=
  match parts with
  | [] => maps
  | part :: rest =>
      let accumulatedScope := (accumulatedScope ++ part)%string in
      let maps :=
        calculateInto editorBackground otherSettings tokenKind true true
          accumulatedScope themeName themeTextMateRules maps in
      let maps :=
        calculateInto editorBackground otherSettings tokenKind true false
          (accumulatedScope ++ ".c")%string themeName themeTextMateRules maps in
      let maps :=
        calculateInto editorBackground otherSettings tokenKind false true
          (accumulatedScope ++ ".cpp")%string themeName themeTextMateRules maps in
      calculateStyleForParts editorBackground otherSettings tokenKind rest
        (accumulatedScope ++ ".")%string themeName themeTextMateRules maps
  end.

(** For each level of the scope, look of style information *)
Definition calculateStyleForToken (editorBackground : option string)
  (otherSettings : OtherSettings) (tokenKind : nat) (scope themeName : string)
  (themeTextMateRules : list (list TextMate.Rule)) (maps : StyleMaps)
  : StyleMaps :=
  calculateStyleForParts editorBackground otherSettings tokenKind
    (split_char "."%char scope) EmptyString themeName themeTextMateRules maps.

(** The token kinds and their scopes, in the order of the calls of
    [updateStyles]. *)
Definition tokenScopes : list (nat * string) :=
  [ (0%nat, "entity.name"); (1%nat, "comment"); (2%nat, "keyword.control");
    (3%nat, "keyword.control.directive"); (4%nat, "keyword.operator");
    (5%nat, "variable"); (6%nat, "constant.numeric");
    (7%nat, "string.quoted"); (8%nat, "comment.xml.doc");
    (9%nat, "comment.xml.doc.tag");
    (10%nat, "entity.name.function.preprocessor");
    (11%nat, "variable.other.enummember");
    (12%nat, "variable.other.global"); (13%nat, "variable.other.local");
    (14%nat, "variable.parameter"); (15%nat, "entity.name.type");
    (16%nat, "entity.name.class.reference");
    (17%nat, "entity.name.class.value"); (18%nat, "entity.name.function");
    (19%nat, "entity.name.function.member");
    (20%nat, "variable.other.member");
    (21%nat, "entity.name.function.member.static");
    (22%nat, "variable.other.member.static");
    (23%nat, "variable.other.property"); (24%nat, "variable.other.event");
    (25%nat, "entity.name.class.template");
    (26%nat, "entity.name.class.generic");
    (27%nat, "entity.name.function.template");
    (28%nat, "entity.name.namespace"); (29%nat, "entity.name.label");
    (30%nat, "entity.name.user-defined-literal");
    (31%nat, "entity.name.user-defined-literal.number");
    (32%nat, "entity.name.user-defined-literal.string");
    (33%nat, "entity.name.function.operator");
    (34%nat, "keyword.operator.member"); (35%nat, "keyword.operator.new")
  ]%string.

(** [updateStyles]: both maps get a copy of the default style in each of the
    [TokenKind.Count] slots, then the style of each token kind is
    calculated from its scope. *)
Definition updateStyles (editorBackground : option string)
  (otherSettings : OtherSettings) (themeName : string)
  (defaultStyle : ThemeStyle) (textMateRules : list (list TextMate.Rule))
  : StyleMaps :=
  fold_left
    (fun maps kindAndScope =>
       calculateStyleForToken editorBackground otherSettings
         (fst kindAndScope) (snd kindAndScope) themeName textMateRules maps)
    tokenScopes
    (repeat (Some defaultStyle) TokenKind.Count,
     repeat (Some defaultStyle) TokenKind.Count).

(** The render options [createDecorationFromThemeStyle] builds; the range
    behaviour is always [OpenOpen] and is left out. *)
Module RenderOptions.

Record T : Type :=
  { color : option string;
    backgroundColor : option string;
    fontStyle : option string;
    fontWeight : option string;
    textDecoration : option string }.

Definition empty : T :=
  {| color := None; backgroundColor := None; fontStyle := None;
     fontWeight := None; textDecoration := None |}.

End RenderOptions.

(** The [switch] on one word of the font style. *)
Definition applyFontStylePart (options : RenderOptions.T) (part : string)
  : RenderOptions.T :=
  (if String.eqb part "italic"
   then {| RenderOptions.color := RenderOptions.color options;
           RenderOptions.backgroundColor :=
             RenderOptions.backgroundColor options;
           RenderOptions.fontStyle := Some "italic";
           RenderOptions.fontWeight := RenderOptions.fontWeight options;
           RenderOptions.textDecoration :=
             RenderOptions.textDecoration options |}
   else if String.eqb part "bold"
   then {| RenderOptions.color := RenderOptions.color options;
           RenderOptions.backgroundColor :=
             RenderOptions.backgroundColor options;
           RenderOptions.fontStyle := RenderOptions.fontStyle options;
           RenderOptions.fontWeight := Some "bold";
           RenderOptions.textDecoration :=
             RenderOptions.textDecoration options |}
   else if String.eqb part "underline"
   then {| RenderOptions.color := RenderOptions.color options;
           RenderOptions.backgroundColor :=
             RenderOptions.backgroundColor options;
           RenderOptions.fontStyle := RenderOptions.fontStyle options;
           RenderOptions.fontWeight := RenderOptions.fontWeight options;
           RenderOptions.textDecoration := Some "underline" |}
   else options)%string.

(** The options of [createDecorationFromThemeStyle] for a style that has a
    foreground, a background or a font style. *)
Definition decorationRenderOptions (themeStyle : ThemeStyle)
  : RenderOptions.T :=
  let options := RenderOptions.empty in
  let options :=
    if truthy (foreground themeStyle)
    then {| RenderOptions.color := foreground themeStyle;
            RenderOptions.backgroundColor :=
              RenderOptions.backgroundColor options;
            RenderOptions.fontStyle := RenderOptions.fontStyle options;
            RenderOptions.fontWeight := RenderOptions.fontWeight options;
            RenderOptions.textDecoration :=
              RenderOptions.textDecoration options |}
    else options in
  let options :=
    if truthy (background themeStyle)
    then {| RenderOptions.color := RenderOptions.color options;
            RenderOptions.backgroundColor := background themeStyle;
            RenderOptions.fontStyle := RenderOptions.fontStyle options;
            RenderOptions.fontWeight := RenderOptions.fontWeight options;
            RenderOptions.textDecoration :=
              RenderOptions.textDecoration options |}
    else options in
  match fontStyle themeStyle with
  | Some (String c rest) =>
      fold_left applyFontStylePart (split_char " "%char (String c rest))
        options
  | _ => options
  end.

(** [OtherSettings] of a user who has customized nothing. *)
Definition noOtherSettings : OtherSettings :=
  {| getCustomColorToken := fun _ => None;
     customTextMateRules := None;
     getCustomThemeSpecificColorToken := fun _ _ => None;
     getCustomThemeSpecificTextMateRules := fun _ => None |}.

(** ** Vocabulary of the statements below *)

(** The method [m] leaves the observation [f] of the state as it was,
    whether it returns or throws. *)
Definition preserves {A X : Type} (f : State -> X) (m : M A) : Prop :=
  forall s, f (snd (m s)) = f s.

(** The edits were recorded with strictly increasing versions. *)
Definition increasing_versions (edits : list VersionedEdits) : Prop :=
  Sorted (fun a b => editVersion a < editVersion b) edits.

(** Both counters fed by the classifier. *)
Definition lastReceivedVersions (s : State) : Z * Z :=
  (lastReceivedSyntacticVersion s, lastReceivedSemanticVersion s).

(** Both counters of what the stored ranges have been brought up to. *)
Definition currentVersions (s : State) : Z * Z :=
  (currentSyntacticVersion s, currentSemanticVersion s).

(** The method [m] lowers neither applied-version counter, whether it
    returns or throws. *)
Definition never_lowers_versions {A : Type} (m : M A) : Prop :=
  forall s,
    currentSyntacticVersion s <= currentSyntacticVersion (snd (m s))
    /\ currentSemanticVersion s <= currentSemanticVersion (snd (m s)).

(** The method [m] only adds requests to the editor, and each of them
    satisfies [P]. *)
Definition emits {A : Type} (P : Event -> Prop) (m : M A) : Prop :=
  forall s, exists added,
    events (snd (m s)) = events s ++ added /\ Forall P added.

Definition is_dispose (e : Event) : Prop :=
  match e with
  | DisposeDecoration _ => True
  | _ => False
  end.

(** The requests of [m] come in two phases: first creations and
    applications of decorations, then disposals only. *)
Definition disposes_last {A : Type} (m : M A) : Prop :=
  forall s, exists shown released,
    events (snd (m s)) = events s ++ shown ++ released
    /\ Forall (fun e => ~ is_dispose e) shown
    /\ Forall is_dispose released.

(** The stored ranges and the changes of the log are as the editor and
    the classifier hand them out. *)
Definition wf_ranges (ranges : option (list Range)) : Prop :=
  match ranges with
  | Some l => Forall wf_range l
  | None => True
  end.

Definition wf_edit (edit : VersionedEdits) : Prop :=
  Forall (fun change => wf_range (range change)) (changes edit).

Definition wf_state (s : State) : Prop :=
  Forall wf_ranges (syntacticRanges s)
  /\ Forall wf_ranges (semanticRanges s)
  /\ wf_ranges (inactiveRanges s)
  /\ Forall wf_edit (versionedEdits s).

(** The method [m] removes edits from the front of the log at most. *)
Definition keeps_log_suffix {A : Type} (m : M A) : Prop :=
  forall s, exists dropped,
    versionedEdits s = dropped ++ versionedEdits (snd (m s)).

(** The decorations the state holds: the one of the inactive regions, then
    those of the token kinds by increasing index. *)
Definition activeDecorations (s : State) : list Decoration :=
  match inactiveDecoration s with
  | Some d => [d]
  | None => []
  end
  ++ flat_map (fun i => match aget (decorations s) i with
                        | Some d => [d]
                        | None => []
                        end) tokenKinds.

(** The method [m] returns, changes nothing in the state but the list of
    requests, and adds only requests that satisfy [P]. *)
Definition only_emits {A : Type} (P : Event -> Prop) (m : M A) : Prop :=
  forall s, exists a added,
    m s = (Ok a, set_events (events s ++ added) s) /\ Forall P added.

(** Every one of the [n] slots of the array holds a style. *)
Definition all_defined (n : nat) (a : jsarray ThemeStyle) : Prop :=
  List.length a = n /\ Forall (fun slot => slot <> None) a.

(** The edits a pass consumes, in the words of the specification: the log
    is walked from its first edit to its last, and an edit is consumed when
    its version is larger than the applied-version counter [c] of the pass,
    which then takes that version. *)
Fixpoint consumedInLogOrder (c : Z) (log : list VersionedEdits)
  : list VersionedEdits :=
  match log with
  | [] => []
  | e :: rest =>
      if c <? editVersion e
      then e :: consumedInLogOrder (editVersion e) rest
      else consumedInLogOrder c rest
  end.

(** The value of a counter that was [c] after it has consumed [edits]: the
    version of the last of them. *)
Definition lastVersion (c : Z) (edits : list VersionedEdits) : Z :=
  last (map editVersion edits) c.

(** Ranges sent through [fixRanges] with the changes of each of [edits],
    one edit after the other. *)
Fixpoint fixRangesThrough (ranges : option (list Range))
  (edits : list VersionedEdits) : result (option (list Range)) :=
  match edits with
  | [] => Ok ranges
  | e :: rest =>
      let? fixed := fixRanges ranges (changes e) in
      fixRangesThrough fixed rest
  end.

(** [l] is [log] with some of its elements left out, the others in the
    order of [log]. *)
Inductive subsequence {A : Type} : list A -> list A -> Prop :=
| subsequence_nil : subsequence [] []
| subsequence_skip (x : A) (l log : list A) :
    subsequence l log -> subsequence l (x :: log)
| subsequence_take (x : A) (l log : list A) :
    subsequence l log -> subsequence (x :: l) (x :: log).

(** ** Sample data for the worked examples *)

(** An environment with colorization on, one visible editor on the
    document [file:///a.cpp] and a style for the token kind 1 only. *)
Definition sampleUri : Uri :=
  {| uriObject := 7; uriToString := "file:///a.cpp"%string |}.

Definition sampleEditor : TextEditor :=
  {| editorId := 1; documentUri := sampleUri |}.

Definition sampleStyles : jsarray ThemeStyle :=
  [ None;
    Some {| foreground := Some "#6A9955"%string; background := None;
            fontStyle := None |} ].

Definition sampleEnvironment : Environment :=
  {| settings := {| enhancedColorization := "Enabled"%string;
                    intelliSenseEngine := "Default"%string;
                    dimInactiveRegions := false |};
     themeStyleCMap := sampleStyles;
     themeStyleCppMap := sampleStyles;
     isEditorFileCpp := fun _ => true;
     visibleTextEditors := [sampleEditor] |}.

Definition sampleRange : Range :=
  {| start := {| line := 2; character := 5 |};
     end_ := {| line := 2; character := 10 |} |}.

Definition sampleChange : TextDocumentContentChangeEvent :=
  {| range := {| start := {| line := 2; character := 0 |};
                 end_ := {| line := 2; character := 3 |} |};
     text := "ab" |}.

(** The state after a syntactic result for version 0 that gives one range
    to the token kind 1 and after its queued task: the editor shows the
    decoration 0 on that range. *)
Definition decoratedState : State :=
  performAll
    [ OpUpdateSyntactic "file:///a.cpp" [None; Some [sampleRange]] 0;
      OpRunNextTask ]
    (newColorizationState sampleEnvironment).

(** A log with the versions 1 to 4, a syntactic result received for
    version 2 and a semantic one for version 3, before any purge. *)
Definition skewedState : State :=
  performAll
    [ OpAddEdits [] 1; OpAddEdits [] 2; OpAddEdits [] 3; OpAddEdits [] 4;
      OpUpdateSyntactic "file:///a.cpp" [] 2;
      OpUpdateSemantic "file:///a.cpp" [] (Some []) 3 ]
    (newColorizationState sampleEnvironment).

(** The state after a syntactic result for version 0 that gives one range
    to the token kind 1, its queued task, and an edit of version 1. *)
Definition sampleState : State :=
  performAll
    [ OpUpdateSyntactic "file:///a.cpp" [None; Some [sampleRange]] 0;
      OpRunNextTask;
      OpAddEdits [sampleChange] 1 ]
    (newColorizationState sampleEnvironment).

Definition sampleRuleSettings : TextMate.RuleSettings :=
  {| TextMate.foreground := Some "#6A9955"%string;
     TextMate.background := None;
     TextMate.fontStyle := Some "italic"%string |}.

Definition sampleRule : TextMate.Rule :=
  {| TextMate.scope := TextMate.ScopeNames ["comment"; "string"]%string;
     TextMate.settings := Some sampleRuleSettings |}.

Definition sampleStyle : ThemeStyle :=
  {| foreground := Some "#D4D4D4"%string; background := None;
     fontStyle := Some "bold"%string |}.

(** The state after a syntactic result for version 0 that gives the range
    (0,4)-(0,9) to the token kind 1, an edit of version 1 that inserts a
    line break at (0,0) and an edit of version 2 that inserts two
    characters at (1,0): the second edit meets the range only where the
    first one has moved it. *)
Definition twoEditState : State :=
  performAll
    [ OpUpdateSyntactic "file:///a.cpp"
        [ None;
          Some [ {| start := {| line := 0; character := 4 |};
                    end_ := {| line := 0; character := 9 |} |} ] ] 0;
      OpRunNextTask;
      OpAddEdits
        [ {| range := {| start := {| line := 0; character := 0 |};
                         end_ := {| line := 0; character := 0 |} |};
             text := String (ascii_of_nat 10) EmptyString |} ] 1;
      OpAddEdits
        [ {| range := {| start := {| line := 1; character := 0 |};
                         end_ := {| line := 1; character := 0 |} |};
             text := "ab" |} ] 2 ]
    (newColorizationState sampleEnvironment).

(* ===================================================================== *)
(** * Properties of the range transform *)

(** ** The comparisons of [Position], as propositions *)

Lemma isBefore_cases (p q : Position) :
  (isBefore p q = true /\ pos_lt p q) \/ (isBefore p q = false /\ pos_le q p).
Proof.
  unfold isBefore, pos_lt, pos_le.
  destruct (Z.ltb_spec (line p) (line q));
    [ left; split; [ reflexivity | lia ] | ].
  destruct (Z.ltb_spec (line q) (line p));
    [ right; split; [ reflexivity | lia ] | ].
  destruct (Z.ltb_spec (character p) (character q));
    [ left | right ]; (split; [ reflexivity | lia ]).
Qed.

Lemma isBeforeOrEqual_cases (p q : Position) :
  (isBeforeOrEqual p q = true /\ pos_le p q)
  \/ (isBeforeOrEqual p q = false /\ pos_lt q p).
Proof.
  unfold isBeforeOrEqual, pos_lt, pos_le.
  destruct (Z.ltb_spec (line p) (line q));
    [ left; split; [ reflexivity | lia ] | ].
  destruct (Z.ltb_spec (line q) (line p));
    [ right; split; [ reflexivity | lia ] | ].
  destruct (Z.leb_spec (character p) (character q));
    [ left | right ]; (split; [ reflexivity | lia ]).
Qed.

Lemma isAfterOrEqual_cases (p q : Position) :
  (isAfterOrEqual p q = true /\ pos_le q p)
  \/ (isAfterOrEqual p q = false /\ pos_lt p q).
Proof.
  unfold isAfterOrEqual.
  destruct (isBefore_cases p q) as [[-> H] | [-> H]]; [ right | left ];
    split; trivial.
Qed.

Lemma newPosition_ok (l c : Z) :
  0 <= l -> 0 <= c -> newPosition l c = Ok {| line := l; character := c |}.
Proof.
  intros Hl Hc. unfold newPosition.
  destruct (Z.ltb_spec l 0); [ lia | ].
  destruct (Z.ltb_spec c 0); [ lia | reflexivity ].
Qed.

Lemma newRange_ordered (s e : Position) :
  pos_le s e -> newRange s e = {| start := s; end_ := e |}.
Proof.
  intros H. unfold newRange.
  destruct (isBefore_cases s e) as [[-> _] | [-> H']]; [ reflexivity | ].
  destruct s as [sl sc], e as [el ec].
  unfold pos_le in *; cbn [line character] in *.
  assert (sl = el) by lia. assert (sc = ec) by lia. subst. reflexivity.
Qed.

Ltac break_records :=
  repeat match goal with
         | r : Range |- _ => destruct r
         | p : Position |- _ => destruct p
         end.

Ltac expose :=
  cbv [wf_range wf_pos pos_le pos_lt cuts_no_endpoint
       line character start end_] in *.

(** Hypotheses are kept as conjunctions of linear facts: every disjunction
    is split as soon as it appears and impossible cases are closed. *)
Ltac split_facts :=
  repeat match goal with
         | H : _ /\ _ |- _ => destruct H
         | H : _ \/ _ |- _ => destruct H; try (exfalso; lia)
         end.

Ltac normalize := expose; split_facts; try (exfalso; lia).

Ltac arith := expose; lia.

Ltac reduce_geometry :=
  cbv beta iota zeta delta [rbind line character start end_].

Ltac geometry_step :=
  match goal with
  | |- context [isAfterOrEqual ?p ?q] =>
      let H := fresh "H" in
      destruct (isAfterOrEqual_cases p q) as [[-> H] | [-> H]]; normalize
  | |- context [isBeforeOrEqual ?p ?q] =>
      let H := fresh "H" in
      destruct (isBeforeOrEqual_cases p q) as [[-> H] | [-> H]]; normalize
  | |- context [newRange ?s ?e] =>
      rewrite (newRange_ordered s e) by arith
  | |- context [newPosition ?l ?c] =>
      rewrite (newPosition_ok l c) by arith
  | |- context [Z.eqb ?a ?b] =>
      destruct (Z.eqb_spec a b); try (exfalso; lia)
  end; reduce_geometry.

Ltac unfold_geometry :=
  cbv [fixRange branch_result shiftRangeAfterRemove shiftRangeAfterInsert
       newRange4 translate rbind line character start end_].

Ltac geometry :=
  intros; break_records; normalize; unfold_geometry; repeat geometry_step.

Lemma range_eq (a b c d a' b' c' d' : Z) :
  a = a' -> b = b' -> c = c' -> d = d' ->
  {| start := {| line := a; character := b |};
     end_ := {| line := c; character := d |} |}
  = {| start := {| line := a'; character := b' |};
       end_ := {| line := c'; character := d' |} |}.
Proof. intros; subst; reflexivity. Qed.

Ltac same_range := do 2 apply f_equal; apply range_eq; lia.

(** C9 (identity): a zero-length edit at any position [p] (nothing removed,
    nothing inserted) leaves every well-formed range unchanged. *)
Theorem fixRange_zero_length_edit (r : Range) (p : Position) :
  wf_range r -> fixRange r p p p = Ok (Some r).
Proof.
  geometry; try reflexivity; try same_range.
Qed.

Lemma fixRange_zero_length_edit_witness :
  let r := {| start := {| line := 2; character := 5 |};
              end_ := {| line := 3; character := 1 |} |} in
  let p := {| line := 2; character := 7 |} in
  wf_range r /\ fixRange r p p p = Ok (Some r).
Proof.
  cbv zeta. split.
  - cbv [wf_range wf_pos pos_le start end_ line character]. lia.
  - apply fixRange_zero_length_edit.
    cbv [wf_range wf_pos pos_le start end_ line character]. lia.
Defined.

(** C8 as stated fails: an empty range sitting exactly where the removal
    starts is returned unchanged, although the removal starts at its start
    and ends after its end. *)
Lemma fixRange_full_consumption_counterexample :
  ~ (forall (r : Range) (removeStart removeEnd insertEnd : Position),
        wf_range r -> wf_pos removeStart -> wf_pos removeEnd ->
        wf_pos insertEnd ->
        pos_le removeStart removeEnd -> pos_le removeStart insertEnd ->
        pos_le removeStart (start r) -> pos_le (end_ r) removeEnd ->
        fixRange r removeStart removeEnd insertEnd = Ok None).
Proof.
  intro H.
  specialize (H {| start := {| line := 5; character := 0 |};
                   end_ := {| line := 5; character := 0 |} |}
                {| line := 5; character := 0 |}
                {| line := 6; character := 0 |}
                {| line := 5; character := 0 |}).
  cbv [wf_range wf_pos pos_le start end_ line character] in H.
  assert (E : fixRange {| start := {| line := 5; character := 0 |};
                          end_ := {| line := 5; character := 0 |} |}
                {| line := 5; character := 0 |}
                {| line := 6; character := 0 |}
                {| line := 5; character := 0 |} = Ok None)
    by (apply H; lia).
  vm_compute in E. discriminate E.
Qed.

(** C8 (full consumption, amended): a removal that starts at or before the
    start of [r], strictly before its end, and ends at or after its end
    deletes the range. *)
Theorem fixRange_full_consumption
  (r : Range) (removeStart removeEnd insertEnd : Position) :
  pos_le removeStart (start r) ->
  pos_le (end_ r) removeEnd ->
  pos_lt removeStart (end_ r) ->
  fixRange r removeStart removeEnd insertEnd = Ok None.
Proof.
  geometry; reflexivity.
Qed.

Lemma fixRange_full_consumption_witness :
  fixRange {| start := {| line := 5; character := 0 |};
              end_ := {| line := 5; character := 0 |} |}
    {| line := 4; character := 0 |} {| line := 6; character := 9 |}
    {| line := 4; character := 0 |} = Ok None.
Proof.
  apply fixRange_full_consumption;
    cbv [pos_le pos_lt start end_ line character]; lia.
Defined.

(** C10 (frame): when the removal starts strictly inside the range, the
    transform returns a range and that range starts where [r] started. *)
Theorem fixRange_mid_range_keeps_start
  (r : Range) (removeStart removeEnd insertEnd : Position) :
  wf_range r -> wf_pos removeStart -> wf_pos removeEnd -> wf_pos insertEnd ->
  pos_le removeStart removeEnd -> pos_le removeStart insertEnd ->
  pos_lt (start r) removeStart -> pos_lt removeStart (end_ r) ->
  exists r', fixRange r removeStart removeEnd insertEnd = Ok (Some r')
             /\ start r' = start r.
Proof.
  geometry; (eexists; split; [ reflexivity | ]);
    cbv [start]; f_equal; lia.
Qed.

Lemma fixRange_mid_range_keeps_start_witness :
  exists r',
    fixRange {| start := {| line := 1; character := 2 |};
                end_ := {| line := 4; character := 6 |} |}
      {| line := 2; character := 0 |} {| line := 3; character := 3 |}
      {| line := 2; character := 5 |} = Ok (Some r')
    /\ start r' = {| line := 1; character := 2 |}.
Proof.
  apply (fixRange_mid_range_keeps_start
           {| start := {| line := 1; character := 2 |};
              end_ := {| line := 4; character := 6 |} |});
    cbv [wf_range wf_pos pos_le pos_lt start end_ line character]; lia.
Defined.

Lemma branch_reached_unique (r : Range) (removeStart removeEnd : Position) :
  exists b, branch_reached b r removeStart removeEnd = true
            /\ forall b', branch_reached b' r removeStart removeEnd = true ->
                          b' = b.
Proof.
  unfold branch_reached.
  destruct (isAfterOrEqual removeStart (end_ r));
    destruct (isBeforeOrEqual removeStart (start r));
    destruct (isAfterOrEqual removeEnd (end_ r));
    destruct (line removeEnd =? line (end_ r));
    cbn [negb andb];
    first
      [ exists ReturnUnchanged; split;
        [ reflexivity | intros [] Hb; (reflexivity || discriminate Hb) ]
      | exists ReturnNull; split;
        [ reflexivity | intros [] Hb; (reflexivity || discriminate Hb) ]
      | exists ReturnShifted; split;
        [ reflexivity | intros [] Hb; (reflexivity || discriminate Hb) ]
      | exists ReturnExtendedToInsertEnd; split;
        [ reflexivity | intros [] Hb; (reflexivity || discriminate Hb) ]
      | exists ReturnTailOnSameLine; split;
        [ reflexivity | intros [] Hb; (reflexivity || discriminate Hb) ]
      | exists ReturnTailOnOtherLine; split;
        [ reflexivity | intros [] Hb; (reflexivity || discriminate Hb) ] ].
Qed.

Lemma fixRange_returns_reached_branch
  (b : Branch) (r : Range) (removeStart removeEnd insertEnd : Position) :
  branch_reached b r removeStart removeEnd = true ->
  fixRange r removeStart removeEnd insertEnd
  = branch_result b r removeStart removeEnd insertEnd.
Proof.
  unfold branch_reached, fixRange, branch_result.
  destruct (isAfterOrEqual removeStart (end_ r));
    destruct (isBeforeOrEqual removeStart (start r));
    destruct (isAfterOrEqual removeEnd (end_ r));
    destruct (line removeEnd =? line (end_ r));
    destruct b; cbn [negb andb]; intro Hb;
    first [ discriminate Hb | reflexivity ].
Qed.

Lemma fixRange_total_well_formed
  (r : Range) (removeStart removeEnd insertEnd : Position) :
  wf_range r -> wf_pos removeStart -> wf_pos removeEnd -> wf_pos insertEnd ->
  pos_le removeStart removeEnd -> pos_le removeStart insertEnd ->
  exists o, fixRange r removeStart removeEnd insertEnd = Ok o
            /\ forall r', o = Some r' -> wf_range r'.
Proof.
  geometry.
  all: (eexists; split; [ reflexivity | ]);
    intros r' Hr'; try discriminate Hr';
    injection Hr' as <-; arith.
Qed.

(** C4: on a well-formed range and a well-formed replacement, control
    reaches exactly one of the six [return] statements of [fixRange], the
    call does not throw, and a range it returns has non-negative
    coordinates and its start at or before its end. *)
Theorem fixRange_one_branch_well_formed
  (r : Range) (removeStart removeEnd insertEnd : Position) :
  wf_range r -> wf_pos removeStart -> wf_pos removeEnd -> wf_pos insertEnd ->
  pos_le removeStart removeEnd -> pos_le removeStart insertEnd ->
  (exists b,
      branch_reached b r removeStart removeEnd = true
      /\ (forall b', branch_reached b' r removeStart removeEnd = true ->
                     b' = b)
      /\ fixRange r removeStart removeEnd insertEnd
         = branch_result b r removeStart removeEnd insertEnd)
  /\ (exists o,
         fixRange r removeStart removeEnd insertEnd = Ok o
         /\ forall r', o = Some r' -> wf_range r').
Proof.
  intros Hr Hs He Hi Hse Hsi. split.
  - destruct (branch_reached_unique r removeStart removeEnd) as [b [Hb Hu]].
    exists b. repeat split; trivial.
    now apply fixRange_returns_reached_branch.
  - now apply fixRange_total_well_formed.
Qed.

Lemma fixRange_one_branch_well_formed_witness :
  let r := {| start := {| line := 2; character := 5 |};
              end_ := {| line := 2; character := 10 |} |} in
  let removeStart := {| line := 2; character := 0 |} in
  let removeEnd := {| line := 2; character := 3 |} in
  let insertEnd := {| line := 2; character := 2 |} in
  (exists b,
      branch_reached b r removeStart removeEnd = true
      /\ (forall b', branch_reached b' r removeStart removeEnd = true ->
                     b' = b)
      /\ fixRange r removeStart removeEnd insertEnd
         = branch_result b r removeStart removeEnd insertEnd)
  /\ (exists o,
         fixRange r removeStart removeEnd insertEnd = Ok o
         /\ forall r', o = Some r' -> wf_range r').
Proof.
  cbv zeta. apply fixRange_one_branch_well_formed;
    cbv [wf_range wf_pos pos_le start end_ line character]; lia.
Defined.

(** The first scenario of the specification: the range ((2,5),(2,10))
    through the replacement of ((2,0),(2,3)) by a two-character text. *)
Example fixRange_scenario :
  fixRange {| start := {| line := 2; character := 5 |};
              end_ := {| line := 2; character := 10 |} |}
    {| line := 2; character := 0 |} {| line := 2; character := 3 |}
    {| line := 2; character := 2 |}
  = Ok (Some {| start := {| line := 2; character := 4 |};
                end_ := {| line := 2; character := 9 |} |}).
Proof. reflexivity. Qed.

Lemma fixRange_round_trip_positions
  (r : Range) (removeStart removeEnd insertEnd : Position) :
  wf_range r -> wf_pos removeStart -> wf_pos removeEnd -> wf_pos insertEnd ->
  pos_le removeStart removeEnd -> pos_le removeStart insertEnd ->
  cuts_no_endpoint r removeStart removeEnd insertEnd ->
  forall r1,
    fixRange r removeStart removeEnd insertEnd = Ok (Some r1) ->
    fixRange r1 removeStart insertEnd removeEnd = Ok (Some r).
Proof.
  intros Hr Hs He Hi Hse Hsi Hcut. break_records.
  normalize.
  all: unfold fixRange at 1;
  cbv [shiftRangeAfterRemove shiftRangeAfterInsert
       newRange4 translate rbind line character start end_];
  repeat geometry_step.
  all: intros r1 E; try discriminate E; injection E as <-.
  all: unfold_geometry; repeat geometry_step.
  all: try reflexivity; try same_range.
Qed.

(** ** Round trip through a change and its inverse *)

Lemma split_newline_not_empty (s : string) : split_newline s <> [].
Proof.
  destruct s as [ | c s]; cbn [split_newline]; [ discriminate | ].
  destruct (Ascii.eqb c newline); [ discriminate | ].
  destruct (split_newline s); discriminate.
Qed.

(** [textToRange] on a position of the editor returns a range that starts
    there and ends at or after it. *)
Lemma textToRange_ok (t : string) (p : Position) :
  wf_pos p ->
  exists insertEnd,
    textToRange t p = Ok {| start := p; end_ := insertEnd |}
    /\ wf_pos insertEnd /\ pos_le p insertEnd.
Proof.
  intros Hp. unfold textToRange.
  pose proof (split_newline_not_empty t) as Hparts.
  assert (Hlen : 0 <= Z.of_nat (List.length (split_newline t)) - 1)
    by (destruct (split_newline t); [ contradiction | cbn [List.length]; lia ]).
  assert (Hlast : 0 <= strlen (last (split_newline t) EmptyString))
    by (unfold strlen; lia).
  revert Hlen Hlast.
  generalize (Z.of_nat (List.length (split_newline t)) - 1) as addedLines.
  generalize (strlen (last (split_newline t) EmptyString)) as lastLength.
  intros lastLength addedLines Hlen Hlast.
  destruct p as [l c]. unfold wf_pos in Hp; cbn [line character] in *.
  cbv beta zeta.
  destruct (Z.eqb_spec l (l + addedLines)) as [E | E];
    unfold newRange4;
    rewrite !newPosition_ok by lia; cbv [rbind];
    rewrite newRange_ordered by (cbv [pos_le line character]; lia);
    eexists; (split; [ reflexivity | ]);
    cbv [wf_pos pos_le line character]; lia.
Qed.

Lemma fixRanges_single (r : Range) (change : TextDocumentContentChangeEvent)
  (insertRange : Range) :
  textToRange (text change) (start (range change)) = Ok insertRange ->
  fixRanges (Some [r]) [change]
  = let? fixed := fixRange r (start (range change)) (end_ (range change))
                    (end_ insertRange) in
    Ok (Some match fixed with
             | Some r' => [r']
             | None => []
             end).
Proof.
  intros H. cbn [fixRanges fixRangesChanges]. unfold fixRangesChange.
  rewrite H. cbn [rbind fixRangesOnce].
  destruct (fixRange r (start (range change)) (end_ (range change))
              (end_ insertRange)) as [[r' | ] | ]; reflexivity.
Qed.

(** C3 as stated fails: a removal that trims the front of the range loses
    where the range started, and the inverse change cannot bring it back. *)
Lemma fixRanges_round_trip_counterexample :
  ~ (forall (r r1 : Range) (change inverse : TextDocumentContentChangeEvent),
        wf_range r -> wf_range (range change) ->
        exact_inverse change inverse ->
        fixRanges (Some [r]) [change] = Ok (Some [r1]) ->
        fixRanges (Some [r1]) [inverse] = Ok (Some [r])).
Proof.
  intro H.
  specialize (H {| start := {| line := 0; character := 5 |};
                   end_ := {| line := 0; character := 10 |} |}
                {| start := {| line := 0; character := 0 |};
                   end_ := {| line := 0; character := 3 |} |}
                {| range := {| start := {| line := 0; character := 0 |};
                               end_ := {| line := 0; character := 7 |} |};
                   text := "" |}
                {| range := {| start := {| line := 0; character := 0 |};
                               end_ := {| line := 0; character := 0 |} |};
                   text := "#includ" |}).
  assert (E : Ok (Some [ {| start := {| line := 0; character := 7 |};
                            end_ := {| line := 0; character := 10 |} |} ])
              = Ok (Some [ {| start := {| line := 0; character := 5 |};
                              end_ := {| line := 0; character := 10 |} |} ])).
  { apply H.
    - cbv [wf_range wf_pos pos_le start end_ line character]. lia.
    - cbv [wf_range wf_pos pos_le start end_ line character range]. lia.
    - do 2 eexists. repeat split; reflexivity.
    - reflexivity. }
  discriminate E.
Qed.

(** C3 (round trip, amended): when the change cuts no endpoint of the
    range, sending the range through the change and then through its exact
    inverse gives the range back. *)
Theorem fixRanges_round_trip
  (r r1 : Range) (change inverse : TextDocumentContentChangeEvent) :
  wf_range r -> wf_range (range change) ->
  exact_inverse change inverse ->
  change_cuts_no_endpoint r change ->
  fixRanges (Some [r]) [change] = Ok (Some [r1]) ->
  fixRanges (Some [r1]) [inverse] = Ok (Some [r]).
Proof.
  intros Hr Hc (insertRange & reinsertRange & T1 & R' & T2 & E')
         (insertRange' & T1' & Hcut) Hfix.
  rewrite T1 in T1'. injection T1' as <-.
  destruct Hc as (Hs & He & Hse).
  destruct (textToRange_ok (text change) (start (range change)) Hs)
    as (insertEnd & T & Hi & Hsi).
  rewrite T in T1. injection T1 as <-. cbn [end_] in *.
  rewrite (fixRanges_single _ _ _ T) in Hfix. cbn [end_] in Hfix.
  destruct (fixRange r (start (range change)) (end_ (range change))
              insertEnd) as [[r1' | ] | ] eqn:F; try discriminate Hfix.
  cbn [rbind] in Hfix. injection Hfix as ->.
  pose proof (fixRange_round_trip_positions r _ _ _ Hr Hs He Hi Hse Hsi
                Hcut r1 F) as Back.
  rewrite (fixRanges_single _ _ _ T2).
  rewrite R' at 1 2. cbn [start end_]. rewrite E', Back. reflexivity.
Qed.

Lemma fixRanges_round_trip_witness :
  fixRanges
    (Some [ {| start := {| line := 2; character := 4 |};
               end_ := {| line := 2; character := 9 |} |} ])
    [ {| range := {| start := {| line := 2; character := 0 |};
                     end_ := {| line := 2; character := 2 |} |};
         text := "abc" |} ]
  = Ok (Some [sampleRange]).
Proof.
  apply (fixRanges_round_trip sampleRange _ sampleChange).
  - cbv [sampleRange wf_range wf_pos pos_le start end_ line character]. lia.
  - cbv [sampleChange wf_range wf_pos pos_le start end_ line character
         range]. lia.
  - do 2 eexists. repeat split; reflexivity.
  - eexists. split; [ reflexivity | ].
    cbv [sampleRange sampleChange cuts_no_endpoint pos_le pos_lt start end_
         line character range]. lia.
  - reflexivity.
Defined.

(** A change before the range that the round trip leaves out: a line break
    and two characters typed at column 3 of line 0, before the range
    ((0,5),(0,8)).  [shiftRangeAfterInsert] adds the column at which the
    inserted text ends to the columns of the range and does not take off
    the column at which it starts; the inverse change then lands on
    ((0,8),(0,11)). *)
Example fixRanges_line_break_before_range :
  let r := {| start := {| line := 0; character := 5 |};
              end_ := {| line := 0; character := 8 |} |} in
  let r1 := {| start := {| line := 1; character := 7 |};
               end_ := {| line := 1; character := 10 |} |} in
  let typed :=
    {| range := {| start := {| line := 0; character := 3 |};
                   end_ := {| line := 0; character := 3 |} |};
       text := String newline "ab" |} in
  let undone :=
    {| range := {| start := {| line := 0; character := 3 |};
                   end_ := {| line := 1; character := 2 |} |};
       text := "" |} in
  exact_inverse typed undone
  /\ fixRanges (Some [r]) [typed] = Ok (Some [r1])
  /\ fixRanges (Some [r1]) [undone]
     = Ok (Some [ {| start := {| line := 0; character := 8 |};
                     end_ := {| line := 0; character := 11 |} |} ]).
Proof.
  cbv zeta. split; [ | split; reflexivity ].
  do 2 eexists. repeat split; reflexivity.
Qed.

(* ===================================================================== *)
(** * Properties of the edit log and of the version counters *)

(** ** What a method leaves alone *)

Lemma preserves_ret {A X} (f : State -> X) (a : A) : preserves f (ret a).
Proof. intro s; reflexivity. Qed.

Lemma preserves_get {X} (f : State -> X) : preserves f get.
Proof. intro s; reflexivity. Qed.

Lemma preserves_lift {A X} (f : State -> X) (r : result A) :
  preserves f (lift r).
Proof. intro s; reflexivity. Qed.

Lemma preserves_modify {X} (f : State -> X) (g : State -> State) :
  (forall s, f (g s) = f s) -> preserves f (modify g).
Proof. intros H s; apply H. Qed.

Lemma preserves_bind {A B X} (f : State -> X) (m : M A) (k : A -> M B) :
  preserves f m -> (forall a, preserves f (k a)) -> preserves f (bind m k).
Proof.
  intros Hm Hk s. unfold bind.
  specialize (Hm s). destruct (m s) as [[a | ] s']; cbn [snd] in *.
  - rewrite Hk. exact Hm.
  - exact Hm.
Qed.

Lemma preserves_when {X} (f : State -> X) (c : bool) (m : M unit) :
  preserves f m -> preserves f (when c m).
Proof. intros H; destruct c; [ exact H | apply preserves_ret ]. Qed.

Lemma preserves_forEach {X Y} (f : State -> X) (l : list Y)
  (body : Y -> M unit) :
  (forall y, preserves f (body y)) -> preserves f (forEach l body).
Proof.
  intros H. induction l as [ | y l IH]; cbn [forEach].
  - apply preserves_ret.
  - apply preserves_bind; [ apply H | intros _; exact IH ].
Qed.

Ltac preserved :=
  repeat match goal with
         | |- forall _, _ => intro
         | |- preserves _ (bind _ _) => apply preserves_bind
         | |- preserves _ (ret _) => apply preserves_ret
         | |- preserves _ get => apply preserves_get
         | |- preserves _ (lift _) => apply preserves_lift
         | |- preserves _ (when _ _) => apply preserves_when
         | |- preserves _ (forEach _ _) => apply preserves_forEach
         | |- preserves _ (modify _) =>
             apply preserves_modify; intros []; reflexivity
         | |- preserves _ (match ?x with _ => _ end) => destruct x
         | |- preserves _ (emit _) => unfold emit
         | |- preserves _ (dispose _) => unfold dispose
         | |- preserves _ (setDecorations _ _ _) => unfold setDecorations
         | |- preserves _ createTextEditorDecorationType =>
             unfold createTextEditorDecorationType
         | |- preserves _ (createDecorationFromThemeStyle _) =>
             unfold createDecorationFromThemeStyle
         | |- preserves _ (createColorizationDecorations _) =>
             unfold createColorizationDecorations
         | |- preserves _ disposeColorizationDecorations =>
             unfold disposeColorizationDecorations
         | |- preserves _ (refreshInner _) => unfold refreshInner
         | |- preserves _ (applyEditSyntactic _) => unfold applyEditSyntactic
         | |- preserves _ (applyEditSemantic _) => unfold applyEditSemantic
         | |- preserves _ (applyEdit _) => unfold applyEdit
         | |- preserves _ applyEdits => unfold applyEdits
         | |- preserves _ purgeOldVersionedEdits =>
             unfold purgeOldVersionedEdits
         | |- preserves _ (updateColorizationRangesTask _) =>
             unfold updateColorizationRangesTask
         | |- preserves _ (onSettingsChangedTask _) =>
             unfold onSettingsChangedTask
         | |- preserves _ (runTask ?t) => destruct t; cbn [runTask]
         | |- preserves _ (syncWithLoadingSettings _) =>
             unfold syncWithLoadingSettings
         | |- preserves _ (updateColorizationRanges _) =>
             unfold updateColorizationRanges
         end.

Lemma runTask_preserves_lastReceived (t : Task) :
  preserves lastReceivedVersions (runTask t).
Proof. preserved. Qed.

Lemma runNextTask_preserves_lastReceived :
  preserves lastReceivedVersions runNextTask.
Proof.
  intro s. unfold runNextTask.
  destruct (pendingTasks s) as [ | t rest] eqn:E; cbn [snd]; [ reflexivity | ].
  rewrite runTask_preserves_lastReceived. destruct s; reflexivity.
Qed.

(** ** [forEach] over bodies that only write *)

Lemma forEach_modify {Y} (l : list Y) (g : Y -> State -> State) (s : State) :
  forEach l (fun y => modify (g y)) s
  = (Ok tt, fold_left (fun acc y => g y acc) l s).
Proof.
  revert s. induction l as [ | y l IH]; intro s; cbn [forEach fold_left].
  - reflexivity.
  - unfold bind at 1. unfold modify at 1. apply IH.
Qed.

Lemma fold_left_keeps {X Y} (f : State -> X) (l : list Y)
  (g : Y -> State -> State) :
  (forall y s, f (g y s) = f s) ->
  forall s, f (fold_left (fun acc y => g y acc) l s) = f s.
Proof.
  intros H. induction l as [ | y l IH]; intro s; cbn [fold_left].
  - reflexivity.
  - rewrite IH. apply H.
Qed.

(** ** C1: the counters of the last received versions *)

Lemma updateSyntactic_state (uri : string) (ranges : jsarray (list Range))
  (v : Z) (s : State) :
  exists s1,
    updateSyntactic uri ranges v s
    = (Ok tt,
       set_pendingTasks (pendingTasks s1 ++ [UpdateColorizationRangesTask uri])
         (set_lastReceivedSyntacticVersion v
            (set_currentSyntacticVersion v s1)))
    /\ lastReceivedVersions s1 = lastReceivedVersions s
    /\ currentVersions s1 = currentVersions s
    /\ versionedEdits s1 = versionedEdits s.
Proof.
  unfold updateSyntactic. unfold bind at 1. rewrite forEach_modify.
  match goal with |- context [fold_left ?f ?l ?a] =>
    set (s1 := fold_left f l a) end.
  exists s1. split.
  - clearbody s1.
    cbv [bind modify updateColorizationRanges syncWithLoadingSettings].
    destruct s1; reflexivity.
  - repeat split;
      apply (fold_left_keeps _ tokenKinds
               (fun i acc =>
                  set_syntacticRanges
                    (aset (syntacticRanges acc) i (aget ranges i)) acc));
      intros y []; reflexivity.
Qed.

Lemma updateSemantic_state (uri : string) (ranges : jsarray (list Range))
  (inactive : option (list Range)) (v : Z) (s : State) :
  exists s1,
    updateSemantic uri ranges inactive v s
    = (Ok tt,
       set_pendingTasks (pendingTasks s1 ++ [UpdateColorizationRangesTask uri])
         (set_lastReceivedSemanticVersion v
            (set_currentSemanticVersion v s1)))
    /\ lastReceivedVersions s1 = lastReceivedVersions s
    /\ currentVersions s1 = currentVersions s
    /\ versionedEdits s1 = versionedEdits s.
Proof.
  unfold updateSemantic. unfold bind at 1. unfold modify at 1.
  unfold bind at 1. rewrite forEach_modify.
  match goal with |- context [fold_left ?f ?l ?a] =>
    set (s1 := fold_left f l a) end.
  exists s1. split.
  - clearbody s1.
    cbv [bind modify updateColorizationRanges syncWithLoadingSettings].
    destruct s1; reflexivity.
  - repeat split;
      (etransitivity;
       [ apply (fold_left_keeps _ tokenKinds
                  (fun i acc =>
                     set_semanticRanges
                       (aset (semanticRanges acc) i (aget ranges i)) acc));
         intros y []; reflexivity
       | destruct s; reflexivity ]).
Qed.

(** C1 as stated fails: a result of version 3 received after one of
    version 5 leaves the counter at 3, not at the maximum 5. *)
Lemma update_last_received_counterexample :
  let s0 :=
    snd (updateSyntactic "file:///a.cpp" [] 5
           (newColorizationState sampleEnvironment)) in
  lastReceivedSyntacticVersion s0 = 5
  /\ lastReceivedSyntacticVersion
       (snd (updateSyntactic "file:///a.cpp" [] 3 s0))
     <> Z.max (lastReceivedSyntacticVersion s0) 3.
Proof.
  cbv zeta. split; [ reflexivity | ].
  vm_compute. discriminate.
Qed.

(** C1 (amended): [updateSyntactic] and [updateSemantic] return with the
    last-received counter of their own pass equal to the version of the
    result just received, whatever it was before, and leave the counter of
    the other pass alone; the task they queue changes neither counter when
    it runs. *)
Theorem update_records_received_version :
  (forall uri ranges v s,
      fst (updateSyntactic uri ranges v s) = Ok tt
      /\ lastReceivedSyntacticVersion (snd (updateSyntactic uri ranges v s))
         = v
      /\ lastReceivedSemanticVersion (snd (updateSyntactic uri ranges v s))
         = lastReceivedSemanticVersion s)
  /\ (forall uri ranges inactive v s,
         fst (updateSemantic uri ranges inactive v s) = Ok tt
         /\ lastReceivedSemanticVersion
              (snd (updateSemantic uri ranges inactive v s)) = v
         /\ lastReceivedSyntacticVersion
              (snd (updateSemantic uri ranges inactive v s))
            = lastReceivedSyntacticVersion s)
  /\ preserves lastReceivedVersions runNextTask.
Proof.
  split; [ | split ].
  - intros uri ranges v s.
    destruct (updateSyntactic_state uri ranges v s) as (s1 & -> & Hl & _).
    cbn [fst snd]. unfold lastReceivedVersions in Hl.
    injection Hl as Hsyn Hsem. rewrite <- Hsem.
    destruct s1; repeat split.
  - intros uri ranges inactive v s.
    destruct (updateSemantic_state uri ranges inactive v s)
      as (s1 & -> & Hl & _).
    cbn [fst snd]. unfold lastReceivedVersions in Hl.
    injection Hl as Hsyn Hsem. rewrite <- Hsyn.
    destruct s1; repeat split.
  - exact runNextTask_preserves_lastReceived.
Qed.

(** ** C5, C7: the counters of the applied versions *)

Lemma applyEditSyntactic_versions (e : VersionedEdits) (s s' : State)
  (r : result unit) :
  applyEditSyntactic e s = (r, s') ->
  currentSemanticVersion s' = currentSemanticVersion s
  /\ versionedEdits s' = versionedEdits s
  /\ match r with
     | Ok _ => currentSyntacticVersion s' = editVersion e
     | Throw => currentSyntacticVersion s' = currentSyntacticVersion s
     end.
Proof.
  unfold applyEditSyntactic.
  match goal with |- context [bind ?m ?k] => set (loop := m) end.
  assert (Hkeep : preserves
            (fun s => (currentSemanticVersion s, versionedEdits s,
                       currentSyntacticVersion s)) loop)
    by (subst loop; preserved).
  specialize (Hkeep s). clearbody loop. unfold bind.
  destruct (loop s) as [[[] | ] s1]; cbn [fst snd] in *;
    injection Hkeep as H1 H2 H3; unfold modify;
    intro E; injection E as <- <-; destruct s1; cbn in *; auto.
Qed.

Lemma applyEditSemantic_versions (e : VersionedEdits) (s s' : State)
  (r : result unit) :
  applyEditSemantic e s = (r, s') ->
  currentSyntacticVersion s' = currentSyntacticVersion s
  /\ versionedEdits s' = versionedEdits s
  /\ match r with
     | Ok _ => currentSemanticVersion s' = editVersion e
     | Throw => currentSemanticVersion s' = currentSemanticVersion s
     end.
Proof.
  unfold applyEditSemantic.
  match goal with |- context [bind ?m ?k] => set (loop := m) end.
  assert (Hkeep : preserves
            (fun s => (currentSyntacticVersion s, versionedEdits s,
                       currentSemanticVersion s)) loop)
    by (subst loop; preserved).
  specialize (Hkeep s). clearbody loop. cbv [bind get lift modify].
  destruct (loop s) as [[[] | ] s1]; cbn [fst snd] in *;
    injection Hkeep as H1 H2 H3;
    [ destruct (fixRanges (inactiveRanges s1) (changes e)) | ];
    intro E; injection E as <- <-; destruct s1; cbn in *; auto.
Qed.

(** What one round of the loop of [applyEdits] does to the counters: a
    counter keeps its value or takes the version of the edit, which is then
    larger; when the round returns, both counters are at least that
    version. *)
Lemma applyEdit_versions (e : VersionedEdits) (s s' : State)
  (r : result unit) :
  applyEdit e s = (r, s') ->
  versionedEdits s' = versionedEdits s
  /\ (currentSyntacticVersion s' = currentSyntacticVersion s
      \/ (currentSyntacticVersion s < editVersion e
          /\ currentSyntacticVersion s' = editVersion e))
  /\ (currentSemanticVersion s' = currentSemanticVersion s
      \/ (currentSemanticVersion s < editVersion e
          /\ currentSemanticVersion s' = editVersion e))
  /\ (r = Ok tt ->
      currentSyntacticVersion s'
      = Z.max (currentSyntacticVersion s) (editVersion e)
      /\ currentSemanticVersion s'
         = Z.max (currentSemanticVersion s) (editVersion e)).
Proof.
  unfold applyEdit.
  unfold bind at 1, get at 1. unfold bind at 1.
  destruct (Z.ltb_spec (currentSyntacticVersion s) (editVersion e))
    as [Hsyn | Hsyn]; cbn [when].
  - destruct (applyEditSyntactic e s) as [[[] | ] s1] eqn:E1;
      destruct (applyEditSyntactic_versions _ _ _ _ E1) as (A1 & A2 & A3).
    + unfold bind at 1, get at 1.
      destruct (Z.ltb_spec (currentSemanticVersion s1) (editVersion e))
        as [Hsem | Hsem]; cbn [when].
      * destruct (applyEditSemantic e s1) as [[[] | ] s2] eqn:E2;
          destruct (applyEditSemantic_versions _ _ _ _ E2)
            as (B1 & B2 & B3);
          intro E; injection E as <- <-;
          repeat split; try congruence;
          try (right; lia); try (left; lia); try lia;
          intros; try discriminate; lia.
      * unfold ret. intro E; injection E as <- <-.
        repeat split; try congruence;
          try (right; lia); try (left; lia); intros; lia.
    + intro E; injection E as <- <-.
      repeat split; try congruence; try (left; lia);
        intros; discriminate.
  - unfold ret at 1. unfold bind at 1, get at 1.
    destruct (Z.ltb_spec (currentSemanticVersion s) (editVersion e))
      as [Hsem | Hsem]; cbn [when].
    + destruct (applyEditSemantic e s) as [[[] | ] s2] eqn:E2;
        destruct (applyEditSemantic_versions _ _ _ _ E2) as (B1 & B2 & B3);
        intro E; injection E as <- <-;
        repeat split; try congruence;
        try (right; lia); try (left; lia); try lia;
        intros; try discriminate; lia.
    + unfold ret. intro E; injection E as <- <-.
      repeat split; try (left; reflexivity); intros; lia.
Qed.

Lemma forEach_applyEdit_versions (l : list VersionedEdits) :
  forall (s s' : State) (r : result unit),
    forEach l applyEdit s = (r, s') ->
    versionedEdits s' = versionedEdits s
    /\ currentSyntacticVersion s <= currentSyntacticVersion s'
    /\ currentSemanticVersion s <= currentSemanticVersion s'
    /\ (currentSyntacticVersion s' = currentSyntacticVersion s
        \/ exists e, In e l /\ editVersion e = currentSyntacticVersion s')
    /\ (currentSemanticVersion s' = currentSemanticVersion s
        \/ exists e, In e l /\ editVersion e = currentSemanticVersion s')
    /\ (r = Ok tt ->
        Forall (fun e => editVersion e <= currentSyntacticVersion s'
                         /\ editVersion e <= currentSemanticVersion s') l).
Proof.
  induction l as [ | e l IH]; intros s s' r; cbn [forEach].
  - unfold ret. intro E; injection E as <- <-.
    repeat split; try lia; try (left; reflexivity).
  - unfold bind.
    destruct (applyEdit e s) as [[[] | ] s1] eqn:E1;
      destruct (applyEdit_versions _ _ _ _ E1) as (A0 & A1 & A2 & A3).
    + intro E. destruct (IH _ _ _ E) as (B0 & B1 & B2 & B3 & B4 & B5).
      destruct (A3 eq_refl) as [A4 A5].
      repeat split; try congruence; try lia.
      * destruct B3 as [B3 | (e' & He' & B3)];
          [ destruct A1 as [A1 | [_ A1]];
            [ left; congruence
            | right; exists e; split; [ left; reflexivity | congruence ] ]
          | right; exists e'; split; [ right; exact He' | exact B3 ] ].
      * destruct B4 as [B4 | (e' & He' & B4)];
          [ destruct A2 as [A2 | [_ A2]];
            [ left; congruence
            | right; exists e; split; [ left; reflexivity | congruence ] ]
          | right; exists e'; split; [ right; exact He' | exact B4 ] ].
      * intro Hr. constructor; [ lia | exact (B5 Hr) ].
    + intro E; injection E as <- <-.
      repeat split; try congruence; try lia.
      * destruct A1 as [A1 | [_ A1]];
          [ left; exact A1
          | right; exists e; split; [ left; reflexivity | congruence ] ].
      * destruct A2 as [A2 | [_ A2]];
          [ left; exact A2
          | right; exists e; split; [ left; reflexivity | congruence ] ].
Qed.

Lemma applyEdit_caught_up (e : VersionedEdits) (s : State) :
  editVersion e <= currentSyntacticVersion s ->
  editVersion e <= currentSemanticVersion s ->
  applyEdit e s = (Ok tt, s).
Proof.
  intros Hsyn Hsem. unfold applyEdit. cbv [bind get].
  destruct (Z.ltb_spec (currentSyntacticVersion s) (editVersion e));
    [ lia | ].
  cbn [when]. unfold ret at 1.
  destruct (Z.ltb_spec (currentSemanticVersion s) (editVersion e));
    [ lia | reflexivity ].
Qed.

Lemma forEach_applyEdit_caught_up (l : list VersionedEdits) (s : State) :
  Forall (fun e => editVersion e <= currentSyntacticVersion s
                   /\ editVersion e <= currentSemanticVersion s) l ->
  forEach l applyEdit s = (Ok tt, s).
Proof.
  induction 1 as [ | e l [Hsyn Hsem] _ IH]; cbn [forEach].
  - reflexivity.
  - unfold bind. rewrite applyEdit_caught_up by assumption. exact IH.
Qed.

(** C7: when [applyEdits] has returned, running it again with no edit
    recorded in between returns and leaves the whole state, hence every
    stored range and both applied-version counters, as it is. *)
Theorem applyEdits_twice (s s1 : State) :
  applyEdits s = (Ok tt, s1) -> applyEdits s1 = (Ok tt, s1).
Proof.
  unfold applyEdits. cbv [bind get]. intro E.
  destruct (forEach_applyEdit_versions _ _ _ _ E) as (H0 & _ & _ & _ & _ & H).
  rewrite H0. apply forEach_applyEdit_caught_up. exact (H eq_refl).
Qed.

Lemma applyEdits_twice_witness :
  applyEdits (snd (applyEdits sampleState))
  = (Ok tt, snd (applyEdits sampleState)).
Proof.
  apply (applyEdits_twice sampleState). vm_compute. reflexivity.
Defined.

(** The sample state has work for [applyEdits]: its first run moves the
    range of the token kind 1 and raises both counters to 1. *)
Example applyEdits_sample :
  aget (syntacticRanges (snd (applyEdits sampleState))) 1
  = Some [ {| start := {| line := 2; character := 4 |};
              end_ := {| line := 2; character := 9 |} |} ]
  /\ currentVersions sampleState = (0, 0)
  /\ currentVersions (snd (applyEdits sampleState)) = (1, 1).
Proof. vm_compute. repeat split. Qed.

Lemma preserves_never_lowers {A} (m : M A) :
  preserves currentVersions m -> never_lowers_versions m.
Proof.
  intros H s. specialize (H s). unfold currentVersions in H.
  injection H as -> ->. lia.
Qed.

Lemma never_lowers_bind {A B} (m : M A) (k : A -> M B) :
  never_lowers_versions m -> (forall a, never_lowers_versions (k a)) ->
  never_lowers_versions (bind m k).
Proof.
  intros Hm Hk s. unfold bind. specialize (Hm s).
  destruct (m s) as [[a | ] s1]; cbn [snd] in *; [ | exact Hm ].
  specialize (Hk a s1). lia.
Qed.

Lemma applyEdits_never_lowers : never_lowers_versions applyEdits.
Proof.
  intro s. unfold applyEdits. cbv [bind get].
  destruct (forEach (versionedEdits s) applyEdit s) as [r s'] eqn:E.
  destruct (forEach_applyEdit_versions _ _ _ _ E) as (_ & H1 & H2 & _).
  cbn [snd]. lia.
Qed.

Lemma runTask_never_lowers (t : Task) : never_lowers_versions (runTask t).
Proof.
  destruct t; cbn [runTask].
  - apply preserves_never_lowers. preserved.
  - unfold onSettingsChangedTask.
    apply never_lowers_bind; [ exact applyEdits_never_lowers | intros _ ].
    apply preserves_never_lowers. preserved.
  - unfold updateColorizationRangesTask.
    apply never_lowers_bind; [ exact applyEdits_never_lowers | intros _ ].
    apply preserves_never_lowers. preserved.
Qed.

Lemma runNextTask_never_lowers : never_lowers_versions runNextTask.
Proof.
  intro s. unfold runNextTask.
  destruct (pendingTasks s) as [ | t rest]; cbn [snd]; [ lia | ].
  pose proof (runTask_never_lowers t (set_pendingTasks rest s)) as H.
  destruct s; cbn in *. exact H.
Qed.

(** C5 as stated fails: a syntactic result of version 3 received after one
    of version 5 lowers the applied-version counter of the pass from 5 to
    3, and [applyEdits] has no edit to raise it again. *)
Lemma applied_version_counterexample :
  let before :=
    performAll [ OpUpdateSyntactic "file:///a.cpp" [] 5 ]
      (newColorizationState sampleEnvironment) in
  let after :=
    performAll [ OpUpdateSyntactic "file:///a.cpp" [] 3; OpApplyEdits ]
      before in
  currentSyntacticVersion after < currentSyntacticVersion before.
Proof. vm_compute. reflexivity. Qed.

(** ** C6: purging the edit log *)

Lemma findIndex_bounds {A} (p : A -> bool) (l : list A) :
  findIndex p l = -1 \/ 0 <= findIndex p l.
Proof.
  induction l as [ | x l IH]; cbn [findIndex]; [ left; reflexivity | ].
  destruct (p x); [ right; lia | ].
  destruct (Z.eqb_spec (findIndex p l) (-1)); [ left; reflexivity | ].
  right; lia.
Qed.

Lemma findIndex_none {A} (p : A -> bool) (l : list A) :
  findIndex p l = -1 -> filter p l = [].
Proof.
  induction l as [ | x l IH]; cbn [findIndex filter]; [ reflexivity | ].
  destruct (p x); [ discriminate | ].
  destruct (Z.eqb_spec (findIndex p l) (-1)) as [E | E]; [ intros _; auto | ].
  destruct (findIndex_bounds p l); [ contradiction | lia ].
Qed.

Lemma filter_all {A} (p : A -> bool) (l : list A) :
  Forall (fun x => p x = true) l -> filter p l = l.
Proof.
  induction 1 as [ | x l Hx _ IH]; cbn [filter]; [ reflexivity | ].
  rewrite Hx, IH. reflexivity.
Qed.

Lemma slice_findIndex_sorted (m : Z) (l : list VersionedEdits) :
  increasing_versions l ->
  findIndex (fun e => m <? editVersion e) l <> -1 ->
  slice l (findIndex (fun e => m <? editVersion e) l)
  = filter (fun e => m <? editVersion e) l.
Proof.
  unfold increasing_versions, slice. intro Hs.
  apply Sorted_StronglySorted in Hs;
    [ | intros a b c Hab Hbc; lia ].
  induction Hs as [ | x l Hl IH Hx]; cbn [findIndex filter].
  - intros H; contradiction H; reflexivity.
  - destruct (Z.ltb_spec m (editVersion x)) as [Hm | Hm].
    + intros _. cbn. f_equal. symmetry. apply filter_all.
      eapply Forall_impl; [ | exact Hx ].
      cbv beta. intros a Ha. apply Z.ltb_lt. lia.
    + destruct (Z.eqb_spec (findIndex (fun e => m <? editVersion e) l) (-1))
        as [E | E]; [ intros H; contradiction H; reflexivity | ].
      intros _.
      destruct (findIndex_bounds (fun e => m <? editVersion e) l) as [B | B];
        [ contradiction | ].
      revert IH E B.
      generalize (findIndex (fun e => m <? editVersion e) l) as i.
      intros i IH E B.
      replace (Z.to_nat (i + 1)) with (S (Z.to_nat i)) by lia.
      cbn [skipn]. apply IH. exact E.
Qed.

(** C6: on a log recorded with strictly increasing versions,
    [purgeOldVersionedEdits] returns and leaves exactly the edits whose
    version is larger than the smaller of the two last-received versions,
    in their order; none of the remaining edits has a version at or below
    that minimum. *)
Theorem purgeOldVersionedEdits_sorted (s : State) :
  increasing_versions (versionedEdits s) ->
  let minVersion :=
    Z.min (lastReceivedSyntacticVersion s) (lastReceivedSemanticVersion s) in
  let s' := snd (purgeOldVersionedEdits s) in
  fst (purgeOldVersionedEdits s) = Ok tt
  /\ versionedEdits s'
     = filter (fun e => minVersion <? editVersion e) (versionedEdits s)
  /\ Forall (fun e => minVersion < editVersion e) (versionedEdits s').
Proof.
  intros Hs minVersion s'.
  assert (Hpurge :
    fst (purgeOldVersionedEdits s) = Ok tt
    /\ versionedEdits s'
       = filter (fun e => minVersion <? editVersion e) (versionedEdits s)).
  { subst s' minVersion. unfold purgeOldVersionedEdits. cbv [bind get].
    rewrite (Z.min_comm (lastReceivedSemanticVersion s)).
    set (m := Z.min _ _).
    pose proof (slice_findIndex_sorted m _ Hs) as Hslice.
    pose proof (findIndex_none (fun e => m <? editVersion e)
                  (versionedEdits s)) as Hnone.
    destruct (findIndex_bounds (fun e => m <? editVersion e)
                (versionedEdits s)) as [B | B].
    - rewrite B. cbn [Z.eqb]. unfold modify; cbn [fst snd].
      rewrite (Hnone B). destruct s; split; reflexivity.
    - destruct (Z.eqb_spec (findIndex (fun e => m <? editVersion e)
                              (versionedEdits s)) (-1)) as [E | E];
        [ lia | ].
      destruct (Z.ltb_spec 0 (findIndex (fun e => m <? editVersion e)
                                (versionedEdits s))) as [P | P].
      + unfold modify; cbn [fst snd]. rewrite <- (Hslice E).
        destruct s; split; reflexivity.
      + unfold ret; cbn [fst snd]. rewrite <- (Hslice E).
        replace (findIndex (fun e => m <? editVersion e) (versionedEdits s))
          with 0 by lia.
        split; reflexivity. }
  destruct Hpurge as [H1 H2]. repeat split; trivial.
  rewrite H2. apply Forall_forall. intros e He.
  apply filter_In in He. destruct He as [_ He]. apply Z.ltb_lt. exact He.
Qed.

Lemma purgeOldVersionedEdits_sorted_witness :
  increasing_versions (versionedEdits skewedState)
  /\ fst (purgeOldVersionedEdits skewedState) = Ok tt
  /\ versionedEdits (snd (purgeOldVersionedEdits skewedState))
     = filter
         (fun e =>
            Z.min (lastReceivedSyntacticVersion skewedState)
              (lastReceivedSemanticVersion skewedState) <? editVersion e)
         (versionedEdits skewedState)
  /\ Forall
       (fun e =>
          Z.min (lastReceivedSyntacticVersion skewedState)
            (lastReceivedSemanticVersion skewedState) < editVersion e)
       (versionedEdits (snd (purgeOldVersionedEdits skewedState))).
Proof.
  assert (H : increasing_versions (versionedEdits skewedState))
    by (vm_compute; repeat constructor).
  split; [ exact H | ].
  exact (purgeOldVersionedEdits_sorted skewedState H).
Defined.

(** The third scenario of the specification: with the versions 1 to 4 in
    the log, the syntactic pass at 2 and the semantic pass at 3, the purge
    keeps the edits 3 and 4. *)
Example purgeOldVersionedEdits_scenario :
  map editVersion (versionedEdits skewedState) = [1; 2; 3; 4]
  /\ map editVersion (versionedEdits (snd (purgeOldVersionedEdits skewedState)))
     = [3; 4].
Proof. vm_compute. split; reflexivity. Qed.

(* ===================================================================== *)
(** * The order of the requests made to the editor *)

Lemma emits_ret {A} (P : Event -> Prop) (a : A) : emits P (ret a).
Proof.
  intro s. exists []. rewrite app_nil_r.
  split; [ reflexivity | constructor ].
Qed.

Lemma emits_silent {A} (P : Event -> Prop) (m : M A) :
  preserves events m -> emits P m.
Proof.
  intros H s. exists []. rewrite app_nil_r, H.
  split; [ reflexivity | constructor ].
Qed.

Lemma emits_emit (P : Event -> Prop) (e : Event) : P e -> emits P (emit e).
Proof.
  intros H s. exists [e]. split; [ destruct s; reflexivity | ].
  constructor; [ exact H | constructor ].
Qed.

Lemma emits_bind {A B} (P : Event -> Prop) (m : M A) (k : A -> M B) :
  emits P m -> (forall a, emits P (k a)) -> emits P (bind m k).
Proof.
  intros Hm Hk s. unfold bind.
  destruct (Hm s) as (e1 & E1 & F1).
  destruct (m s) as [[a | ] s1]; cbn [snd] in *.
  - destruct (Hk a s1) as (e2 & E2 & F2).
    exists (e1 ++ e2). rewrite E2, E1, app_assoc.
    split; [ reflexivity | apply Forall_app; split; assumption ].
  - exists e1. split; assumption.
Qed.

Lemma emits_when (P : Event -> Prop) (c : bool) (m : M unit) :
  emits P m -> emits P (when c m).
Proof. intros H; destruct c; [ exact H | apply emits_ret ]. Qed.

Lemma emits_forEach {Y} (P : Event -> Prop) (l : list Y)
  (body : Y -> M unit) :
  (forall y, emits P (body y)) -> emits P (forEach l body).
Proof.
  intros H. induction l as [ | y l IH]; cbn [forEach].
  - apply emits_ret.
  - apply emits_bind; [ apply H | intros _; exact IH ].
Qed.

Ltac emitted :=
  repeat match goal with
         | |- forall _, _ => intro
         | |- emits _ (bind _ _) => apply emits_bind
         | |- emits _ (ret _) => apply emits_ret
         | |- emits _ (when _ _) => apply emits_when
         | |- emits _ (forEach _ _) => apply emits_forEach
         | |- emits _ get => apply emits_silent; apply preserves_get
         | |- emits _ (modify _) =>
             apply emits_silent; apply preserves_modify; intros [];
             reflexivity
         | |- emits _ (emit _) => apply emits_emit; cbn; tauto
         | |- emits _ applyEdits => apply emits_silent; preserved
         | |- emits _ purgeOldVersionedEdits => apply emits_silent; preserved
         | |- emits _ (match ?x with _ => _ end) => destruct x
         | |- emits _ (dispose _) => unfold dispose
         | |- emits _ (setDecorations _ _ _) => unfold setDecorations
         | |- emits _ createTextEditorDecorationType =>
             unfold createTextEditorDecorationType
         | |- emits _ (createDecorationFromThemeStyle _) =>
             unfold createDecorationFromThemeStyle
         | |- emits _ (createColorizationDecorations _) =>
             unfold createColorizationDecorations
         | |- emits _ (refreshInner _) => unfold refreshInner
         end.

Lemma disposes_last_bind {A B} (m : M A) (k : A -> M B) :
  emits (fun e => ~ is_dispose e) m ->
  (forall a, disposes_last (k a)) ->
  disposes_last (bind m k).
Proof.
  intros Hm Hk s. unfold bind.
  destruct (Hm s) as (e1 & E1 & F1).
  destruct (m s) as [[a | ] s1]; cbn [snd] in *.
  - destruct (Hk a s1) as (shown & released & E2 & F2 & F3).
    exists (e1 ++ shown), released. rewrite E2, E1, !app_assoc.
    repeat split; trivial. apply Forall_app; split; assumption.
  - exists e1, []. rewrite app_nil_r. repeat split; trivial.
Qed.

Lemma disposes_last_released {A} (m : M A) :
  emits is_dispose m -> disposes_last m.
Proof.
  intros H s. destruct (H s) as (e & E & F).
  exists [], e. repeat split; trivial.
Qed.

(** The path taken on a classification result sets the old decorations
    aside and disposes of them after every other request: whatever the
    state, the requests of [updateColorizationRanges]'s task are creations
    and applications first and disposals last. *)
Lemma updateColorizationRangesTask_disposes_last (uri : string) :
  disposes_last (updateColorizationRangesTask uri).
Proof.
  unfold updateColorizationRangesTask.
  repeat (apply disposes_last_bind; [ solve [ emitted ] | intro ]).
  apply disposes_last_released. emitted.
Qed.

(** C2 fails on [onSettingsChanged]: with the decoration 0 shown on the
    visible editor, the task queued by a settings change first disposes of
    the decoration 0 and only then creates the decoration 1 and applies
    it. *)
Theorem onSettingsChanged_disposes_first :
  events decoratedState
  = [ CreateDecoration 0%nat; SetDecorations 1%nat 0%nat [sampleRange] ]
  /\ fst (onSettingsChangedTask sampleUri decoratedState) = Ok tt
  /\ events (snd (onSettingsChangedTask sampleUri decoratedState))
     = events decoratedState
       ++ [ DisposeDecoration 0%nat;
            CreateDecoration 1%nat;
            SetDecorations 1%nat 1%nat [sampleRange] ].
Proof. vm_compute. repeat split. Qed.

(** On the same state, the task of a classification result makes the same
    requests in the other order. *)
Example updateColorizationRanges_disposes_last :
  fst (updateColorizationRangesTask "file:///a.cpp" decoratedState) = Ok tt
  /\ events (snd (updateColorizationRangesTask "file:///a.cpp"
                    decoratedState))
     = events decoratedState
       ++ [ CreateDecoration 1%nat;
            SetDecorations 1%nat 1%nat [sampleRange];
            DisposeDecoration 0%nat ].
Proof. vm_compute. split; reflexivity. Qed.

(* ===================================================================== *)
(** * [applyEdits] returns on well-formed states *)

Lemma fixRangesOnce_well_formed (l : list Range)
  (removeStart removeEnd insertEnd : Position) :
  Forall wf_range l ->
  wf_pos removeStart -> wf_pos removeEnd -> wf_pos insertEnd ->
  pos_le removeStart removeEnd -> pos_le removeStart insertEnd ->
  exists l', fixRangesOnce l removeStart removeEnd insertEnd = Ok l'
             /\ Forall wf_range l'.
Proof.
  intros Hl Hs He Hi Hse Hsi.
  induction Hl as [ | r l Hr _ (l' & IH & Hl')]; cbn [fixRangesOnce].
  - exists []. split; [ reflexivity | constructor ].
  - destruct (fixRange_total_well_formed r _ _ _ Hr Hs He Hi Hse Hsi)
      as (o & -> & Ho).
    rewrite IH. cbn [rbind]. destruct o as [r' | ].
    + exists (r' :: l'). split; [ reflexivity | ].
      constructor; [ apply Ho; reflexivity | exact Hl' ].
    + exists l'. split; [ reflexivity | exact Hl' ].
Qed.

Lemma fixRangesChanges_well_formed
  (changes : list TextDocumentContentChangeEvent) :
  Forall (fun change => wf_range (range change)) changes ->
  forall l, Forall wf_range l ->
    exists l', fixRangesChanges l changes = Ok l' /\ Forall wf_range l'.
Proof.
  induction 1 as [ | change changes (Hs & He & Hse) _ IH]; intros l Hl;
    cbn [fixRangesChanges].
  - exists l. split; [ reflexivity | exact Hl ].
  - unfold fixRangesChange.
    destruct (textToRange_ok (text change) (start (range change)) Hs)
      as (insertEnd & -> & Hi & Hsi).
    cbn [rbind end_].
    destruct (fixRangesOnce_well_formed l _ _ _ Hl Hs He Hi Hse Hsi)
      as (l1 & -> & Hl1).
    cbn [rbind]. apply IH. exact Hl1.
Qed.

Lemma fixRanges_well_formed (ranges : option (list Range))
  (changes : list TextDocumentContentChangeEvent) :
  wf_ranges ranges ->
  Forall (fun change => wf_range (range change)) changes ->
  exists ranges', fixRanges ranges changes = Ok ranges'
                  /\ wf_ranges ranges'.
Proof.
  intros Hr Hc. destruct ranges as [[ | r l] | ]; cbn [fixRanges];
    try (eexists; split; [ reflexivity | exact Hr ]).
  destruct (fixRangesChanges_well_formed changes Hc (r :: l) Hr)
    as (l' & -> & Hl').
  cbn [rbind]. exists (Some l'). split; [ reflexivity | exact Hl' ].
Qed.

Lemma aget_well_formed (a : jsarray (list Range)) (i : nat) :
  Forall wf_ranges a -> wf_ranges (aget a i).
Proof.
  intros H. unfold aget. revert i.
  induction H as [ | x a Hx _ IH]; intros [ | i]; cbn [nth];
    try exact I; [ exact Hx | apply IH ].
Qed.

Lemma aset_well_formed (a : jsarray (list Range)) (i : nat)
  (v : option (list Range)) :
  Forall wf_ranges a -> wf_ranges v -> Forall wf_ranges (aset a i v).
Proof.
  intros Ha Hv. revert a Ha.
  induction i as [ | i IH]; intros a Ha; destruct Ha as [ | x a Hx Ha];
    cbn [aset].
  - constructor; [ exact Hv | constructor ].
  - constructor; assumption.
  - constructor; [ exact I | apply IH; constructor ].
  - constructor; [ exact Hx | apply IH; exact Ha ].
Qed.

Lemma forEach_invariant {Y} (I : State -> Prop) (l : list Y)
  (body : Y -> M unit) :
  (forall y s, I s -> exists s', body y s = (Ok tt, s') /\ I s') ->
  forall s, I s -> exists s', forEach l body s = (Ok tt, s') /\ I s'.
Proof.
  intros H. induction l as [ | y l IH]; intros s Hs; cbn [forEach].
  - exists s. split; [ reflexivity | exact Hs ].
  - unfold bind. destruct (H y s Hs) as (s1 & -> & Hs1). apply IH. exact Hs1.
Qed.

Lemma applyEditSyntactic_returns (e : VersionedEdits) (s : State) :
  wf_edit e -> wf_state s ->
  exists s', applyEditSyntactic e s = (Ok tt, s') /\ wf_state s'.
Proof.
  intros He Hs. unfold applyEditSyntactic. unfold bind at 1.
  match goal with |- context [forEach tokenKinds ?b] => set (body := b) end.
  destruct (forEach_invariant wf_state tokenKinds body) with (s := s)
    as (s1 & -> & Hs1); [ | exact Hs | ].
  - subst body. intros i s0 (H1 & H2 & H3 & H4). cbv [bind get lift].
    destruct (fixRanges_well_formed _ (changes e)
                (aget_well_formed _ i H1) He) as (fixed & -> & Hf).
    unfold modify. eexists. split; [ reflexivity | ].
    destruct s0; cbn in *. repeat split; trivial.
    apply aset_well_formed; assumption.
  - unfold modify. eexists. split; [ reflexivity | ].
    destruct s1; exact Hs1.
Qed.

Lemma applyEditSemantic_returns (e : VersionedEdits) (s : State) :
  wf_edit e -> wf_state s ->
  exists s', applyEditSemantic e s = (Ok tt, s') /\ wf_state s'.
Proof.
  intros He Hs. unfold applyEditSemantic. unfold bind at 1.
  match goal with |- context [forEach tokenKinds ?b] => set (body := b) end.
  destruct (forEach_invariant wf_state tokenKinds body) with (s := s)
    as (s1 & -> & Hs1); [ | exact Hs | ].
  - subst body. intros i s0 (H1 & H2 & H3 & H4). cbv [bind get lift].
    destruct (fixRanges_well_formed _ (changes e)
                (aget_well_formed _ i H2) He) as (fixed & -> & Hf).
    unfold modify. eexists. split; [ reflexivity | ].
    destruct s0; cbn in *. repeat split; trivial.
    apply aset_well_formed; assumption.
  - destruct Hs1 as (H1 & H2 & H3 & H4). cbv [bind get lift].
    destruct (fixRanges_well_formed _ (changes e) H3 He)
      as (fixed & -> & Hf).
    unfold modify. eexists. split; [ reflexivity | ].
    destruct s1; cbn in *. repeat split; trivial.
Qed.

Lemma applyEdit_returns (e : VersionedEdits) (s : State) :
  wf_edit e -> wf_state s ->
  exists s', applyEdit e s = (Ok tt, s') /\ wf_state s'.
Proof.
  intros He Hs. unfold applyEdit. unfold bind at 1, get at 1.
  unfold bind at 1.
  assert (H1 : exists s1,
             when (currentSyntacticVersion s <? editVersion e)
               (applyEditSyntactic e) s = (Ok tt, s1) /\ wf_state s1).
  { destruct (currentSyntacticVersion s <? editVersion e); cbn [when].
    - apply applyEditSyntactic_returns; assumption.
    - exists s. split; [ reflexivity | exact Hs ]. }
  destruct H1 as (s1 & -> & Hs1). unfold bind, get.
  destruct (currentSemanticVersion s1 <? editVersion e); cbn [when].
  - apply applyEditSemantic_returns; assumption.
  - exists s1. split; [ reflexivity | exact Hs1 ].
Qed.

(** X23: on a well-formed state no constructor of the editor throws:
    [applyEdits] returns, and the state it leaves is well-formed. *)
Lemma applyEdits_returns (s : State) :
  wf_state s -> exists s', applyEdits s = (Ok tt, s') /\ wf_state s'.
Proof.
  intros Hs. unfold applyEdits. cbv [bind get].
  assert (Hlog : Forall wf_edit (versionedEdits s)) by apply Hs.
  revert Hlog. generalize (versionedEdits s) as log.
  intros log Hlog. revert s Hs.
  induction Hlog as [ | e log He _ IH]; intros s Hs; cbn [forEach].
  - exists s. split; [ reflexivity | exact Hs ].
  - unfold bind. destruct (applyEdit_returns e s He Hs) as (s1 & -> & Hs1).
    apply IH. exact Hs1.
Qed.

Lemma applyEdits_returns_witness :
  exists s', applyEdits sampleState = (Ok tt, s') /\ wf_state s'.
Proof.
  apply applyEdits_returns.
  assert (E1 : syntacticRanges sampleState
               = aset (newArray TokenKind.Count) 1 (Some [sampleRange]))
    by (vm_compute; reflexivity).
  assert (E2 : semanticRanges sampleState = newArray TokenKind.Count)
    by (vm_compute; reflexivity).
  assert (E3 : inactiveRanges sampleState = Some [])
    by (vm_compute; reflexivity).
  assert (E4 : versionedEdits sampleState
               = [ {| editVersion := 1; changes := [sampleChange] |} ])
    by (vm_compute; reflexivity).
  unfold wf_state. rewrite E1, E2, E3, E4.
  repeat split; repeat constructor;
    cbv [sampleRange sampleChange range start end_ line character]; lia.
Defined.

(* ===================================================================== *)
(** * Further properties of the range transform *)

(** ** The extent of a typed text *)

Lemma split_newline_app (a b : string) :
  split_newline (a ++ b)
  = removelast (split_newline a)
    ++ (last (split_newline a) EmptyString
        ++ hd EmptyString (split_newline b))%string
       :: tl (split_newline b).
Proof.
  induction a as [ | c a IH]; cbn [String.append split_newline].
  - cbn. destruct (split_newline b) eqn:E; [ | reflexivity ].
    exfalso. exact (split_newline_not_empty b E).
  - destruct (Ascii.eqb c newline).
    + rewrite IH.
      pose proof (split_newline_not_empty a) as Ha.
      destruct (split_newline a) as [ | h t]; [ contradiction | ].
      reflexivity.
    + rewrite IH.
      pose proof (split_newline_not_empty a) as Ha.
      destruct (split_newline a) as [ | h t]; [ contradiction | ].
      destruct t as [ | h' t']; reflexivity.
Qed.

Lemma length_append (a b : string) :
  String.length (a ++ b) = (String.length a + String.length b)%nat.
Proof.
  induction a as [ | c a IH]; cbn; [ reflexivity | now rewrite IH ].
Qed.

Lemma textToRange_value (t : string) (p : Position) :
  wf_pos p ->
  textToRange t p
  = Ok {| start := p;
          end_ :=
            {| line := line p
                       + (Z.of_nat (List.length (split_newline t)) - 1);
               character :=
                 if (List.length (split_newline t) =? 1)%nat
                 then strlen (last (split_newline t) EmptyString)
                      + character p
                 else strlen (last (split_newline t) EmptyString) |} |}.
Proof.
  intros Hp. unfold textToRange.
  pose proof (split_newline_not_empty t) as Hparts.
  destruct (split_newline t) as [ | h tl]; [ contradiction | ].
  set (lastLength := strlen (last (h :: tl) EmptyString)).
  assert (0 <= lastLength) by (unfold lastLength, strlen; lia).
  clearbody lastLength.
  destruct p as [l c]. unfold wf_pos in Hp; cbn [line character] in *.
  cbn [List.length]. cbv beta zeta.
  destruct tl as [ | h' tl]; cbn [List.length Nat.eqb].
  - replace (l + (Z.of_nat 1 - 1)) with l by lia.
    rewrite Z.eqb_refl. unfold newRange4.
    rewrite !newPosition_ok by lia. cbv [rbind].
    rewrite newRange_ordered by (cbv [pos_le line character]; lia).
    reflexivity.
  - destruct (Z.eqb_spec l (l + (Z.of_nat (S (S (List.length tl))) - 1)));
      [ lia | ].
    unfold newRange4. rewrite !newPosition_ok by lia. cbv [rbind].
    rewrite newRange_ordered by (cbv [pos_le line character]; lia).
    reflexivity.
Qed.

Lemma length_removelast {A} (l : list A) :
  l <> [] -> List.length (removelast l) = (List.length l - 1)%nat.
Proof.
  intros H. destruct (exists_last H) as (l' & x & ->).
  rewrite removelast_last, length_app. cbn [List.length]. lia.
Qed.

Lemma last_of_app {A} (l l' : list A) (d : A) :
  l' <> [] -> last (l ++ l') d = last l' d.
Proof.
  intros H. induction l as [ | x l IH]; [ reflexivity | ].
  cbn [app last]. destruct (l ++ l') eqn:E; [ | exact IH ].
  apply app_eq_nil in E. destruct E as [_ E]. contradiction.
Qed.

(** X1: typing a text [a] at [p] and then a text [b] where [a] ended
    covers the same extent as typing [a ++ b] at [p]. *)
Theorem textToRange_app (a b : string) (p : Position) :
  wf_pos p ->
  exists r1 r2,
    textToRange a p = Ok r1
    /\ textToRange b (end_ r1) = Ok r2
    /\ textToRange (a ++ b) p = Ok {| start := p; end_ := end_ r2 |}.
Proof.
  intros Hp.
  destruct (textToRange_ok a p Hp) as (e1 & Ha & He1 & _).
  rewrite (textToRange_value a p Hp) in Ha. injection Ha as Ha.
  rewrite (textToRange_value (a ++ b) p Hp).
  rewrite (textToRange_value a p Hp).
  eexists. eexists. split; [ reflexivity | ]. cbn [end_].
  rewrite Ha. rewrite (textToRange_value b e1 He1). split; [ reflexivity | ].
  cbn [end_]. subst e1. clear He1. cbn [line character].
  rewrite split_newline_app.
  pose proof (split_newline_not_empty a) as Hna.
  pose proof (split_newline_not_empty b) as Hnb.
  destruct (split_newline b) as [ | hb tb]; [ contradiction | ].
  cbn [hd tl].
  pose proof (length_removelast (split_newline a) Hna) as Hla.
  assert (Hlen : (1 <= List.length (split_newline a))%nat)
    by (destruct (split_newline a); [ contradiction | cbn; lia ]).
  rewrite length_app, Hla. cbn [List.length].
  do 3 f_equal.
  - lia.
  - destruct tb as [ | hb' tb'].
    + cbn [List.length Nat.eqb]. rewrite last_last.
      unfold strlen. rewrite length_append.
      destruct (List.length (split_newline a)) as [ | [ | n]] eqn:En;
        [ lia | | ].
      * cbn [Nat.sub Nat.add Nat.eqb last]. lia.
      * replace (S (S n) - 1 + 1)%nat with (S (S n)) by lia.
        cbn [Nat.eqb last]. lia.
    + replace (List.length (split_newline a) - 1
               + S (List.length (hb' :: tb')))%nat
        with (S (S (List.length (split_newline a) - 1 + List.length tb')))
        by (cbn [List.length]; lia).
      cbn [Nat.eqb List.length].
      rewrite (last_of_app (removelast (split_newline a))) by discriminate.
      reflexivity.
Qed.

Lemma textToRange_app_witness :
  exists r1 r2,
    textToRange "ab" {| line := 2; character := 3 |} = Ok r1
    /\ textToRange (String newline "c") (end_ r1) = Ok r2
    /\ textToRange ("ab" ++ String newline "c") {| line := 2; character := 3 |}
       = Ok {| start := {| line := 2; character := 3 |}; end_ := end_ r2 |}.
Proof.
  apply (textToRange_app "ab" (String newline "c")).
  cbv [wf_pos line character]. lia.
Defined.

(** ** Changes that do not touch a range *)

Lemma fixRange_after_range (r : Range) (removeStart removeEnd insertEnd
  : Position) :
  pos_le (end_ r) removeStart ->
  fixRange r removeStart removeEnd insertEnd = Ok (Some r).
Proof.
  intros H. unfold fixRange.
  destruct (isAfterOrEqual_cases removeStart (end_ r)) as [[-> _] | [_ H']];
    [ reflexivity | ].
  exfalso. destruct removeStart, r as [rs re], re.
  cbv [pos_le pos_lt end_ line character] in *. lia.
Qed.

Lemma fixRangesOnce_after_ranges (l : list Range)
  (removeStart removeEnd insertEnd : Position) :
  Forall (fun r => pos_le (end_ r) removeStart) l ->
  fixRangesOnce l removeStart removeEnd insertEnd = Ok l.
Proof.
  induction 1 as [ | r l Hr _ IH]; cbn [fixRangesOnce]; [ reflexivity | ].
  rewrite (fixRange_after_range _ _ _ _ Hr), IH. reflexivity.
Qed.

(** X2: changes that all start at or after the end of every stored range
    leave the ranges exactly as they are. *)
Theorem fixRanges_changes_after_ranges (l : list Range)
  (changes : list TextDocumentContentChangeEvent) :
  Forall (fun change =>
            wf_pos (start (range change))
            /\ Forall (fun r => pos_le (end_ r) (start (range change))) l)
    changes ->
  fixRanges (Some l) changes = Ok (Some l).
Proof.
  intros H. destruct l as [ | r l]; [ reflexivity | ].
  cbn [fixRanges].
  assert (E : fixRangesChanges (r :: l) changes = Ok (r :: l)).
  { induction H as [ | change changes [Hs Hl] _ IH];
      cbn [fixRangesChanges]; [ reflexivity | ].
    unfold fixRangesChange.
    destruct (textToRange_ok (text change) _ Hs) as (e & -> & _).
    cbn [rbind end_]. rewrite (fixRangesOnce_after_ranges _ _ _ _ Hl).
    cbn [rbind]. exact IH. }
  rewrite E. reflexivity.
Qed.

Lemma fixRanges_changes_after_ranges_witness :
  fixRanges (Some [sampleRange])
    [ {| range := {| start := {| line := 2; character := 10 |};
                     end_ := {| line := 4; character := 0 |} |};
         text := "xyz" |} ]
  = Ok (Some [sampleRange]).
Proof.
  apply fixRanges_changes_after_ranges.
  repeat constructor;
    cbv [sampleRange wf_pos pos_le start end_ range line character]; lia.
Defined.

(** ** Changes wholly before a range *)

(** X3: a replacement whose removed region ends on a line above the start
    of the range moves the range by whole lines: both line numbers change
    by the difference between the line where the inserted text ends and
    the line where the removed region ended, and no column changes. *)
Theorem fixRange_change_on_lines_above
  (r : Range) (removeStart removeEnd insertEnd : Position) :
  wf_range r -> wf_pos removeStart -> wf_pos removeEnd -> wf_pos insertEnd ->
  pos_le removeStart removeEnd -> pos_le removeStart insertEnd ->
  line removeEnd < line (start r) ->
  fixRange r removeStart removeEnd insertEnd
  = Ok (Some
          {| start :=
               {| line := line (start r)
                          + (line insertEnd - line removeEnd);
                  character := character (start r) |};
             end_ :=
               {| line := line (end_ r) + (line insertEnd - line removeEnd);
                  character := character (end_ r) |} |}).
Proof.
  geometry; same_range.
Qed.

Lemma fixRange_change_on_lines_above_witness :
  fixRange sampleRange {| line := 0; character := 4 |}
    {| line := 1; character := 2 |} {| line := 3; character := 1 |}
  = Ok (Some {| start := {| line := 4; character := 5 |};
                end_ := {| line := 4; character := 10 |} |}).
Proof.
  apply (fixRange_change_on_lines_above sampleRange);
    cbv [sampleRange wf_range wf_pos pos_le start end_ line character]; lia.
Defined.

(** X4: a replacement within one line, before a non-empty range that
    starts on that line, moves the start of the range by the length of the
    inserted text minus the length of the removed text; the end moves by
    as much when it is on the same line and stays where it is
    otherwise. *)
Theorem fixRange_change_on_same_line
  (r : Range) (removeStart removeEnd insertEnd : Position) :
  wf_range r -> wf_pos removeStart -> wf_pos removeEnd -> wf_pos insertEnd ->
  line removeStart = line (start r) ->
  line removeEnd = line (start r) ->
  line insertEnd = line (start r) ->
  character removeStart <= character removeEnd ->
  character removeStart <= character insertEnd ->
  character removeEnd <= character (start r) ->
  pos_lt (start r) (end_ r) ->
  fixRange r removeStart removeEnd insertEnd
  = Ok (Some
          {| start :=
               {| line := line (start r);
                  character :=
                    character (start r)
                    + (character insertEnd - character removeEnd) |};
             end_ :=
               if line (end_ r) =? line (start r)
               then {| line := line (end_ r);
                       character :=
                         character (end_ r)
                         + (character insertEnd - character removeEnd) |}
               else end_ r |}).
Proof.
  geometry; same_range.
Qed.

Lemma fixRange_change_on_same_line_witness :
  fixRange sampleRange {| line := 2; character := 0 |}
    {| line := 2; character := 3 |} {| line := 2; character := 2 |}
  = Ok (Some {| start := {| line := 2; character := 4 |};
                end_ := {| line := 2; character := 9 |} |}).
Proof.
  apply (fixRange_change_on_same_line sampleRange);
    cbv [sampleRange wf_range wf_pos pos_le pos_lt start end_ line
         character]; lia.
Defined.

(** ** Lists of ranges through lists of changes *)

Lemma fixRangesOnce_length (l l' : list Range)
  (removeStart removeEnd insertEnd : Position) :
  fixRangesOnce l removeStart removeEnd insertEnd = Ok l' ->
  (List.length l' <= List.length l)%nat.
Proof.
  revert l'. induction l as [ | r l IH]; intros l'; cbn [fixRangesOnce].
  - intros E; injection E as <-. reflexivity.
  - destruct (fixRange r removeStart removeEnd insertEnd) as [o | ];
      [ | discriminate ].
    cbn [rbind].
    destruct (fixRangesOnce l removeStart removeEnd insertEnd) as [l1 | ];
      [ | discriminate ].
    cbn [rbind]. specialize (IH l1 eq_refl).
    intros E; injection E as <-. destruct o; cbn [List.length]; lia.
Qed.

Lemma fixRangesChanges_length
  (changes : list TextDocumentContentChangeEvent) :
  forall l l', fixRangesChanges l changes = Ok l' ->
               (List.length l' <= List.length l)%nat.
Proof.
  induction changes as [ | change changes IH]; intros l l';
    cbn [fixRangesChanges].
  - intros E; injection E as <-. reflexivity.
  - unfold fixRangesChange.
    destruct (textToRange (text change) (start (range change)))
      as [insertRange | ]; [ | discriminate ].
    cbn [rbind].
    destruct (fixRangesOnce l _ _ _) as [l1 | ] eqn:E1; [ | discriminate ].
    cbn [rbind]. intros E.
    apply fixRangesOnce_length in E1. apply IH in E. lia.
Qed.

(** X5: on well-formed ranges and changes, [fixRanges] returns; what it
    returns is well-formed again, an absent list stays absent, and a list
    never gains a range. *)
Theorem fixRanges_keeps_well_formed (ranges : option (list Range))
  (changes : list TextDocumentContentChangeEvent) :
  wf_ranges ranges ->
  Forall (fun change => wf_range (range change)) changes ->
  exists ranges',
    fixRanges ranges changes = Ok ranges'
    /\ wf_ranges ranges'
    /\ match ranges, ranges' with
       | Some l, Some l' => (List.length l' <= List.length l)%nat
       | None, None => True
       | _, _ => False
       end.
Proof.
  intros Hr Hc.
  destruct (fixRanges_well_formed ranges changes Hr Hc) as (o & E & Ho).
  exists o. repeat split; trivial.
  destruct ranges as [[ | r l] | ]; cbn [fixRanges] in E;
    try (injection E as <-; cbn; trivial; lia).
  destruct (fixRangesChanges (r :: l) changes) as [l' | ] eqn:E';
    [ | discriminate ].
  cbn [rbind] in E. injection E as <-.
  exact (fixRangesChanges_length _ _ _ E').
Qed.

Lemma fixRanges_keeps_well_formed_witness :
  exists ranges',
    fixRanges (Some [sampleRange]) [sampleChange] = Ok ranges'
    /\ wf_ranges ranges'
    /\ match Some [sampleRange], ranges' with
       | Some l, Some l' => (List.length l' <= List.length l)%nat
       | None, None => True
       | _, _ => False
       end.
Proof.
  apply (fixRanges_keeps_well_formed (Some [sampleRange]) [sampleChange]).
  - repeat constructor;
      cbv [sampleRange wf_pos pos_le start end_ line character]; lia.
  - repeat constructor;
      cbv [sampleChange wf_pos pos_le start end_ range line character]; lia.
Defined.

Lemma fixRangesChanges_app
  (changes changes' : list TextDocumentContentChangeEvent) :
  forall l,
    fixRangesChanges l (changes ++ changes')
    = let? l1 := fixRangesChanges l changes in fixRangesChanges l1 changes'.
Proof.
  induction changes as [ | change changes IH]; intros l;
    cbn [app fixRangesChanges]; [ reflexivity | ].
  destruct (fixRangesChange l change) as [l1 | ]; cbn [rbind];
    [ apply IH | reflexivity ].
Qed.

Lemma fixRangesChanges_nil
  (changes : list TextDocumentContentChangeEvent) :
  Forall (fun change => wf_pos (start (range change))) changes ->
  fixRangesChanges [] changes = Ok [].
Proof.
  induction 1 as [ | change changes Hs _ IH]; cbn [fixRangesChanges];
    [ reflexivity | ].
  unfold fixRangesChange.
  destruct (textToRange_ok (text change) _ Hs) as (e & -> & _).
  cbn [rbind fixRangesOnce]. exact IH.
Qed.

(** X6: sending ranges through the changes of one edit and the result
    through the changes of the next is the same as sending them through
    all the changes in one go. *)
Theorem fixRanges_app (ranges : option (list Range))
  (changes changes' : list TextDocumentContentChangeEvent) :
  Forall (fun change => wf_pos (start (range change))) changes' ->
  fixRanges ranges (changes ++ changes')
  = let? ranges1 := fixRanges ranges changes in fixRanges ranges1 changes'.
Proof.
  intros H. destruct ranges as [[ | r l] | ]; cbn [fixRanges rbind];
    try reflexivity.
  rewrite fixRangesChanges_app.
  destruct (fixRangesChanges (r :: l) changes) as [[ | r1 l1] | ];
    cbn [rbind fixRanges]; try reflexivity.
  rewrite (fixRangesChanges_nil _ H). reflexivity.
Qed.

Lemma fixRanges_app_witness :
  fixRanges (Some [sampleRange]) ([sampleChange] ++ [sampleChange])
  = let? ranges1 := fixRanges (Some [sampleRange]) [sampleChange] in
    fixRanges ranges1 [sampleChange].
Proof.
  apply fixRanges_app.
  repeat constructor;
    cbv [sampleChange wf_pos start range line character]; lia.
Defined.

(* ===================================================================== *)
(** * Further properties of the edit log *)

Lemma findIndex_found {A} (p : A -> bool) (l : list A) :
  findIndex p l <> -1 ->
  exists before x after,
    l = before ++ x :: after
    /\ Z.to_nat (findIndex p l) = List.length before
    /\ Forall (fun y => p y = false) before
    /\ p x = true.
Proof.
  induction l as [ | y l IH]; cbn [findIndex].
  - intros H; contradiction H; reflexivity.
  - destruct (p y) eqn:Py.
    + intros _. exists [], y, l. repeat split; auto.
    + destruct (Z.eqb_spec (findIndex p l) (-1)) as [E | E];
        [ intros H; contradiction H; reflexivity | ].
      intros _. destruct (IH E) as (before & x & after & -> & Hi & Hb & Hx).
      exists (y :: before), x, after. repeat split; trivial.
      * destruct (findIndex_bounds p (before ++ x :: after)); [ lia | ].
        cbn [List.length]. lia.
      * constructor; assumption.
Qed.

Lemma findIndex_none_all {A} (p : A -> bool) (l : list A) :
  findIndex p l = -1 -> Forall (fun y => p y = false) l.
Proof.
  induction l as [ | y l IH]; cbn [findIndex]; [ constructor | ].
  destruct (p y) eqn:Py; [ discriminate | ].
  destruct (Z.eqb_spec (findIndex p l) (-1)) as [E | E].
  - intros _. constructor; auto.
  - destruct (findIndex_bounds p l); [ contradiction | lia ].
Qed.

(** X7: on any log, sorted or not, [purgeOldVersionedEdits] returns and
    removes a prefix of the log only: every removed edit has a version at
    or below the smaller of the two last-received versions, the first edit
    left (if any) has a larger version, and the edits left keep their
    order. *)
Theorem purgeOldVersionedEdits_drops_prefix (s : State) :
  let minVersion :=
    Z.min (lastReceivedSyntacticVersion s) (lastReceivedSemanticVersion s) in
  exists dropped,
    fst (purgeOldVersionedEdits s) = Ok tt
    /\ versionedEdits s
       = dropped ++ versionedEdits (snd (purgeOldVersionedEdits s))
    /\ Forall (fun e => editVersion e <= minVersion) dropped
    /\ match versionedEdits (snd (purgeOldVersionedEdits s)) with
       | e :: _ => minVersion < editVersion e
       | [] => True
       end.
Proof.
  cbv zeta. unfold purgeOldVersionedEdits. cbv [bind get].
  rewrite (Z.min_comm (lastReceivedSemanticVersion s)).
  set (m := Z.min _ _).
  set (p := fun edit : VersionedEdits => m <? editVersion edit).
  assert (Hfalse : forall l, Forall (fun y => p y = false) l ->
                             Forall (fun e => editVersion e <= m) l).
  { intros l Hl. eapply Forall_impl; [ | exact Hl ].
    intros e He. unfold p in He. apply Z.ltb_ge in He. exact He. }
  destruct (Z.eqb_spec (findIndex p (versionedEdits s)) (-1)) as [E | E].
  - exists (versionedEdits s). unfold modify; cbn [fst snd].
    pose proof (Hfalse _ (findIndex_none_all p _ E)) as Hall.
    destruct s; cbn in *. rewrite app_nil_r. repeat split; trivial.
  - destruct (findIndex_found p _ E)
      as (before & x & after & Hlog & Hi & Hb & Hx).
    exists before.
    assert (Hskip : slice (versionedEdits s) (findIndex p (versionedEdits s))
                    = x :: after).
    { unfold slice. rewrite Hi, Hlog. clear.
      induction before; [ reflexivity | assumption ]. }
    unfold p in Hx. apply Z.ltb_lt in Hx.
    destruct (Z.ltb_spec 0 (findIndex p (versionedEdits s))) as [P | P].
    + unfold modify; cbn [fst snd]. rewrite Hskip.
      destruct s; cbn in *. repeat split; auto.
    + unfold ret; cbn [fst snd].
      assert (before = []).
      { destruct before; [ reflexivity | ].
        destruct (findIndex_bounds p (versionedEdits s)); [ lia | ].
        cbn [List.length] in Hi. lia. }
      subst before. rewrite Hlog. cbn [app]. repeat split; auto.
Qed.

(** ** The log stays sorted *)

Lemma increasing_versions_snoc (log : list VersionedEdits)
  (e : VersionedEdits) :
  increasing_versions log ->
  Forall (fun x => editVersion x < editVersion e) log ->
  increasing_versions (log ++ [e]).
Proof.
  unfold increasing_versions. intros Hs Hall.
  induction log as [ | x log IH]; cbn [app].
  - repeat constructor.
  - inversion Hs as [ | ? ? Hs' Hhd]; subst.
    inversion Hall as [ | ? ? Hx Hall']; subst.
    constructor; [ apply IH; assumption | ].
    destruct log as [ | y log]; cbn [app]; constructor.
    + exact Hx.
    + inversion Hhd; assumption.
Qed.

Lemma increasing_versions_suffix (dropped log : list VersionedEdits) :
  increasing_versions (dropped ++ log) -> increasing_versions log.
Proof.
  unfold increasing_versions.
  induction dropped as [ | x dropped IH]; cbn [app]; [ trivial | ].
  intros H. apply IH. inversion H; assumption.
Qed.

Lemma preserves_keeps_log_suffix {A} (m : M A) :
  preserves versionedEdits m -> keeps_log_suffix m.
Proof. intros H s. exists []. rewrite H. reflexivity. Qed.

Lemma keeps_log_suffix_bind {A B} (m : M A) (k : A -> M B) :
  keeps_log_suffix m -> (forall a, keeps_log_suffix (k a)) ->
  keeps_log_suffix (bind m k).
Proof.
  intros Hm Hk s. unfold bind. destruct (Hm s) as (d1 & E1).
  destruct (m s) as [[a | ] s1]; cbn [snd] in *.
  - destruct (Hk a s1) as (d2 & E2). exists (d1 ++ d2).
    rewrite <- app_assoc, <- E2. exact E1.
  - exists d1. exact E1.
Qed.

Lemma purge_keeps_log_suffix : keeps_log_suffix purgeOldVersionedEdits.
Proof.
  intro s. unfold purgeOldVersionedEdits. cbv [bind get].
  match goal with |- context [findIndex ?p ?l =? -1] =>
    generalize (findIndex p l) end.
  intros index. destruct (index =? -1).
  - exists (versionedEdits s). unfold modify; cbn [snd].
    replace (versionedEdits (set_versionedEdits [] s))
      with (@nil VersionedEdits) by (destruct s; reflexivity).
    now rewrite app_nil_r.
  - destruct (0 <? index).
    + exists (firstn (Z.to_nat index) (versionedEdits s)).
      unfold modify, slice; cbn [snd].
      replace (versionedEdits
                 (set_versionedEdits
                    (skipn (Z.to_nat index) (versionedEdits s)) s))
        with (skipn (Z.to_nat index) (versionedEdits s))
        by (destruct s; reflexivity).
      symmetry. apply firstn_skipn.
    + exists []. reflexivity.
Qed.

Lemma runTask_keeps_log_suffix (t : Task) : keeps_log_suffix (runTask t).
Proof.
  destruct t; cbn [runTask].
  - apply preserves_keeps_log_suffix. preserved.
  - apply preserves_keeps_log_suffix. preserved.
  - unfold updateColorizationRangesTask.
    apply keeps_log_suffix_bind;
      [ apply preserves_keeps_log_suffix; preserved | intros _ ].
    apply keeps_log_suffix_bind; [ exact purge_keeps_log_suffix | intros _ ].
    apply preserves_keeps_log_suffix. preserved.
Qed.

(** X8: when every [addEdits] comes with a version larger than all the
    versions already in the log, every operation on the state, and every
    queued task, leaves the log strictly increasing. *)
Theorem perform_keeps_log_increasing (op : Operation) (s : State) :
  increasing_versions (versionedEdits s) ->
  (forall changes v,
      op = OpAddEdits changes v ->
      Forall (fun e => editVersion e < v) (versionedEdits s)) ->
  increasing_versions (versionedEdits (snd (perform op s))).
Proof.
  intros Hs Hadd.
  destruct op as [ch v | | uri ranges v | uri ranges inactive v | e | uri | ];
    cbn [perform].
  - unfold addEdits, modify; cbn [snd].
    specialize (Hadd _ _ eq_refl).
    replace (versionedEdits
               (set_versionedEdits
                  (versionedEdits s
                   ++ [ {| editVersion := v; changes := ch |} ]) s))
      with (versionedEdits s ++ [ {| editVersion := v; changes := ch |} ])
      by (destruct s; reflexivity).
    apply increasing_versions_snoc; assumption.
  - assert (H : preserves versionedEdits applyEdits) by preserved.
    rewrite H. exact Hs.
  - destruct (updateSyntactic_state uri ranges v s)
      as (s1 & -> & _ & _ & H).
    cbn [snd]. destruct s1; cbn in *. rewrite H. exact Hs.
  - destruct (updateSemantic_state uri ranges inactive v s)
      as (s1 & -> & _ & _ & H).
    cbn [snd]. destruct s1; cbn in *. rewrite H. exact Hs.
  - assert (H : preserves versionedEdits (refresh e))
      by (unfold refresh; preserved).
    rewrite H. exact Hs.
  - assert (H : preserves versionedEdits (onSettingsChanged uri))
      by (unfold onSettingsChanged; preserved).
    rewrite H. exact Hs.
  - unfold runNextTask. destruct (pendingTasks s) as [ | t rest] eqn:E;
      cbn [snd]; [ exact Hs | ].
    destruct (runTask_keeps_log_suffix t (set_pendingTasks rest s))
      as (dropped & H).
    apply (increasing_versions_suffix dropped).
    rewrite <- H. destruct s; exact Hs.
Qed.

Lemma perform_keeps_log_increasing_witness :
  increasing_versions
    (versionedEdits (snd (perform (OpAddEdits [sampleChange] 5) skewedState))).
Proof.
  apply perform_keeps_log_increasing.
  - vm_compute; repeat constructor.
  - intros changes v E. injection E as _ <-.
    vm_compute; repeat constructor.
Defined.

(* ===================================================================== *)
(** * Further properties of the stored ranges *)

Lemma aget_aset {A} (a : jsarray A) (i j : nat) (v : option A) :
  aget (aset a i v) j = if Nat.eqb i j then v else aget a j.
Proof.
  unfold aget. revert a j.
  induction i as [ | i IH]; intros a j; destruct a as [ | x a];
    destruct j as [ | j]; cbn [aset nth Nat.eqb]; try reflexivity.
  - destruct j; reflexivity.
  - rewrite IH. destruct (Nat.eqb i j); [ reflexivity | ].
    destruct j; reflexivity.
  - apply IH.
Qed.

Lemma fold_aset_syntactic (ranges : jsarray (list Range)) (l : list nat) :
  forall s,
    let s' :=
      fold_left
        (fun acc i =>
           set_syntacticRanges
             (aset (syntacticRanges acc) i (aget ranges i)) acc) l s in
    (forall j,
        aget (syntacticRanges s') j
        = if existsb (Nat.eqb j) l then aget ranges j
          else aget (syntacticRanges s) j)
    /\ semanticRanges s' = semanticRanges s
    /\ inactiveRanges s' = inactiveRanges s.
Proof.
  induction l as [ | i l IH]; intros s; cbn [fold_left existsb].
  - repeat split.
  - cbv zeta in IH.
    destruct (IH (set_syntacticRanges
                    (aset (syntacticRanges s) i (aget ranges i)) s))
      as (H1 & H2 & H3).
    cbv zeta. rewrite H2, H3. split; [ | destruct s; split; reflexivity ].
    intros j. rewrite H1.
    destruct (existsb (Nat.eqb j) l); [ now rewrite orb_true_r | ].
    rewrite orb_false_r.
    replace (syntacticRanges
               (set_syntacticRanges
                  (aset (syntacticRanges s) i (aget ranges i)) s))
      with (aset (syntacticRanges s) i (aget ranges i))
      by (destruct s; reflexivity).
    rewrite aget_aset, (Nat.eqb_sym j i).
    destruct (Nat.eqb_spec i j); [ subst; reflexivity | reflexivity ].
Qed.

Lemma fold_aset_semantic (ranges : jsarray (list Range)) (l : list nat) :
  forall s,
    let s' :=
      fold_left
        (fun acc i =>
           set_semanticRanges
             (aset (semanticRanges acc) i (aget ranges i)) acc) l s in
    (forall j,
        aget (semanticRanges s') j
        = if existsb (Nat.eqb j) l then aget ranges j
          else aget (semanticRanges s) j)
    /\ syntacticRanges s' = syntacticRanges s
    /\ inactiveRanges s' = inactiveRanges s.
Proof.
  induction l as [ | i l IH]; intros s; cbn [fold_left existsb].
  - repeat split.
  - cbv zeta in IH.
    destruct (IH (set_semanticRanges
                    (aset (semanticRanges s) i (aget ranges i)) s))
      as (H1 & H2 & H3).
    cbv zeta. rewrite H2, H3. split; [ | destruct s; split; reflexivity ].
    intros j. rewrite H1.
    destruct (existsb (Nat.eqb j) l); [ now rewrite orb_true_r | ].
    rewrite orb_false_r.
    replace (semanticRanges
               (set_semanticRanges
                  (aset (semanticRanges s) i (aget ranges i)) s))
      with (aset (semanticRanges s) i (aget ranges i))
      by (destruct s; reflexivity).
    rewrite aget_aset, (Nat.eqb_sym j i).
    destruct (Nat.eqb_spec i j); [ subst; reflexivity | reflexivity ].
Qed.

Lemma existsb_tokenKinds (j : nat) :
  existsb (Nat.eqb j) tokenKinds = (j <? TokenKind.Count)%nat.
Proof.
  destruct (Nat.ltb_spec j TokenKind.Count) as [H | H].
  - apply existsb_exists. exists j. split; [ | apply Nat.eqb_refl ].
    apply in_seq. lia.
  - destruct (existsb (Nat.eqb j) tokenKinds) eqn:E; [ | reflexivity ].
    apply existsb_exists in E. destruct E as (x & Hx & Ex).
    apply Nat.eqb_eq in Ex. subst x. apply in_seq in Hx. lia.
Qed.

Lemma updateSyntactic_value (uri : string) (ranges : jsarray (list Range))
  (v : Z) (s : State) :
  updateSyntactic uri ranges v s
  = let s1 :=
      fold_left
        (fun acc i =>
           set_syntacticRanges
             (aset (syntacticRanges acc) i (aget ranges i)) acc)
        tokenKinds s in
    (Ok tt,
     set_pendingTasks (pendingTasks s1 ++ [UpdateColorizationRangesTask uri])
       (set_lastReceivedSyntacticVersion v
          (set_currentSyntacticVersion v s1))).
Proof.
  unfold updateSyntactic. unfold bind at 1. rewrite forEach_modify.
  cbv zeta.
  match goal with |- context [fold_left ?f ?l ?a] =>
    generalize (fold_left f l a) end.
  intros s1.
  cbv [bind modify updateColorizationRanges syncWithLoadingSettings].
  destruct s1; reflexivity.
Qed.

Lemma updateSemantic_value (uri : string) (ranges : jsarray (list Range))
  (inactive : option (list Range)) (v : Z) (s : State) :
  updateSemantic uri ranges inactive v s
  = let s1 :=
      fold_left
        (fun acc i =>
           set_semanticRanges
             (aset (semanticRanges acc) i (aget ranges i)) acc)
        tokenKinds (set_inactiveRanges inactive s) in
    (Ok tt,
     set_pendingTasks (pendingTasks s1 ++ [UpdateColorizationRangesTask uri])
       (set_lastReceivedSemanticVersion v
          (set_currentSemanticVersion v s1))).
Proof.
  unfold updateSemantic. unfold bind at 1. unfold modify at 1.
  unfold bind at 1. rewrite forEach_modify.
  cbv zeta.
  match goal with |- context [fold_left ?f ?l ?a] =>
    generalize (fold_left f l a) end.
  intros s1.
  cbv [bind modify updateColorizationRanges syncWithLoadingSettings].
  destruct s1; reflexivity.
Qed.

(** X9: [updateSyntactic] replaces the syntactic ranges of each of the
    [TokenKind.Count] token kinds by the slot of the same index of the
    array received (absent when the array is shorter), ignores what the
    array holds beyond, and keeps the semantic ranges and the inactive
    regions. *)
Theorem updateSyntactic_stores_ranges (uri : string)
  (ranges : jsarray (list Range)) (v : Z) (s : State) :
  let s' := snd (updateSyntactic uri ranges v s) in
  (forall j,
      aget (syntacticRanges s') j
      = if (j <? TokenKind.Count)%nat then aget ranges j
        else aget (syntacticRanges s) j)
  /\ semanticRanges s' = semanticRanges s
  /\ inactiveRanges s' = inactiveRanges s.
Proof.
  cbv zeta. rewrite updateSyntactic_value. cbv zeta. cbn [snd].
  destruct (fold_aset_syntactic ranges tokenKinds s) as (H1 & H2 & H3).
  cbv zeta in H1, H2, H3. revert H1 H2 H3.
  match goal with |- context [fold_left ?f ?l ?a] =>
    generalize (fold_left f l a) end.
  intros s1 H1 H2 H3.
  rewrite <- H2, <- H3. split; [ | destruct s1; split; reflexivity ].
  intros j. rewrite <- existsb_tokenKinds, <- H1. destruct s1; reflexivity.
Qed.

(** X10: [updateSemantic] does the same for the semantic ranges, replaces
    the inactive regions by the ones received, and keeps the syntactic
    ranges. *)
Theorem updateSemantic_stores_ranges (uri : string)
  (ranges : jsarray (list Range)) (inactive : option (list Range)) (v : Z)
  (s : State) :
  let s' := snd (updateSemantic uri ranges inactive v s) in
  (forall j,
      aget (semanticRanges s') j
      = if (j <? TokenKind.Count)%nat then aget ranges j
        else aget (semanticRanges s) j)
  /\ inactiveRanges s' = inactive
  /\ syntacticRanges s' = syntacticRanges s.
Proof.
  cbv zeta. rewrite updateSemantic_value. cbv zeta. cbn [snd].
  destruct (fold_aset_semantic ranges tokenKinds
              (set_inactiveRanges inactive s)) as (H1 & H2 & H3).
  cbv zeta in H1, H2, H3. revert H1 H2 H3.
  match goal with |- context [fold_left ?f ?l ?a] =>
    generalize (fold_left f l a) end.
  intros s1 H1 H2 H3.
  assert (E1 : semanticRanges (set_inactiveRanges inactive s)
               = semanticRanges s) by (destruct s; reflexivity).
  assert (E2 : syntacticRanges (set_inactiveRanges inactive s)
               = syntacticRanges s) by (destruct s; reflexivity).
  assert (E3 : inactiveRanges (set_inactiveRanges inactive s) = inactive)
    by (destruct s; reflexivity).
  rewrite E1 in H1. rewrite E2 in H2. rewrite E3 in H3.
  rewrite <- H2, <- H3. split; [ | destruct s1; split; reflexivity ].
  intros j. rewrite <- existsb_tokenKinds, <- H1. destruct s1; reflexivity.
Qed.

(** ** What [applyEdits] does to the stored ranges *)

Lemma bind_returns {A B} (m : M A) (k : A -> M B) (s s' : State) (b : B) :
  bind m k s = (Ok b, s') ->
  exists a s1, m s = (Ok a, s1) /\ k a s1 = (Ok b, s').
Proof.
  unfold bind. destruct (m s) as [[a | ] s1]; [ | discriminate ].
  intros H. exists a, s1. split; [ reflexivity | exact H ].
Qed.

Lemma forEach_fix_syntactic (e : VersionedEdits) (l : list nat) :
  NoDup l ->
  forall s s',
    forEach l (fun i =>
      s <- get ;;
      fixed <- lift (fixRanges (aget (syntacticRanges s) i) (changes e)) ;;
      modify (fun s =>
                set_syntacticRanges (aset (syntacticRanges s) i fixed) s)) s
    = (Ok tt, s') ->
    (forall j, In j l ->
               fixRanges (aget (syntacticRanges s) j) (changes e)
               = Ok (aget (syntacticRanges s') j))
    /\ (forall j, ~ In j l ->
                  aget (syntacticRanges s') j = aget (syntacticRanges s) j)
    /\ semanticRanges s' = semanticRanges s
    /\ inactiveRanges s' = inactiveRanges s.
Proof.
  induction 1 as [ | i l Hi _ IH]; intros s s'; cbn [forEach].
  - unfold ret. intros E; injection E as <-.
    repeat split; trivial. intros j [].
  - intros E. apply bind_returns in E. destruct E as ([] & s1 & E1 & E2).
    cbv [bind get lift] in E1.
    destruct (fixRanges (aget (syntacticRanges s) i) (changes e))
      as [fixed | ] eqn:F; [ | discriminate ].
    unfold modify in E1. injection E1 as <-.
    destruct (IH _ _ E2) as (H1 & H2 & H3 & H4).
    assert (Hsyn : syntacticRanges
                     (set_syntacticRanges
                        (aset (syntacticRanges s) i fixed) s)
                   = aset (syntacticRanges s) i fixed)
      by (destruct s; reflexivity).
    rewrite Hsyn in H1, H2.
    repeat split.
    + intros j [<- | Hj].
      * rewrite F, H2 by exact Hi.
        rewrite aget_aset, Nat.eqb_refl. reflexivity.
      * rewrite <- (H1 j Hj). rewrite aget_aset.
        destruct (Nat.eqb_spec i j); [ subst; contradiction | reflexivity ].
    + intros j Hj. rewrite H2 by (intro; apply Hj; right; assumption).
      rewrite aget_aset.
      destruct (Nat.eqb_spec i j);
        [ subst; exfalso; apply Hj; left; reflexivity | reflexivity ].
    + rewrite H3. destruct s; reflexivity.
    + rewrite H4. destruct s; reflexivity.
Qed.

Lemma forEach_fix_semantic (e : VersionedEdits) (l : list nat) :
  NoDup l ->
  forall s s',
    forEach l (fun i =>
      s <- get ;;
      fixed <- lift (fixRanges (aget (semanticRanges s) i) (changes e)) ;;
      modify (fun s =>
                set_semanticRanges (aset (semanticRanges s) i fixed) s)) s
    = (Ok tt, s') ->
    (forall j, In j l ->
               fixRanges (aget (semanticRanges s) j) (changes e)
               = Ok (aget (semanticRanges s') j))
    /\ (forall j, ~ In j l ->
                  aget (semanticRanges s') j = aget (semanticRanges s) j)
    /\ syntacticRanges s' = syntacticRanges s
    /\ inactiveRanges s' = inactiveRanges s.
Proof.
  induction 1 as [ | i l Hi _ IH]; intros s s'; cbn [forEach].
  - unfold ret. intros E; injection E as <-.
    repeat split; trivial. intros j [].
  - intros E. apply bind_returns in E. destruct E as ([] & s1 & E1 & E2).
    cbv [bind get lift] in E1.
    destruct (fixRanges (aget (semanticRanges s) i) (changes e))
      as [fixed | ] eqn:F; [ | discriminate ].
    unfold modify in E1. injection E1 as <-.
    destruct (IH _ _ E2) as (H1 & H2 & H3 & H4).
    assert (Hsem : semanticRanges
                     (set_semanticRanges
                        (aset (semanticRanges s) i fixed) s)
                   = aset (semanticRanges s) i fixed)
      by (destruct s; reflexivity).
    rewrite Hsem in H1, H2.
    repeat split.
    + intros j [<- | Hj].
      * rewrite F, H2 by exact Hi.
        rewrite aget_aset, Nat.eqb_refl. reflexivity.
      * rewrite <- (H1 j Hj). rewrite aget_aset.
        destruct (Nat.eqb_spec i j); [ subst; contradiction | reflexivity ].
    + intros j Hj. rewrite H2 by (intro; apply Hj; right; assumption).
      rewrite aget_aset.
      destruct (Nat.eqb_spec i j);
        [ subst; exfalso; apply Hj; left; reflexivity | reflexivity ].
    + rewrite H3. destruct s; reflexivity.
    + rewrite H4. destruct s; reflexivity.
Qed.

Lemma tokenKinds_NoDup : NoDup tokenKinds.
Proof. apply seq_NoDup. Qed.

Lemma in_tokenKinds (j : nat) :
  In j tokenKinds <-> (j < TokenKind.Count)%nat.
Proof. unfold tokenKinds. rewrite in_seq. lia. Qed.

Lemma applyEditSyntactic_effect (e : VersionedEdits) (s s' : State) :
  applyEditSyntactic e s = (Ok tt, s') ->
  (forall j, (j < TokenKind.Count)%nat ->
             fixRanges (aget (syntacticRanges s) j) (changes e)
             = Ok (aget (syntacticRanges s') j))
  /\ semanticRanges s' = semanticRanges s
  /\ inactiveRanges s' = inactiveRanges s.
Proof.
  unfold applyEditSyntactic. intros E.
  apply bind_returns in E. destruct E as ([] & s1 & E1 & E2).
  destruct (forEach_fix_syntactic e tokenKinds tokenKinds_NoDup _ _ E1)
    as (H1 & _ & H3 & H4).
  unfold modify in E2. injection E2 as <-.
  repeat split.
  - intros j Hj. rewrite (H1 j) by (apply in_tokenKinds; exact Hj).
    destruct s1; reflexivity.
  - rewrite <- H3. destruct s1; reflexivity.
  - rewrite <- H4. destruct s1; reflexivity.
Qed.

Lemma applyEditSemantic_effect (e : VersionedEdits) (s s' : State) :
  applyEditSemantic e s = (Ok tt, s') ->
  (forall j, (j < TokenKind.Count)%nat ->
             fixRanges (aget (semanticRanges s) j) (changes e)
             = Ok (aget (semanticRanges s') j))
  /\ fixRanges (inactiveRanges s) (changes e) = Ok (inactiveRanges s')
  /\ syntacticRanges s' = syntacticRanges s.
Proof.
  unfold applyEditSemantic. intros E.
  apply bind_returns in E. destruct E as ([] & s1 & E1 & E2).
  destruct (forEach_fix_semantic e tokenKinds tokenKinds_NoDup _ _ E1)
    as (H1 & _ & H3 & H4).
  cbv [bind get lift modify] in E2.
  destruct (fixRanges (inactiveRanges s1) (changes e)) as [fixed | ] eqn:F;
    [ | discriminate ].
  injection E2 as <-.
  repeat split.
  - intros j Hj. rewrite (H1 j) by (apply in_tokenKinds; exact Hj).
    destruct s1; reflexivity.
  - rewrite <- H4, F. destruct s1; reflexivity.
  - rewrite <- H3. destruct s1; reflexivity.
Qed.

(** X11: one round of the loop of [applyEdits] that returns has sent the
    ranges of a pass through the changes of the edit exactly when the
    version of the edit is above the applied version of that pass, slot by
    slot (and the inactive regions with the semantic pass); the ranges of
    a pass that is already at that version are left as they are. *)
Theorem applyEdit_transforms_stale_passes (e : VersionedEdits)
  (s s' : State) :
  applyEdit e s = (Ok tt, s') ->
  (if currentSyntacticVersion s <? editVersion e
   then forall j, (j < TokenKind.Count)%nat ->
                  fixRanges (aget (syntacticRanges s) j) (changes e)
                  = Ok (aget (syntacticRanges s') j)
   else syntacticRanges s' = syntacticRanges s)
  /\ (if currentSemanticVersion s <? editVersion e
      then (forall j, (j < TokenKind.Count)%nat ->
                      fixRanges (aget (semanticRanges s) j) (changes e)
                      = Ok (aget (semanticRanges s') j))
           /\ fixRanges (inactiveRanges s) (changes e)
              = Ok (inactiveRanges s')
      else semanticRanges s' = semanticRanges s
           /\ inactiveRanges s' = inactiveRanges s).
Proof.
  unfold applyEdit. intros E.
  apply bind_returns in E. destruct E as (s0 & s0' & E0 & E).
  unfold get in E0. injection E0 as <- <-.
  apply bind_returns in E. destruct E as ([] & s1 & E1 & E).
  apply bind_returns in E. destruct E as (s1' & s1'' & E1' & E2).
  unfold get in E1'. injection E1' as <- <-.
  assert (Hsem_version : currentSemanticVersion s1 = currentSemanticVersion s).
  { destruct (currentSyntacticVersion s <? editVersion e); cbn [when] in E1.
    - exact (proj1 (applyEditSyntactic_versions _ _ _ _ E1)).
    - unfold ret in E1. injection E1 as <-. reflexivity. }
  rewrite Hsem_version in E2.
  assert (H1 : (if currentSyntacticVersion s <? editVersion e
                then forall j, (j < TokenKind.Count)%nat ->
                       fixRanges (aget (syntacticRanges s) j) (changes e)
                       = Ok (aget (syntacticRanges s1) j)
                else syntacticRanges s1 = syntacticRanges s)
               /\ semanticRanges s1 = semanticRanges s
               /\ inactiveRanges s1 = inactiveRanges s).
  { destruct (currentSyntacticVersion s <? editVersion e); cbn [when] in E1.
    - exact (applyEditSyntactic_effect _ _ _ E1).
    - unfold ret in E1. injection E1 as <-. repeat split. }
  destruct H1 as (Hsyn & Hsem & Hinactive).
  destruct (currentSemanticVersion s <? editVersion e); cbn [when] in E2.
  - destruct (applyEditSemantic_effect _ _ _ E2) as (B1 & B2 & B3).
    rewrite Hsem, Hinactive in *. split; [ | split; assumption ].
    destruct (currentSyntacticVersion s <? editVersion e).
    + intros j Hj. rewrite B3. apply Hsyn. exact Hj.
    + rewrite B3. exact Hsyn.
  - unfold ret in E2. injection E2 as <-.
    split; [ exact Hsyn | split; assumption ].
Qed.

Lemma applyEdit_transforms_stale_passes_witness :
  let e := {| editVersion := 1; changes := [sampleChange] |} in
  let s' := snd (applyEdit e sampleState) in
  (if currentSyntacticVersion sampleState <? editVersion e
   then forall j, (j < TokenKind.Count)%nat ->
                  fixRanges (aget (syntacticRanges sampleState) j) (changes e)
                  = Ok (aget (syntacticRanges s') j)
   else syntacticRanges s' = syntacticRanges sampleState)
  /\ (if currentSemanticVersion sampleState <? editVersion e
      then (forall j, (j < TokenKind.Count)%nat ->
                      fixRanges (aget (semanticRanges sampleState) j)
                        (changes e)
                      = Ok (aget (semanticRanges s') j))
           /\ fixRanges (inactiveRanges sampleState) (changes e)
              = Ok (inactiveRanges s')
      else semanticRanges s' = semanticRanges sampleState
           /\ inactiveRanges s' = inactiveRanges sampleState).
Proof.
  cbv zeta.
  apply (applyEdit_transforms_stale_passes
           {| editVersion := 1; changes := [sampleChange] |} sampleState).
  vm_compute. reflexivity.
Defined.

(** ** C5: the edits a pass consumes, in the order of the log *)

Lemma consumedInLogOrder_above (log : list VersionedEdits) :
  forall c, Forall (fun e => c < editVersion e) (consumedInLogOrder c log).
Proof.
  induction log as [ | e log IH]; intros c; cbn [consumedInLogOrder].
  - constructor.
  - destruct (Z.ltb_spec c (editVersion e)) as [Hlt | Hge].
    + constructor; [ exact Hlt | ].
      eapply Forall_impl; [ | exact (IH (editVersion e)) ].
      cbv beta. intros; lia.
    + apply IH.
Qed.

Lemma consumedInLogOrder_increasing (log : list VersionedEdits) :
  forall c, increasing_versions (consumedInLogOrder c log).
Proof.
  unfold increasing_versions.
  induction log as [ | e log IH]; intros c; cbn [consumedInLogOrder].
  - constructor.
  - destruct (c <? editVersion e); [ | apply IH ].
    constructor; [ apply IH | ].
    pose proof (consumedInLogOrder_above log (editVersion e)) as Habove.
    destruct (consumedInLogOrder (editVersion e) log) as [ | e' rest];
      constructor.
    exact (Forall_inv Habove).
Qed.

Lemma consumedInLogOrder_subsequence (log : list VersionedEdits) :
  forall c, subsequence (consumedInLogOrder c log) log.
Proof.
  induction log as [ | e log IH]; intros c; cbn [consumedInLogOrder].
  - constructor.
  - destruct (c <? editVersion e); constructor; apply IH.
Qed.

Lemma lastVersion_cons (c : Z) (e : VersionedEdits)
  (edits : list VersionedEdits) :
  lastVersion c (e :: edits) = lastVersion (editVersion e) edits.
Proof.
  unfold lastVersion. cbn [map].
  generalize (editVersion e) as v. revert c.
  generalize (map editVersion edits) as l.
  induction l as [ | x l IH]; intros c v; [ reflexivity | ].
  change (last (v :: x :: l) c) with (last (x :: l) c).
  rewrite (IH c x), (IH v x). reflexivity.
Qed.

Lemma lastVersion_consumed_cons (c : Z) (e : VersionedEdits)
  (log : list VersionedEdits) :
  lastVersion c (consumedInLogOrder c (e :: log))
  = lastVersion (Z.max c (editVersion e))
      (consumedInLogOrder (Z.max c (editVersion e)) log).
Proof.
  cbn [consumedInLogOrder].
  destruct (Z.ltb_spec c (editVersion e)) as [Hlt | Hge].
  - rewrite lastVersion_cons. rewrite Z.max_r by lia. reflexivity.
  - rewrite Z.max_l by lia. reflexivity.
Qed.

(** One round of the loop of [applyEdits] that returns sends the ranges of
    a pass through the changes of the edit when the pass consumes it, and
    leaves them alone otherwise. *)
Lemma applyEdit_consumes (e : VersionedEdits) (s s' : State) :
  applyEdit e s = (Ok tt, s') ->
  (forall j, (j < TokenKind.Count)%nat ->
             fixRangesThrough (aget (syntacticRanges s) j)
               (consumedInLogOrder (currentSyntacticVersion s) [e])
             = Ok (aget (syntacticRanges s') j))
  /\ (forall j, (j < TokenKind.Count)%nat ->
                fixRangesThrough (aget (semanticRanges s) j)
                  (consumedInLogOrder (currentSemanticVersion s) [e])
                = Ok (aget (semanticRanges s') j))
  /\ fixRangesThrough (inactiveRanges s)
       (consumedInLogOrder (currentSemanticVersion s) [e])
     = Ok (inactiveRanges s').
Proof.
  unfold applyEdit. intros E.
  apply bind_returns in E. destruct E as (s0 & s0' & E0 & E).
  unfold get in E0. injection E0 as <- <-.
  apply bind_returns in E. destruct E as ([] & s1 & E1 & E).
  apply bind_returns in E. destruct E as (s1' & s1'' & E1' & E2).
  unfold get in E1'. injection E1' as <- <-.
  cbn [consumedInLogOrder fixRangesThrough].
  assert (H1 : currentSemanticVersion s1 = currentSemanticVersion s
               /\ (forall j, (j < TokenKind.Count)%nat ->
                     fixRangesThrough (aget (syntacticRanges s) j)
                       (if currentSyntacticVersion s <? editVersion e
                        then [e] else [])
                     = Ok (aget (syntacticRanges s1) j))
               /\ semanticRanges s1 = semanticRanges s
               /\ inactiveRanges s1 = inactiveRanges s).
  { destruct (currentSyntacticVersion s <? editVersion e); cbn [when] in E1.
    - destruct (applyEditSyntactic_effect _ _ _ E1) as (A1 & A2 & A3).
      split; [ exact (proj1 (applyEditSyntactic_versions _ _ _ _ E1)) | ].
      split; [ | split; assumption ].
      intros j Hj. cbn [fixRangesThrough]. rewrite (A1 j Hj). reflexivity.
    - unfold ret in E1. injection E1 as <-. repeat split. }
  destruct H1 as (Hversion & Hsyn & Hsem & Hinactive).
  rewrite Hversion in E2.
  destruct (currentSemanticVersion s <? editVersion e); cbn [when] in E2.
  - destruct (applyEditSemantic_effect _ _ _ E2) as (B1 & B2 & B3).
    rewrite Hsem, Hinactive in *. rewrite B3.
    split; [ exact Hsyn | ].
    cbn [fixRangesThrough]. split.
    + intros j Hj. rewrite (B1 j Hj). reflexivity.
    + rewrite B2. reflexivity.
  - unfold ret in E2. injection E2 as <-.
    rewrite Hsem, Hinactive. split; [ exact Hsyn | ].
    split; reflexivity.
Qed.

Lemma fixRangesThrough_consumed_cons (ranges fixed : option (list Range))
  (c : Z) (e : VersionedEdits) (log : list VersionedEdits) :
  fixRangesThrough ranges (consumedInLogOrder c [e]) = Ok fixed ->
  fixRangesThrough ranges (consumedInLogOrder c (e :: log))
  = fixRangesThrough fixed
      (consumedInLogOrder (Z.max c (editVersion e)) log).
Proof.
  cbn [consumedInLogOrder].
  destruct (Z.ltb_spec c (editVersion e)) as [Hlt | Hge];
    cbn [fixRangesThrough].
  - rewrite Z.max_r by lia.
    destruct (fixRanges ranges (changes e)) as [fixed' | ];
      cbn [rbind]; [ | discriminate ].
    intros H. injection H as ->. reflexivity.
  - rewrite Z.max_l by lia. intros H. injection H as ->. reflexivity.
Qed.

(** The loop of [applyEdits] over a log, when it returns: each pass has
    consumed, in the order of the log, the edits whose version was larger
    than its counter at that point. *)
Lemma forEach_applyEdit_consumes (log : list VersionedEdits) :
  forall s s' : State,
    forEach log applyEdit s = (Ok tt, s') ->
    currentSyntacticVersion s'
    = lastVersion (currentSyntacticVersion s)
        (consumedInLogOrder (currentSyntacticVersion s) log)
    /\ currentSemanticVersion s'
       = lastVersion (currentSemanticVersion s)
           (consumedInLogOrder (currentSemanticVersion s) log)
    /\ (forall j, (j < TokenKind.Count)%nat ->
                  fixRangesThrough (aget (syntacticRanges s) j)
                    (consumedInLogOrder (currentSyntacticVersion s) log)
                  = Ok (aget (syntacticRanges s') j))
    /\ (forall j, (j < TokenKind.Count)%nat ->
                  fixRangesThrough (aget (semanticRanges s) j)
                    (consumedInLogOrder (currentSemanticVersion s) log)
                  = Ok (aget (semanticRanges s') j))
    /\ fixRangesThrough (inactiveRanges s)
         (consumedInLogOrder (currentSemanticVersion s) log)
       = Ok (inactiveRanges s').
Proof.
  induction log as [ | e log IH]; intros s s' E.
  - cbn [forEach] in E. unfold ret in E. injection E as <-.
    cbn [consumedInLogOrder fixRangesThrough]. unfold lastVersion.
    cbn [map last]. repeat split.
  - cbn [forEach] in E.
    apply bind_returns in E. destruct E as ([] & s1 & E1 & E).
    destruct (applyEdit_versions _ _ _ _ E1) as (_ & _ & _ & Hmax).
    destruct (Hmax eq_refl) as [Hsyn Hsem].
    destruct (applyEdit_consumes _ _ _ E1) as (A1 & A2 & A3).
    destruct (IH _ _ E) as (B1 & B2 & B3 & B4 & B5).
    rewrite Hsyn, Hsem in *.
    rewrite !lastVersion_consumed_cons.
    split; [ exact B1 | ]. split; [ exact B2 | ].
    split; [ | split ].
    + intros j Hj.
      rewrite (fixRangesThrough_consumed_cons _ _ _ _ _ (A1 j Hj)).
      exact (B3 j Hj).
    + intros j Hj.
      rewrite (fixRangesThrough_consumed_cons _ _ _ _ _ (A2 j Hj)).
      exact (B4 j Hj).
    + rewrite (fixRangesThrough_consumed_cons _ _ _ _ _ A3).
      exact B5.
Qed.

(** The same loop, whether it returns or throws: each counter ends where
    consuming the first edits of the log, in the order of the log, takes
    it, and all of the log has been walked when the loop returns. *)
Lemma forEach_applyEdit_prefix (log : list VersionedEdits) :
  forall (s s' : State) (r : result unit),
    forEach log applyEdit s = (r, s') ->
    exists n m : nat,
      currentSyntacticVersion s'
      = lastVersion (currentSyntacticVersion s)
          (consumedInLogOrder (currentSyntacticVersion s) (firstn n log))
      /\ currentSemanticVersion s'
         = lastVersion (currentSemanticVersion s)
             (consumedInLogOrder (currentSemanticVersion s) (firstn m log))
      /\ (r = Ok tt -> firstn n log = log /\ firstn m log = log).
Proof.
  induction log as [ | e log IH]; intros s s' r E; cbn [forEach] in E.
  - unfold ret in E. injection E as <- <-. exists 0%nat, 0%nat.
    repeat split.
  - unfold bind in E.
    destruct (applyEdit e s) as [[[] | ] s1] eqn:E1;
      destruct (applyEdit_versions _ _ _ _ E1) as (_ & A1 & A2 & Hmax).
    + destruct (Hmax eq_refl) as [Hsyn Hsem].
      destruct (IH _ _ _ E) as (n & m & B1 & B2 & B3).
      exists (S n), (S m). cbn [firstn].
      rewrite !lastVersion_consumed_cons. rewrite <- Hsyn, <- Hsem.
      split; [ exact B1 | ]. split; [ exact B2 | ].
      intros Hr. destruct (B3 Hr) as [-> ->]. split; reflexivity.
    + injection E as <- <-.
      assert (Hone : forall c c',
                 c' = c \/ (c < editVersion e /\ c' = editVersion e) ->
                 exists n : nat,
                   c' = lastVersion c
                          (consumedInLogOrder c (firstn n (e :: log)))).
      { intros c c' [-> | [Hlt ->]].
        - exists 0%nat. reflexivity.
        - exists 1%nat. cbn [firstn consumedInLogOrder].
          destruct (Z.ltb_spec c (editVersion e)); [ reflexivity | lia ]. }
      destruct (Hone _ _ A1) as [n Hn]. destruct (Hone _ _ A2) as [m Hm].
      exists n, m. split; [ exact Hn | ]. split; [ exact Hm | ].
      intros; discriminate.
Qed.

(** C5 (amended): [addEdits] changes neither applied-version counter;
    each round of the loop of [applyEdits] leaves a counter as it is or
    raises it to the version of the edit of that round, so [applyEdits] and
    the queued tasks never lower a counter and [applyEdits] ends with a
    counter at its old value or at the version of an edit of the log;
    [updateSyntactic] and [updateSemantic] set the counter of their pass to
    the version of the result received and leave the other one alone.
    [applyEdits] takes the edits in the order of the log: when it returns,
    each pass has consumed exactly the edits that a walk of the log from
    its first edit to its last finds with a version larger than the
    counter of the pass at that point, its counter is the version of the
    last of them, and its ranges have gone through the changes of these
    edits in that order; whether it returns or throws, each counter ends
    where consuming the first edits of the log in that order takes it.
    The edits consumed are edits of the log in the order of the log, with
    strictly increasing versions, all larger than the counter was. *)
Theorem applied_version_counters :
  (forall changes v, preserves currentVersions (addEdits changes v))
  /\ (forall e s,
         (currentSyntacticVersion (snd (applyEdit e s))
          = currentSyntacticVersion s
          \/ (currentSyntacticVersion s < editVersion e
              /\ currentSyntacticVersion (snd (applyEdit e s))
                 = editVersion e))
         /\ (currentSemanticVersion (snd (applyEdit e s))
             = currentSemanticVersion s
             \/ (currentSemanticVersion s < editVersion e
                 /\ currentSemanticVersion (snd (applyEdit e s))
                    = editVersion e)))
  /\ (forall s,
         currentSyntacticVersion s
         <= currentSyntacticVersion (snd (applyEdits s))
         /\ currentSemanticVersion s
            <= currentSemanticVersion (snd (applyEdits s))
         /\ (currentSyntacticVersion (snd (applyEdits s))
             = currentSyntacticVersion s
             \/ exists e, In e (versionedEdits s)
                          /\ editVersion e
                             = currentSyntacticVersion (snd (applyEdits s)))
         /\ (currentSemanticVersion (snd (applyEdits s))
             = currentSemanticVersion s
             \/ exists e, In e (versionedEdits s)
                          /\ editVersion e
                             = currentSemanticVersion (snd (applyEdits s))))
  /\ never_lowers_versions runNextTask
  /\ (forall uri ranges v s,
         currentSyntacticVersion (snd (updateSyntactic uri ranges v s)) = v
         /\ currentSemanticVersion (snd (updateSyntactic uri ranges v s))
            = currentSemanticVersion s)
  /\ (forall uri ranges inactive v s,
         currentSemanticVersion
           (snd (updateSemantic uri ranges inactive v s)) = v
         /\ currentSyntacticVersion
              (snd (updateSemantic uri ranges inactive v s))
            = currentSyntacticVersion s)
  /\ (forall s s',
         applyEdits s = (Ok tt, s') ->
         let syntactic :=
           consumedInLogOrder (currentSyntacticVersion s)
             (versionedEdits s) in
         let semantic :=
           consumedInLogOrder (currentSemanticVersion s)
             (versionedEdits s) in
         currentSyntacticVersion s'
         = lastVersion (currentSyntacticVersion s) syntactic
         /\ currentSemanticVersion s'
            = lastVersion (currentSemanticVersion s) semantic
         /\ (forall j, (j < TokenKind.Count)%nat ->
                       fixRangesThrough (aget (syntacticRanges s) j)
                         syntactic
                       = Ok (aget (syntacticRanges s') j))
         /\ (forall j, (j < TokenKind.Count)%nat ->
                       fixRangesThrough (aget (semanticRanges s) j) semantic
                       = Ok (aget (semanticRanges s') j))
         /\ fixRangesThrough (inactiveRanges s) semantic
            = Ok (inactiveRanges s'))
  /\ (forall s, exists n m : nat,
         currentSyntacticVersion (snd (applyEdits s))
         = lastVersion (currentSyntacticVersion s)
             (consumedInLogOrder (currentSyntacticVersion s)
                (firstn n (versionedEdits s)))
         /\ currentSemanticVersion (snd (applyEdits s))
            = lastVersion (currentSemanticVersion s)
                (consumedInLogOrder (currentSemanticVersion s)
                   (firstn m (versionedEdits s)))
         /\ (fst (applyEdits s) = Ok tt ->
             firstn n (versionedEdits s) = versionedEdits s
             /\ firstn m (versionedEdits s) = versionedEdits s))
  /\ (forall c log,
         subsequence (consumedInLogOrder c log) log
         /\ increasing_versions (consumedInLogOrder c log)
         /\ Forall (fun e => c < editVersion e) (consumedInLogOrder c log)).
Proof.
  split; [ | split; [ | split; [ | split; [ | split; [ | split;
    [ | split; [ | split ] ] ] ] ] ] ].
  - intros changes v. unfold addEdits. preserved.
  - intros e s. destruct (applyEdit e s) as [r s'] eqn:E.
    destruct (applyEdit_versions _ _ _ _ E) as (_ & H1 & H2 & _).
    cbn [snd]. split; assumption.
  - intros s. unfold applyEdits. cbv [bind get].
    destruct (forEach (versionedEdits s) applyEdit s) as [r s'] eqn:E.
    destruct (forEach_applyEdit_versions _ _ _ _ E)
      as (_ & H1 & H2 & H3 & H4 & _).
    cbn [snd]. repeat split; assumption.
  - exact runNextTask_never_lowers.
  - intros uri ranges v s.
    destruct (updateSyntactic_state uri ranges v s)
      as (s1 & -> & _ & Hc & _).
    cbn [snd]. unfold currentVersions in Hc.
    injection Hc as Hsyn Hsem. rewrite <- Hsem.
    destruct s1; split; reflexivity.
  - intros uri ranges inactive v s.
    destruct (updateSemantic_state uri ranges inactive v s)
      as (s1 & -> & _ & Hc & _).
    cbn [snd]. unfold currentVersions in Hc.
    injection Hc as Hsyn Hsem. rewrite <- Hsyn.
    destruct s1; split; reflexivity.
  - intros s s' E. cbv zeta. unfold applyEdits in E. cbv [bind get] in E.
    exact (forEach_applyEdit_consumes _ _ _ E).
  - intros s. unfold applyEdits. cbv [bind get].
    destruct (forEach (versionedEdits s) applyEdit s) as [r s'] eqn:E.
    cbn [fst snd]. exact (forEach_applyEdit_prefix _ _ _ _ E).
  - intros c log. split; [ | split ].
    + apply consumedInLogOrder_subsequence.
    + apply consumedInLogOrder_increasing.
    + apply consumedInLogOrder_above.
Qed.

Lemma applied_version_counters_witness :
  exists s',
    applyEdits twoEditState = (Ok tt, s')
    /\ map editVersion
         (consumedInLogOrder (currentSyntacticVersion twoEditState)
            (versionedEdits twoEditState)) = [1; 2]
    /\ currentSyntacticVersion s' = 2
    /\ fixRangesThrough (aget (syntacticRanges twoEditState) 1)
         (consumedInLogOrder (currentSyntacticVersion twoEditState)
            (versionedEdits twoEditState))
       = Ok (aget (syntacticRanges s') 1)
    /\ aget (syntacticRanges s') 1
       = Some [ {| start := {| line := 1; character := 6 |};
                   end_ := {| line := 1; character := 11 |} |} ].
Proof.
  exists (snd (applyEdits twoEditState)).
  assert (E : applyEdits twoEditState
              = (Ok tt, snd (applyEdits twoEditState)))
    by (vm_compute; reflexivity).
  split; [ exact E | ].
  split; [ vm_compute; reflexivity | ].
  destruct applied_version_counters
    as (_ & _ & _ & _ & _ & _ & Hlog & _).
  destruct (Hlog _ _ E) as (Hversion & _ & Hranges & _).
  split; [ rewrite Hversion; vm_compute; reflexivity | ].
  split; [ apply Hranges; unfold TokenKind.Count; lia | ].
  vm_compute. reflexivity.
Defined.

(* ===================================================================== *)
(** * Further properties of the decorations *)

Lemma flat_map_same_on {A B} (f g : A -> list B) (l : list A) :
  (forall x, In x l -> f x = g x) -> flat_map f l = flat_map g l.
Proof.
  induction l as [ | x l IH]; intros H; cbn [flat_map]; [ reflexivity | ].
  rewrite (H x) by (left; reflexivity).
  rewrite IH by (intros y Hy; apply H; right; exact Hy). reflexivity.
Qed.

Lemma flat_map_all_nil {A B} (f : A -> list B) (l : list A) :
  (forall x, In x l -> f x = []) -> flat_map f l = [].
Proof.
  induction l as [ | x l IH]; intros H; cbn [flat_map]; [ reflexivity | ].
  rewrite (H x) by (left; reflexivity).
  apply IH. intros y Hy. apply H. right. exact Hy.
Qed.

Lemma forEach_dispose_nothing (l : list nat) (s : State) :
  (forall j, In j l -> aget (decorations s) j = None) ->
  forEach l (fun i =>
    s <- get ;;
    match aget (decorations s) i with
    | Some d =>
        dispose d ;;;
        modify (fun s => set_decorations (aset (decorations s) i None) s)
    | None => ret tt
    end) s = (Ok tt, s).
Proof.
  induction l as [ | i l IH]; intros H; cbn [forEach]; [ reflexivity | ].
  unfold bind at 1. unfold bind at 1, get at 1.
  rewrite (H i) by (left; reflexivity). unfold ret at 1.
  apply IH. intros j Hj. apply H. right. exact Hj.
Qed.

Lemma forEach_dispose_slots (l : list nat) :
  NoDup l ->
  forall s,
    exists s',
      forEach l (fun i =>
        s <- get ;;
        match aget (decorations s) i with
        | Some d =>
            dispose d ;;;
            modify (fun s => set_decorations (aset (decorations s) i None) s)
        | None => ret tt
        end) s = (Ok tt, s')
      /\ (forall j, In j l -> aget (decorations s') j = None)
      /\ (forall j, ~ In j l ->
                    aget (decorations s') j = aget (decorations s) j)
      /\ events s'
         = events s
           ++ map DisposeDecoration
                (flat_map (fun i => match aget (decorations s) i with
                                    | Some d => [d]
                                    | None => []
                                    end) l)
      /\ set_events [] (set_decorations [] s')
         = set_events [] (set_decorations [] s).
Proof.
  induction 1 as [ | i l Hi Hl IH]; intros s; cbn [forEach flat_map].
  - exists s. cbn [map]. rewrite app_nil_r. repeat split; trivial.
    intros j [].
  - unfold bind at 1. unfold bind at 1, get at 1.
    set (s1 := match aget (decorations s) i with
               | Some d =>
                   set_decorations (aset (decorations s) i None)
                     (set_events (events s ++ [DisposeDecoration d]) s)
               | None => s
               end).
    assert (E1 : match aget (decorations s) i with
                 | Some d =>
                     (dispose d ;;;
                      modify (fun s =>
                        set_decorations (aset (decorations s) i None) s)) s
                 | None => ret tt s
                 end = (Ok tt, s1)).
    { subst s1. destruct (aget (decorations s) i) as [d | ];
        [ | reflexivity ].
      cbv [bind dispose emit modify]. f_equal. destruct s; reflexivity. }
    replace (match aget (decorations s) i with
             | Some d =>
                 dispose d ;;;
                 modify (fun s0 =>
                   set_decorations (aset (decorations s0) i None) s0)
             | None => ret tt
             end s)
      with (Ok tt, s1)
      by (rewrite <- E1; destruct (aget (decorations s) i); reflexivity).
    destruct (IH s1) as (s' & E & H1 & H2 & H3 & H4).
    exists s'. split; [ exact E | ].
    assert (Hdec : forall j, aget (decorations s1) j
                             = if Nat.eqb i j then None
                               else aget (decorations s) j).
    { intros j. subst s1. destruct (aget (decorations s) i) as [d | ] eqn:Ei.
      - replace (decorations
                   (set_decorations (aset (decorations s) i None)
                      (set_events (events s ++ [DisposeDecoration d]) s)))
          with (aset (decorations s) i None) by (destruct s; reflexivity).
        apply aget_aset.
      - destruct (Nat.eqb_spec i j); [ subst; exact Ei | reflexivity ]. }
    assert (Hev : events s1
                  = events s
                    ++ map DisposeDecoration
                         match aget (decorations s) i with
                         | Some d => [d]
                         | None => []
                         end).
    { subst s1. destruct (aget (decorations s) i) as [d | ].
      - destruct s; reflexivity.
      - cbn [map]. now rewrite app_nil_r. }
    repeat split.
    + intros j [<- | Hj].
      * rewrite H2 by exact Hi. rewrite Hdec, Nat.eqb_refl. reflexivity.
      * apply H1. exact Hj.
    + intros j Hj. rewrite H2 by (intro; apply Hj; right; assumption).
      rewrite Hdec. destruct (Nat.eqb_spec i j);
        [ subst; exfalso; apply Hj; left; reflexivity | reflexivity ].
    + rewrite H3, Hev, map_app, <- app_assoc. do 3 f_equal.
      apply flat_map_same_on. intros j Hj. rewrite Hdec.
      destruct (Nat.eqb_spec i j); [ subst; contradiction | reflexivity ].
    + rewrite H4. subst s1. destruct (aget (decorations s) i);
        destruct s; reflexivity.
Qed.

(** X12: [disposeColorizationDecorations] returns, asks the editor to
    dispose of exactly the decorations the state holds, each once, and
    leaves none behind; running it again asks for nothing and changes
    nothing. *)
Theorem disposeColorizationDecorations_releases_all (s : State) :
  exists s',
    disposeColorizationDecorations s = (Ok tt, s')
    /\ events s' = events s ++ map DisposeDecoration (activeDecorations s)
    /\ activeDecorations s' = []
    /\ disposeColorizationDecorations s' = (Ok tt, s').
Proof.
  unfold disposeColorizationDecorations at 1.
  unfold bind at 1, get at 1. unfold bind at 1.
  set (s1 := match inactiveDecoration s with
             | Some d =>
                 set_inactiveDecoration None
                   (set_events (events s ++ [DisposeDecoration d]) s)
             | None => s
             end).
  replace (match inactiveDecoration s with
           | Some d => dispose d ;;; modify (set_inactiveDecoration None)
           | None => ret tt
           end s)
    with (Ok tt, s1)
    by (subst s1; destruct (inactiveDecoration s);
        [ cbv [bind dispose emit modify]; destruct s | ]; reflexivity).
  destruct (forEach_dispose_slots tokenKinds tokenKinds_NoDup s1)
    as (s' & E & H1 & H2 & H3 & H4).
  exists s'. split; [ exact E | ].
  assert (Hd : decorations s1 = decorations s)
    by (subst s1; destruct (inactiveDecoration s); destruct s;
        reflexivity).
  assert (Hi : inactiveDecoration s1 = None)
    by (subst s1; destruct (inactiveDecoration s) eqn:Ei;
        [ destruct s; reflexivity | exact Ei ]).
  assert (Hi' : inactiveDecoration s' = None).
  { transitivity (inactiveDecoration
                    (set_events [] (set_decorations [] s'))).
    - destruct s'; reflexivity.
    - rewrite H4, <- Hi. destruct s1; reflexivity. }
  split; [ | split ].
  - rewrite H3, Hd. unfold activeDecorations.
    rewrite map_app, app_assoc. f_equal.
    subst s1. destruct (inactiveDecoration s).
    + destruct s; reflexivity.
    + cbn [map]. now rewrite app_nil_r.
  - unfold activeDecorations. rewrite Hi'. cbn [app].
    apply flat_map_all_nil. intros j Hj. rewrite (H1 j Hj). reflexivity.
  - unfold disposeColorizationDecorations. cbv [bind get].
    rewrite Hi'. unfold ret at 1.
    apply forEach_dispose_nothing. exact H1.
Qed.

Lemma forEach_dispose_retained (old : jsarray Decoration) (l : list nat) :
  forall s,
    forEach l (fun i => match aget old i with
                        | Some d => dispose d
                        | None => ret tt
                        end) s
    = (Ok tt,
       set_events
         (events s
          ++ map DisposeDecoration
               (flat_map (fun i => match aget old i with
                                   | Some d => [d]
                                   | None => []
                                   end) l)) s).
Proof.
  induction l as [ | i l IH]; intros s; cbn [forEach flat_map].
  - cbn [map]. rewrite app_nil_r. destruct s; reflexivity.
  - unfold bind at 1. destruct (aget old i) as [d | ].
    + cbv [dispose emit modify]. rewrite IH. f_equal.
      destruct s; cbn. now rewrite <- app_assoc.
    + unfold ret at 1. rewrite IH. reflexivity.
Qed.

Lemma emits_at {A} (P : Event -> Prop) (m : M A) (s s' : State)
  (r : result A) :
  emits P m -> m s = (r, s') ->
  exists added, events s' = events s ++ added /\ Forall P added.
Proof. intros H E. specialize (H s). rewrite E in H. exact H. Qed.

Lemma preserves_at {A X} (f : State -> X) (m : M A) (s s' : State)
  (r : result A) :
  preserves f m -> m s = (r, s') -> f s' = f s.
Proof. intros H E. specialize (H s). rewrite E in H. exact H. Qed.

(** X13: when the task queued by [updateColorizationRanges] returns, the
    requests it has made end with the disposal of exactly the decorations
    the state held when the task began, each once, and nothing is disposed
    of before. *)
Theorem updateColorizationRangesTask_releases_old (uri : string)
  (s s' : State) :
  updateColorizationRangesTask uri s = (Ok tt, s') ->
  exists shown,
    events s'
    = events s ++ shown ++ map DisposeDecoration (activeDecorations s)
    /\ Forall (fun e => ~ is_dispose e) shown.
Proof.
  unfold updateColorizationRangesTask. intros E.
  apply bind_returns in E. destruct E as ([] & s1 & E1 & E).
  apply bind_returns in E. destruct E as ([] & s2 & E2 & E).
  apply bind_returns in E. destruct E as (s2' & s2'' & E0 & E).
  unfold get in E0. injection E0 as <- <-.
  apply bind_returns in E. destruct E as ([] & s3 & E3 & E).
  apply bind_returns in E. destruct E as ([] & s4 & E4 & E).
  apply bind_returns in E. destruct E as ([] & s5 & E5 & E).
  apply bind_returns in E. destruct E as ([] & s6 & E6 & E).
  assert (K1 : (events s1, decorations s1, inactiveDecoration s1)
               = (events s, decorations s, inactiveDecoration s)).
  { apply (preserves_at
             (fun s => (events s, decorations s, inactiveDecoration s))
             applyEdits s s1 (Ok tt)); [ preserved | exact E1 ]. }
  assert (K2 : (events s2, decorations s2, inactiveDecoration s2)
               = (events s1, decorations s1, inactiveDecoration s1)).
  { apply (preserves_at
             (fun s => (events s, decorations s, inactiveDecoration s))
             purgeOldVersionedEdits s1 s2 (Ok tt)); [ preserved | exact E2 ]. }
  rewrite K1 in K2. injection K2 as Kev Kdec Kin.
  assert (K3 : events s3 = events s2)
    by (unfold modify in E3; injection E3 as <-; destruct s2; reflexivity).
  assert (K4 : events s4 = events s3)
    by (unfold modify in E4; injection E4 as <-; destruct s3; reflexivity).
  assert (M5 : emits (fun e => ~ is_dispose e)
                 (createColorizationDecorations
                    (isEditorFileCpp (env s2) uri))) by emitted.
  assert (M6 : emits (fun e => ~ is_dispose e)
                 (forEach
                    (filter
                       (fun e =>
                          String.eqb (uriToString (documentUri e)) uri)
                       (visibleTextEditors (env s2))) refreshInner))
    by emitted.
  destruct (emits_at _ _ _ _ _ M5 E5) as (a5 & K5 & F5).
  destruct (emits_at _ _ _ _ _ M6 E6) as (a6 & K6 & F6).
  unfold bind in E.
  assert (E7 : match inactiveDecoration s2 with
               | Some d => dispose d
               | None => ret tt
               end s6
               = (Ok tt,
                  set_events
                    (events s6
                     ++ map DisposeDecoration
                          match inactiveDecoration s2 with
                          | Some d => [d]
                          | None => []
                          end) s6)).
  { destruct (inactiveDecoration s2).
    - reflexivity.
    - cbn [map]. rewrite app_nil_r. destruct s6; reflexivity. }
  rewrite E7, forEach_dispose_retained in E.
  unfold activeDecorations. rewrite <- Kdec, <- Kin.
  remember (flat_map (fun i => match aget (decorations s2) i with
                               | Some d => [d]
                               | None => []
                               end) tokenKinds) as rest eqn:Hrest.
  clear Hrest.
  assert (Hset : forall x y t, events (set_events x (set_events y t)) = x)
    by (intros x y []; reflexivity).
  assert (Hset1 : forall y t, events (set_events y t) = y)
    by (intros y []; reflexivity).
  injection E as E. rewrite <- E, Hset, Hset1.
  exists (a5 ++ a6). split; [ | apply Forall_app; split; assumption ].
  rewrite K6, K5, K4, K3, Kev.
  rewrite !map_app, <- !app_assoc. reflexivity.
Qed.

Lemma updateColorizationRangesTask_releases_old_witness :
  exists shown,
    events (snd (updateColorizationRangesTask "file:///a.cpp"
                   decoratedState))
    = events decoratedState ++ shown
      ++ map DisposeDecoration (activeDecorations decoratedState)
    /\ Forall (fun e => ~ is_dispose e) shown.
Proof.
  apply (updateColorizationRangesTask_releases_old "file:///a.cpp"
           decoratedState).
  vm_compute. reflexivity.
Defined.

(** ** The order in which decorations are created *)

Lemma createDecoration_step (isCpp : bool) (i : nat) (s : State) :
  exists s1 od,
    (s <- get ;;
     let themeStyleMap :=
       if isCpp then themeStyleCppMap (env s) else themeStyleCMap (env s) in
     d <- createDecorationFromThemeStyle (aget themeStyleMap i) ;;
     modify (fun s => set_decorations (aset (decorations s) i d) s)) s
    = (Ok tt, s1)
    /\ decorations s1 = aset (decorations s) i od
    /\ env s1 = env s
    /\ inactiveDecoration s1 = inactiveDecoration s
    /\ match od with
       | Some d => d = nextDecoration s /\ nextDecoration s1 = S d
       | None => nextDecoration s1 = nextDecoration s
       end.
Proof.
  unfold bind at 1, get at 1. cbv zeta.
  set (style := aget (if isCpp then themeStyleCppMap (env s)
                      else themeStyleCMap (env s)) i).
  unfold createDecorationFromThemeStyle.
  destruct style as [style | ].
  - destruct (truthy (foreground style) || truthy (background style)
              || truthy (fontStyle style)).
    + eexists. exists (Some (nextDecoration s)).
      cbv [bind get modify ret createTextEditorDecorationType emit].
      split; [ reflexivity | ]. destruct s; repeat split.
    + eexists. exists None. cbv [bind get modify ret].
      split; [ reflexivity | ]. destruct s; repeat split.
  - eexists. exists None. cbv [bind get modify ret].
    split; [ reflexivity | ]. destruct s; repeat split.
Qed.

Lemma forEach_createDecoration (isCpp : bool) (l : list nat) :
  StronglySorted gt l ->
  forall s,
    exists s',
      forEach l (fun i =>
        s <- get ;;
        let themeStyleMap :=
          if isCpp then themeStyleCppMap (env s)
          else themeStyleCMap (env s) in
        d <- createDecorationFromThemeStyle (aget themeStyleMap i) ;;
        modify (fun s => set_decorations (aset (decorations s) i d) s)) s
      = (Ok tt, s')
      /\ (nextDecoration s <= nextDecoration s')%nat
      /\ env s' = env s
      /\ inactiveDecoration s' = inactiveDecoration s
      /\ (forall j, ~ In j l ->
                    aget (decorations s') j = aget (decorations s) j)
      /\ (forall j d, In j l -> aget (decorations s') j = Some d ->
                      (nextDecoration s <= d < nextDecoration s')%nat)
      /\ (forall i j di dj,
             In i l -> In j l -> (i < j)%nat ->
             aget (decorations s') i = Some di ->
             aget (decorations s') j = Some dj ->
             (dj < di)%nat).
Proof.
  induction 1 as [ | i l Hl IH Hi]; intros s; cbn [forEach].
  - exists s. repeat split; trivial; try (intros; contradiction).
  - destruct (createDecoration_step isCpp i s)
      as (s1 & od & E1 & Hdec & Henv & Hin & Hod).
    destruct (IH s1) as (s' & E & Hn & He & Hi' & Hout & Hfresh & Hord).
    exists s'.
    split; [ unfold bind at 1; cbv zeta in E1; rewrite E1; exact E | ].
    assert (Hni : ~ In i l).
    { intro Hc. rewrite Forall_forall in Hi. specialize (Hi i Hc). lia. }
    assert (Hnext : (nextDecoration s <= nextDecoration s1)%nat)
      by (destruct od as [d | ]; [ destruct Hod; lia | lia ]).
    assert (Hslot : forall d, aget (decorations s') i = Some d ->
                              d = nextDecoration s
                              /\ nextDecoration s1 = S d).
    { intros d Hd. rewrite (Hout i Hni), Hdec, aget_aset, Nat.eqb_refl in Hd.
      subst od. exact Hod. }
    repeat split.
    + lia.
    + congruence.
    + congruence.
    + intros j Hj. rewrite Hout by (intro; apply Hj; right; assumption).
      rewrite Hdec, aget_aset.
      destruct (Nat.eqb_spec i j);
        [ subst; exfalso; apply Hj; left; reflexivity | reflexivity ].
    + destruct H as [<- | Hj].
      * destruct (Hslot d H0). lia.
      * destruct (Hfresh j d Hj H0). lia.
    + destruct H as [<- | Hj].
      * destruct (Hslot d H0). lia.
      * destruct (Hfresh j d Hj H0). lia.
    + intros a b da db [<- | Ha] [<- | Hb] Hab Hda Hdb.
      * lia.
      * rewrite Forall_forall in Hi. specialize (Hi b Hb). lia.
      * destruct (Hslot db Hdb). destruct (Hfresh a da Ha Hda). lia.
      * exact (Hord a b da db Ha Hb Hab Hda Hdb).
Qed.

Lemma rev_tokenKinds_decreasing : StronglySorted gt (rev tokenKinds).
Proof.
  unfold tokenKinds. generalize TokenKind.Count as n.
  induction n as [ | n IH]; [ constructor | ].
  rewrite seq_S, rev_app_distr. cbn [rev app plus].
  constructor; [ exact IH | ].
  apply Forall_forall. intros x Hx. apply in_rev, in_seq in Hx. lia.
Qed.

(** X14: with colorization enabled, [createColorizationDecorations]
    returns with decorations for the token kinds that are all new, and a
    token kind of lower index gets its decoration created later than any
    token kind of higher index; a decoration for the inactive regions is
    created after all of them. *)
Theorem createColorizationDecorations_order (isCpp : bool) (s : State) :
  colorizationEnabled (settings (env s)) = true ->
  exists s',
    createColorizationDecorations isCpp s = (Ok tt, s')
    /\ (forall j d,
           (j < TokenKind.Count)%nat ->
           aget (decorations s') j = Some d ->
           (nextDecoration s <= d < nextDecoration s')%nat)
    /\ (forall i j di dj,
           (i < j)%nat -> (j < TokenKind.Count)%nat ->
           aget (decorations s') i = Some di ->
           aget (decorations s') j = Some dj ->
           (dj < di)%nat)
    /\ (dimInactiveRegions (settings (env s)) = true ->
        exists di,
          inactiveDecoration s' = Some di
          /\ forall j d, (j < TokenKind.Count)%nat ->
                         aget (decorations s') j = Some d -> (d < di)%nat).
Proof.
  intros Hon.
  destruct (forEach_createDecoration isCpp (rev tokenKinds)
              rev_tokenKinds_decreasing s)
    as (s1 & E1 & Hn & He & Hi & _ & Hfresh & Hord).
  assert (Hin : forall j, (j < TokenKind.Count)%nat -> In j (rev tokenKinds))
    by (intros j Hj; apply in_rev; rewrite rev_involutive;
        apply in_tokenKinds; exact Hj).
  assert (Erun :
    createColorizationDecorations isCpp s
    = if dimInactiveRegions (settings (env s))
      then (Ok tt,
            set_inactiveDecoration (Some (nextDecoration s1))
              (set_events (events s1 ++ [CreateDecoration (nextDecoration s1)])
                 (set_nextDecoration (S (nextDecoration s1)) s1)))
      else (Ok tt, s1)).
  { unfold createColorizationDecorations.
    unfold bind at 1, get at 1. cbv zeta. rewrite Hon. cbn [when].
    unfold bind at 1. cbv zeta in E1. rewrite E1.
    destruct (dimInactiveRegions (settings (env s))); cbn [when];
      [ | reflexivity ].
    cbv [bind get modify ret createTextEditorDecorationType emit].
    f_equal. destruct s1; reflexivity. }
  rewrite Erun. clear Erun.
  destruct (dimInactiveRegions (settings (env s))).
  - eexists. split; [ reflexivity | ].
    assert (Hd : forall x y z t,
               decorations
                 (set_inactiveDecoration x
                    (set_events y (set_nextDecoration z t)))
               = decorations t) by (intros x y z []; reflexivity).
    assert (Hnx : forall x y z t,
               nextDecoration
                 (set_inactiveDecoration x
                    (set_events y (set_nextDecoration z t))) = z)
      by (intros x y z []; reflexivity).
    assert (Hix : forall x y z t,
               inactiveDecoration
                 (set_inactiveDecoration x
                    (set_events y (set_nextDecoration z t))) = x)
      by (intros x y z []; reflexivity).
    rewrite Hd, Hnx, Hix. split; [ | split; [ | intros _ ] ].
    + intros j d Hj Hd'. destruct (Hfresh j d (Hin j Hj) Hd'). lia.
    + intros i j di dj Hij Hj. apply Hord; auto. apply Hin. lia.
    + eexists. split; [ reflexivity | ].
      intros j d Hj Hd'. destruct (Hfresh j d (Hin j Hj) Hd'). lia.
  - exists s1. split; [ reflexivity | ].
    split; [ | split; [ | intros Hc; discriminate Hc ] ].
    + intros j d Hj Hd'. destruct (Hfresh j d (Hin j Hj) Hd'). lia.
    + intros i j di dj Hij Hj. apply Hord; auto. apply Hin. lia.
Qed.

Lemma createColorizationDecorations_order_witness :
  exists s',
    createColorizationDecorations true decoratedState = (Ok tt, s')
    /\ (forall j d,
           (j < TokenKind.Count)%nat ->
           aget (decorations s') j = Some d ->
           (nextDecoration decoratedState <= d < nextDecoration s')%nat)
    /\ (forall i j di dj,
           (i < j)%nat -> (j < TokenKind.Count)%nat ->
           aget (decorations s') i = Some di ->
           aget (decorations s') j = Some dj ->
           (dj < di)%nat)
    /\ (dimInactiveRegions (settings (env decoratedState)) = true ->
        exists di,
          inactiveDecoration s' = Some di
          /\ forall j d, (j < TokenKind.Count)%nat ->
                         aget (decorations s') j = Some d -> (d < di)%nat).
Proof.
  apply (createColorizationDecorations_order true decoratedState).
  vm_compute. reflexivity.
Defined.

(** ** What [refreshInner] asks of the editor *)

Lemma set_events_same (s : State) : set_events (events s ++ []) s = s.
Proof. rewrite app_nil_r. destruct s; reflexivity. Qed.

Lemma set_events_twice (s : State) (a b : list Event) :
  set_events (events (set_events (events s ++ a) s) ++ b)
    (set_events (events s ++ a) s)
  = set_events (events s ++ a ++ b) s.
Proof. destruct s; cbn. now rewrite app_assoc. Qed.

Lemma only_emits_ret {A} (P : Event -> Prop) (a : A) : only_emits P (ret a).
Proof.
  intro s. exists a, []. rewrite set_events_same.
  split; [ reflexivity | constructor ].
Qed.

Lemma only_emits_get (P : Event -> Prop) : only_emits P get.
Proof.
  intro s. exists s, []. rewrite set_events_same.
  split; [ reflexivity | constructor ].
Qed.

Lemma only_emits_emit (P : Event -> Prop) (e : Event) :
  P e -> only_emits P (emit e).
Proof.
  intros H s. exists tt, [e]. split; [ reflexivity | ].
  constructor; [ exact H | constructor ].
Qed.

Lemma only_emits_bind {A B} (P : Event -> Prop) (m : M A) (k : A -> M B) :
  only_emits P m ->
  (forall a s added,
      exists b added',
        k a (set_events (events s ++ added) s)
        = (Ok b, set_events (events s ++ added ++ added') s)
        /\ Forall P added') ->
  only_emits P (bind m k).
Proof.
  intros Hm Hk s. unfold bind.
  destruct (Hm s) as (a & added & -> & F).
  destruct (Hk a s added) as (b & added' & -> & F').
  exists b, (added ++ added'). split; [ reflexivity | ].
  apply Forall_app; split; assumption.
Qed.

Lemma only_emits_at {A} (P : Event -> Prop) (m : M A) (s : State)
  (added : list Event) :
  only_emits P m ->
  exists a added',
    m (set_events (events s ++ added) s)
    = (Ok a, set_events (events s ++ added ++ added') s)
    /\ Forall P added'.
Proof.
  intros H. destruct (H (set_events (events s ++ added) s))
    as (a & added' & E & F).
  exists a, added'. rewrite E, set_events_twice. split; trivial.
Qed.

Lemma only_emits_seq {A B} (P : Event -> Prop) (m : M A) (k : A -> M B) :
  only_emits P m -> (forall a, only_emits P (k a)) ->
  only_emits P (bind m k).
Proof.
  intros Hm Hk. apply only_emits_bind; [ exact Hm | ].
  intros a s added. apply only_emits_at. apply Hk.
Qed.

Lemma only_emits_forEach {Y} (P : Event -> Prop) (l : list Y)
  (body : Y -> M unit) :
  (forall y, only_emits P (body y)) -> only_emits P (forEach l body).
Proof.
  intros H. induction l as [ | y l IH]; cbn [forEach].
  - apply only_emits_ret.
  - apply only_emits_seq; [ apply H | intros _; exact IH ].
Qed.

(** The decorations and ranges of the state are those of [s0]: requests
    to the editor do not change them. *)
Lemma only_emits_reading {A} (P : Event -> Prop) (f : State -> M A) :
  (forall s0, only_emits P (f s0)) -> only_emits P (bind get f).
Proof. intros H. apply only_emits_seq; [ apply only_emits_get | exact H ]. Qed.

(** X15: [refreshInner] returns and changes nothing in the state; all it
    does is to ask the editor it is given to set decorations.  With
    colorization off and the dimming of inactive regions off it asks for
    nothing. *)
Theorem refreshInner_only_sets_decorations (e : TextEditor) (s : State) :
  (exists added,
      refreshInner e s = (Ok tt, set_events (events s ++ added) s)
      /\ Forall (fun ev => exists d ranges,
                             ev = SetDecorations (editorId e) d ranges)
           added)
  /\ (colorizationEnabled (settings (env s)) = false ->
      dimInactiveRegions (settings (env s)) = false ->
      refreshInner e s = (Ok tt, s)).
Proof.
  split.
  - assert (H : only_emits
                  (fun ev => exists d ranges,
                               ev = SetDecorations (editorId e) d ranges)
                  (refreshInner e)).
    { unfold refreshInner.
      apply only_emits_reading. intros s0. cbv zeta.
      apply only_emits_seq.
      - destruct (colorizationEnabled (settings (env s0))); cbn [when];
          [ | apply only_emits_ret ].
        apply only_emits_forEach. intros i.
        apply only_emits_reading. intros s1.
        destruct (aget (decorations s1) i) as [d | ];
          [ | apply only_emits_ret ].
        match goal with
        | |- only_emits _ (match ?x with _ => _ end) => destruct x as [[ | r rs] | ]
        end; try apply only_emits_ret.
        apply only_emits_emit. eauto.
      - intros _. apply only_emits_reading. intros s1.
        destruct (dimInactiveRegions (settings (env s0)));
          try apply only_emits_ret.
        destruct (inactiveDecoration s1); try apply only_emits_ret.
        destruct (inactiveRanges s1); try apply only_emits_ret.
        apply only_emits_emit. eauto. }
    destruct (H s) as ([] & added & E & F). exists added. split; assumption.
  - intros Hoff Hdim. unfold refreshInner. cbv [bind get].
    rewrite Hoff, Hdim. reflexivity.
Qed.

(* ===================================================================== *)
(** * Properties of the style resolution *)

(** X16: applying the settings of a rule to a style a second time changes
    nothing more. *)
Theorem updateStyleFromTextMateRuleSettings_idempotent
  (editorBackground : option string) (baseStyle : ThemeStyle)
  (settings : TextMate.RuleSettings) :
  updateStyleFromTextMateRuleSettings editorBackground
    (updateStyleFromTextMateRuleSettings editorBackground baseStyle settings)
    settings
  = updateStyleFromTextMateRuleSettings editorBackground baseStyle settings.
Proof.
  unfold updateStyleFromTextMateRuleSettings.
  destruct (truthy (TextMate.foreground settings));
    destruct (truthy (TextMate.background settings)
              && negb (same_string (TextMate.background settings)
                         editorBackground));
    destruct (truthy (TextMate.fontStyle settings));
    destruct (same_string (TextMate.fontStyle settings) (Some EmptyString));
    destruct baseStyle; reflexivity.
Qed.

Lemma find_first {A} (p : A -> bool) (before after : list A) (m : A) :
  Forall (fun x => p x = false) before -> p m = true ->
  find p (before ++ m :: after) = Some m.
Proof.
  induction 1 as [ | x before Hx _ IH]; intros Hm; cbn [app find].
  - now rewrite Hm.
  - rewrite Hx. exact (IH Hm).
Qed.

Lemma find_none {A} (p : A -> bool) (l : list A) :
  Forall (fun x => p x = false) l -> find p l = None.
Proof.
  induction 1 as [ | x l Hx _ IH]; cbn [find]; [ reflexivity | ].
  now rewrite Hx.
Qed.

(** X17: among the rules handed to [findThemeStyleForScope], only the
    first one that has settings and names the scope counts: its settings
    are applied to both styles, whatever rules follow it. *)
Theorem findThemeStyleForScope_first_match
  (editorBackground : option string) (base : StylePair) (scope : string)
  (before after : list TextMate.Rule) (m : TextMate.Rule)
  (matched : TextMate.RuleSettings) :
  Forall (fun e => ruleNamesScope scope e = false) before ->
  ruleNamesScope scope m = true ->
  TextMate.settings m = Some matched ->
  findThemeStyleForScope editorBackground base scope
    (Some (before ++ m :: after))
  = (option_map
       (fun style =>
          updateStyleFromTextMateRuleSettings editorBackground style matched)
       (fst base),
     option_map
       (fun style =>
          updateStyleFromTextMateRuleSettings editorBackground style matched)
       (snd base)).
Proof.
  intros Hb Hm Hs. unfold findThemeStyleForScope.
  rewrite (find_first _ _ _ _ Hb Hm). destruct m as [sc st].
  cbn [TextMate.settings] in Hs. subst st. reflexivity.
Qed.

Lemma findThemeStyleForScope_first_match_witness :
  findThemeStyleForScope None (Some sampleStyle, None) "string"
    (Some ([ {| TextMate.scope := TextMate.ScopeName "string";
                TextMate.settings := None |} ]
           ++ sampleRule :: [sampleRule]))
  = (Some {| foreground := Some "#6A9955"%string; background := None;
             fontStyle := Some "italic"%string |}, None).
Proof.
  apply (findThemeStyleForScope_first_match None (Some sampleStyle, None)
           "string"
           [ {| TextMate.scope := TextMate.ScopeName "string";
                TextMate.settings := None |} ]
           [sampleRule] sampleRule sampleRuleSettings);
    [ repeat constructor | reflexivity | reflexivity ].
Defined.

(** X18: when no rule with settings names the scope, or no rules are given
    at all, [findThemeStyleForScope] leaves both styles as they are. *)
Theorem findThemeStyleForScope_no_match
  (editorBackground : option string) (base : StylePair) (scope : string)
  (textMateRules : option (list TextMate.Rule)) :
  match textMateRules with
  | Some rules => Forall (fun e => ruleNamesScope scope e = false) rules
  | None => True
  end ->
  findThemeStyleForScope editorBackground base scope textMateRules = base.
Proof.
  intros H. unfold findThemeStyleForScope.
  destruct textMateRules as [rules | ]; [ | reflexivity ].
  rewrite (find_none _ _ H). reflexivity.
Qed.

Lemma findThemeStyleForScope_no_match_witness :
  findThemeStyleForScope None (Some sampleStyle, None) "keyword"
    (Some [sampleRule])
  = (Some sampleStyle, None).
Proof.
  apply findThemeStyleForScope_no_match. repeat constructor.
Defined.

(** ** The order of the sources of style *)

Lemma findThemeStyleForScope_presence
  (editorBackground : option string) (base : StylePair) (scope : string)
  (textMateRules : option (list TextMate.Rule)) (style : ThemeStyle) :
  fst base = Some style ->
  exists style',
    fst (findThemeStyleForScope editorBackground base scope textMateRules)
    = Some style'.
Proof.
  intros H. unfold findThemeStyleForScope.
  destruct textMateRules as [rules | ]; [ | eauto ].
  destruct (find (ruleNamesScope scope) rules) as [[sc [st | ]] | ];
    cbn [fst]; rewrite ?H; cbn [option_map]; eauto.
Qed.

Lemma overrideForeground_presence (v : option string) (base : StylePair)
  (style : ThemeStyle) :
  fst base = Some style ->
  exists style', fst (overrideForeground v base) = Some style'.
Proof.
  intros H. unfold overrideForeground.
  destruct (truthy v); cbn [fst]; rewrite ?H; cbn [option_map]; eauto.
Qed.

Lemma fold_findThemeStyleForScope_presence
  (editorBackground : option string) (scope : string)
  (themeTextMateRules : list (list TextMate.Rule)) :
  forall (base : StylePair) (style : ThemeStyle),
    fst base = Some style ->
    exists style',
      fst (fold_left
             (fun base rules =>
                findThemeStyleForScope editorBackground base scope
                  (Some rules)) themeTextMateRules base)
      = Some style'.
Proof.
  induction themeTextMateRules as [ | rules rest IH]; intros base style H;
    cbn [fold_left]; [ eauto | ].
  destruct (findThemeStyleForScope_presence editorBackground base scope
              (Some rules) style H) as (style1 & H1).
  exact (IH _ _ H1).
Qed.

(** X19: a rule among the user's theme-specific TextMate rules that is the
    first to name the scope and gives a foreground decides the foreground
    of the C style, whatever the theme, the user's global rules and the
    color tokens say. *)
Theorem calculateThemeStyleForScope_theme_specific_rule_wins
  (editorBackground : option string) (otherSettings : OtherSettings)
  (base : StylePair) (scope themeName : string)
  (themeTextMateRules : list (list TextMate.Rule))
  (rules : list TextMate.Rule) (m : TextMate.Rule)
  (matched : TextMate.RuleSettings) (style : ThemeStyle) :
  getCustomThemeSpecificTextMateRules otherSettings themeName = Some rules ->
  find (ruleNamesScope scope) rules = Some m ->
  TextMate.settings m = Some matched ->
  truthy (TextMate.foreground matched) = true ->
  fst base = Some style ->
  exists style',
    fst (calculateThemeStyleForScope editorBackground otherSettings base
           scope themeName themeTextMateRules) = Some style'
    /\ foreground style' = TextMate.foreground matched.
Proof.
  intros Hrules Hfind Hsettings Hfg Hbase.
  unfold calculateThemeStyleForScope. cbv zeta.
  match goal with
  | |- context [fold_left ?f themeTextMateRules base] =>
      set (b1 := fold_left f themeTextMateRules base)
  end.
  assert (H1 : exists s1, fst b1 = Some s1)
    by (eapply fold_findThemeStyleForScope_presence; exact Hbase).
  clearbody b1. destruct H1 as (s1 & H1).
  match goal with
  | |- context [findThemeStyleForScope _ ?b _ (customTextMateRules _)] =>
      set (b2 := b)
  end.
  assert (H2 : exists s2, fst b2 = Some s2).
  { subst b2. destruct (scopeToTokenColorNameMap scope);
      [ eapply overrideForeground_presence; exact H1 | eauto ]. }
  clearbody b2. destruct H2 as (s2 & H2).
  match goal with
  | |- context [findThemeStyleForScope _ b2 _ ?r] =>
      set (b3 := findThemeStyleForScope editorBackground b2 scope r)
  end.
  assert (H3 : exists s3, fst b3 = Some s3)
    by (eapply findThemeStyleForScope_presence; exact H2).
  clearbody b3. destruct H3 as (s3 & H3).
  match goal with
  | |- context [findThemeStyleForScope _ ?b _
                  (getCustomThemeSpecificTextMateRules _ _)] =>
      set (b4 := b)
  end.
  assert (H4 : exists s4, fst b4 = Some s4).
  { subst b4. destruct (scopeToTokenColorNameMap scope);
      [ eapply overrideForeground_presence; exact H3 | eauto ]. }
  clearbody b4. destruct H4 as (s4 & H4).
  rewrite Hrules. unfold findThemeStyleForScope. rewrite Hfind.
  destruct m as [sc st]. cbn [TextMate.settings] in Hsettings. subst st.
  cbn [fst]. rewrite H4. cbn [option_map]. eexists. split; [ reflexivity | ].
  unfold updateStyleFromTextMateRuleSettings. rewrite Hfg.
  destruct (truthy (TextMate.background matched)
            && negb (same_string (TextMate.background matched)
                       editorBackground));
    destruct (truthy (TextMate.fontStyle matched));
    destruct (same_string (TextMate.fontStyle matched) (Some EmptyString));
    reflexivity.
Qed.

Lemma calculateThemeStyleForScope_theme_specific_rule_wins_witness :
  let otherSettings :=
    {| getCustomColorToken := fun _ => Some "#FF0000"%string;
       customTextMateRules := None;
       getCustomThemeSpecificColorToken := fun _ _ => Some "#00FF00"%string;
       getCustomThemeSpecificTextMateRules := fun _ => Some [sampleRule] |} in
  exists style',
    fst (calculateThemeStyleForScope None otherSettings
           (Some sampleStyle, None) "comment" "Dark+" [])
    = Some style'
    /\ foreground style' = Some "#6A9955"%string.
Proof.
  cbv zeta.
  apply (calculateThemeStyleForScope_theme_specific_rule_wins None _
           (Some sampleStyle, None) "comment" "Dark+" [] [sampleRule]
           sampleRule sampleRuleSettings sampleStyle); reflexivity.
Defined.

(** ** The maps [updateStyles] builds *)

Lemma aset_all_defined (n i : nat) (a : jsarray ThemeStyle)
  (style : ThemeStyle) :
  (i < n)%nat -> all_defined n a -> all_defined n (aset a i (Some style)).
Proof.
  intros Hi [Hlen Hall]. subst n. unfold all_defined. revert i Hi.
  induction Hall as [ | x a Hx Hall IH]; intros i Hi;
    [ cbn in Hi; lia | ].
  destruct i as [ | i]; cbn [aset List.length] in *.
  - split; [ reflexivity | constructor; [ discriminate | exact Hall ] ].
  - assert (Hi' : (i < List.length a)%nat) by lia.
    destruct (IH i Hi') as [Hlen' Hall'].
    split; [ f_equal; exact Hlen' | constructor; assumption ].
Qed.

Lemma calculateInto_all_defined (n : nat)
  (editorBackground : option string) (otherSettings : OtherSettings)
  (tokenKind : nat) (useC useCpp : bool) (scope themeName : string)
  (themeTextMateRules : list (list TextMate.Rule)) (maps : StyleMaps) :
  (tokenKind < n)%nat ->
  all_defined n (fst maps) /\ all_defined n (snd maps) ->
  all_defined n
    (fst (calculateInto editorBackground otherSettings tokenKind useC useCpp
            scope themeName themeTextMateRules maps))
  /\ all_defined n
       (snd (calculateInto editorBackground otherSettings tokenKind useC
               useCpp scope themeName themeTextMateRules maps)).
Proof.
  intros Hk [Hc Hcpp]. unfold calculateInto. cbv zeta. cbn [fst snd].
  split.
  - destruct (fst (calculateThemeStyleForScope _ _ _ _ _ _));
      [ apply aset_all_defined; assumption | exact Hc ].
  - destruct (snd (calculateThemeStyleForScope _ _ _ _ _ _));
      [ apply aset_all_defined; assumption | exact Hcpp ].
Qed.

Lemma calculateStyleForParts_all_defined (n : nat)
  (editorBackground : option string) (otherSettings : OtherSettings)
  (tokenKind : nat) (themeName : string)
  (themeTextMateRules : list (list TextMate.Rule)) (parts : list string) :
  (tokenKind < n)%nat ->
  forall (accumulatedScope : string) (maps : StyleMaps),
    all_defined n (fst maps) /\ all_defined n (snd maps) ->
    all_defined n
      (fst (calculateStyleForParts editorBackground otherSettings tokenKind
              parts accumulatedScope themeName themeTextMateRules maps))
    /\ all_defined n
         (snd (calculateStyleForParts editorBackground otherSettings
                 tokenKind parts accumulatedScope themeName
                 themeTextMateRules maps)).
Proof.
  intros Hk. induction parts as [ | part rest IH];
    intros accumulatedScope maps H; cbn [calculateStyleForParts];
    [ exact H | ].
  cbv zeta. apply IH.
  repeat (apply calculateInto_all_defined; [ exact Hk | ]). exact H.
Qed.

Lemma repeat_all_defined (n : nat) (style : ThemeStyle) :
  all_defined n (repeat (Some style) n).
Proof.
  split; [ apply repeat_length | ].
  apply Forall_forall. intros x Hx. apply repeat_spec in Hx. subst x.
  discriminate.
Qed.

Lemma aget_all_defined (n k : nat) (a : jsarray ThemeStyle) :
  all_defined n a -> (k < n)%nat -> exists style, aget a k = Some style.
Proof.
  intros [Hlen Hall] Hk. unfold aget.
  destruct (nth k a None) as [style | ] eqn:E; [ eauto | ].
  exfalso. rewrite Forall_forall in Hall.
  apply (Hall None); [ | reflexivity ].
  rewrite <- E. apply nth_In. lia.
Qed.

(** X20: whatever the theme and the user's settings, [updateStyles]
    leaves maps of exactly [TokenKind.Count] slots in which every token
    kind has a C style and a C++ style. *)
Theorem updateStyles_defines_every_style
  (editorBackground : option string) (otherSettings : OtherSettings)
  (themeName : string) (defaultStyle : ThemeStyle)
  (textMateRules : list (list TextMate.Rule)) :
  let maps :=
    updateStyles editorBackground otherSettings themeName defaultStyle
      textMateRules in
  List.length (fst maps) = TokenKind.Count
  /\ List.length (snd maps) = TokenKind.Count
  /\ forall k, (k < TokenKind.Count)%nat ->
               exists c cpp,
                 aget (fst maps) k = Some c /\ aget (snd maps) k = Some cpp.
Proof.
  cbv zeta. unfold updateStyles.
  assert (H : forall (l : list (nat * string)) (maps : StyleMaps),
             Forall (fun ks => (fst ks < TokenKind.Count)%nat) l ->
             all_defined TokenKind.Count (fst maps)
             /\ all_defined TokenKind.Count (snd maps) ->
             all_defined TokenKind.Count
               (fst (fold_left
                       (fun maps ks =>
                          calculateStyleForToken editorBackground
                            otherSettings (fst ks) (snd ks) themeName
                            textMateRules maps) l maps))
             /\ all_defined TokenKind.Count
                  (snd (fold_left
                          (fun maps ks =>
                             calculateStyleForToken editorBackground
                               otherSettings (fst ks) (snd ks) themeName
                               textMateRules maps) l maps))).
  { induction l as [ | ks l IH]; intros maps Hl Hm; cbn [fold_left];
      [ exact Hm | ].
    inversion Hl as [ | ? ? Hk Hl']; subst. apply IH; [ exact Hl' | ].
    unfold calculateStyleForToken.
    apply calculateStyleForParts_all_defined; assumption. }
  destruct (H tokenScopes
              (repeat (Some defaultStyle) TokenKind.Count,
               repeat (Some defaultStyle) TokenKind.Count))
    as [Hc Hcpp].
  - unfold tokenScopes, TokenKind.Count.
    repeat (constructor; [ cbn [fst]; lia | ]). constructor.
  - cbn [fst snd]. split; apply repeat_all_defined.
  - split; [ apply Hc | split; [ apply Hcpp | ] ].
    intros k Hk.
    destruct (aget_all_defined _ k _ Hc Hk) as (c & Ec).
    destruct (aget_all_defined _ k _ Hcpp Hk) as (cpp & Ecpp).
    exists c, cpp. split; assumption.
Qed.

(** X21: for a user who has customized nothing and a theme without rules,
    every style of both maps is the default style. *)
Theorem updateStyles_without_rules
  (editorBackground : option string) (themeName : string)
  (defaultStyle : ThemeStyle) :
  updateStyles editorBackground noOtherSettings themeName defaultStyle []
  = (repeat (Some defaultStyle) TokenKind.Count,
     repeat (Some defaultStyle) TokenKind.Count).
Proof. vm_compute. reflexivity. Qed.

(** ** The render options of a style *)

Lemma fold_applyFontStylePart (words : list string) :
  forall options,
    let o := fold_left applyFontStylePart words options in
    RenderOptions.color o = RenderOptions.color options
    /\ RenderOptions.backgroundColor o
       = RenderOptions.backgroundColor options
    /\ RenderOptions.fontStyle o
       = (if existsb (String.eqb "italic") words then Some "italic"%string
          else RenderOptions.fontStyle options)
    /\ RenderOptions.fontWeight o
       = (if existsb (String.eqb "bold") words then Some "bold"%string
          else RenderOptions.fontWeight options)
    /\ RenderOptions.textDecoration o
       = (if existsb (String.eqb "underline") words
          then Some "underline"%string
          else RenderOptions.textDecoration options).
Proof.
  induction words as [ | w words IH]; intros options;
    cbn [fold_left existsb]; [ repeat split | ].
  cbv zeta in IH.
  destruct (IH (applyFontStylePart options w)) as (H1 & H2 & H3 & H4 & H5).
  cbv zeta. rewrite H1, H2, H3, H4, H5. clear.
  unfold applyFontStylePart.
  rewrite (String.eqb_sym "italic" w), (String.eqb_sym "bold" w),
    (String.eqb_sym "underline" w).
  destruct (String.eqb_spec w "italic") as [-> | Hi]; cbn.
  - repeat split;
      repeat match goal with
             | |- context [if ?c then _ else _] => destruct c
             end; reflexivity.
  - destruct (String.eqb_spec w "bold") as [-> | Hb]; cbn.
    + repeat split;
        repeat match goal with
               | |- context [if ?c then _ else _] => destruct c
               end; reflexivity.
    + destruct (String.eqb_spec w "underline") as [-> | Hu]; cbn;
        repeat split;
        repeat match goal with
               | |- context [if ?c then _ else _] => destruct c
               end; reflexivity.
Qed.

(** X22: the options built for a style say italic, bold and underline
    exactly when that word is among the words of the font style, separated
    by single spaces, in whatever order and whatever else the font style
    holds; the colors are those of the style when it has them. *)
Theorem decorationRenderOptions_words (themeStyle : ThemeStyle) :
  let words :=
    match fontStyle themeStyle with
    | Some (String c rest) => split_char " "%char (String c rest)
    | _ => []
    end in
  let o := decorationRenderOptions themeStyle in
  RenderOptions.fontStyle o
  = (if existsb (String.eqb "italic") words then Some "italic"%string
     else None)
  /\ RenderOptions.fontWeight o
     = (if existsb (String.eqb "bold") words then Some "bold"%string
        else None)
  /\ RenderOptions.textDecoration o
     = (if existsb (String.eqb "underline") words
        then Some "underline"%string else None)
  /\ RenderOptions.color o
     = (if truthy (foreground themeStyle) then foreground themeStyle
        else None)
  /\ RenderOptions.backgroundColor o
     = (if truthy (background themeStyle) then background themeStyle
        else None).
Proof.
  cbv zeta. unfold decorationRenderOptions. cbv zeta.
  set (o2 := if truthy (background themeStyle) then _ else _).
  assert (Ho2 : RenderOptions.color o2
                = (if truthy (foreground themeStyle)
                   then foreground themeStyle else None)
                /\ RenderOptions.backgroundColor o2
                   = (if truthy (background themeStyle)
                      then background themeStyle else None)
                /\ RenderOptions.fontStyle o2 = None
                /\ RenderOptions.fontWeight o2 = None
                /\ RenderOptions.textDecoration o2 = None).
  { subst o2. destruct (truthy (foreground themeStyle));
      destruct (truthy (background themeStyle)); repeat split. }
  clearbody o2. destruct Ho2 as (C1 & C2 & C3 & C4 & C5).
  destruct (fontStyle themeStyle) as [[ | c rest] | ].
  - cbn [existsb]. repeat split; assumption.
  - destruct (fold_applyFontStylePart (split_char " "%char (String c rest))
                o2) as (H1 & H2 & H3 & H4 & H5).
    cbv zeta in H1, H2, H3, H4, H5.
    rewrite H1, H2, H3, H4, H5, C1, C2, C3, C4, C5. repeat split.
  - cbn [existsb]. repeat split; assumption.
Qed.

(** A font style with its words in an unusual order and a word the code
    does not know. *)
Example decorationRenderOptions_sample :
  decorationRenderOptions
    {| foreground := Some "#6A9955"%string; background := None;
       fontStyle := Some "underline strikethrough italic"%string |}
  = {| RenderOptions.color := Some "#6A9955"%string;
       RenderOptions.backgroundColor := None;
       RenderOptions.fontStyle := Some "italic"%string;
       RenderOptions.fontWeight := None;
       RenderOptions.textDecoration := Some "underline"%string |}.
Proof. reflexivity. Qed.
